(** * factory-planner: the icon colour extractor, the icon-index patch and
      the extraction of the gatherers

    A shallow embedding of [calculate_colors.py] (the per-icon dominant
    colour extraction and the atlas walk of [main]), of
    [scripts/patch_icons.py] and of [scripts/extract_gatherers.py], with the
    properties of its specification and further properties of the code.

    Python's [float] is IEEE 754 binary64, which is what Rocq's primitive
    [float] is, so every floating-point operation below is the very
    operation CPython performs.  Exceptions are explicit: a computation
    returns [Ok v] or [Raise e]. *)

From Stdlib Require Import ZArith NArith List Bool Lia String Ascii Floats.
From Stdlib Require Import HexadecimalString DecimalString.
From Stdlib.Strings Require Byte.
Import ListNotations.

Set Warnings "-inexact-float,-register-all".
Open Scope Z_scope.

(** ** Exceptions *)

Inductive exn : Type :=
  | ZeroDivisionError
  | OverflowError
  | ValueError
  | TypeError
  | AttributeError
  | IndexError.

Inductive res (A : Type) : Type :=
  | Ok (a : A)
  | Raise (e : exn).
Arguments Ok {A} a.
Arguments Raise {A} e.

Definition bind {A B : Type} (c : res A) (k : A -> res B) : res B :=
  match c with
  | Ok a => k a
  | Raise e => Raise e
  end.

Notation "x <- c ;; k" := (bind c (fun x => k))
  (at level 61, c at next level, right associativity).
Notation "' p <- c ;; k" := (bind c (fun p => k))
  (at level 61, p pattern, c at next level, right associativity).

(** ** Python numbers *)

Module PyNum.

(** A finite binary64 value is an integer multiple of [2^-1074]; [scaled]
    is that integer.  It gives the exact value of a float, which is what
    CPython uses when it compares a float with an int and when it
    truncates a float. *)
Definition scale : Z := 2 ^ 1074.

Definition scaled (x : spec_float) : Z :=
  match x with
  | S754_zero _ => 0
  | S754_nan => 0
  | S754_infinity s => cond_Zopp s (2 ^ 2200)
  | S754_finite s m e => cond_Zopp s (Zpos m * 2 ^ (e + 1074))
  end.

(** [float(n)] for an int [n]: the nearest binary64, ties to even.  CPython
    raises OverflowError from [2^1024] on; the ints converted in this
    program are list lengths, pixel counts and sums of 8-bit channels. *)
Definition float_of_int (n : Z) : float :=
  SF2Prim (binary_normalize prec emax n 0 false).

(** [int(x)] for a float [x]: truncation toward zero. *)
Definition int_of_float (x : float) : res Z :=
  match Prim2SF x with
  | S754_nan => Raise ValueError
  | S754_infinity _ => Raise OverflowError
  | sf => Ok (Z.quot (scaled sf) scale)
  end.

(** [n > x] for an int [n] and a float [x]: CPython compares the exact
    values; every comparison with a NaN is false. *)
Definition int_gt_float (n : Z) (x : float) : bool :=
  match Prim2SF x with
  | S754_nan => false
  | sf => scaled sf <? n * scale
  end.

(** [x / y] for floats. *)
Definition float_div (x y : float) : res float :=
  if (y =? 0)%float then Raise ZeroDivisionError else Ok (x / y)%float.

(** [a / b] for ints: the correctly rounded quotient of the exact values. *)
Definition int_truediv (a b : Z) : res float :=
  if b =? 0 then Raise ZeroDivisionError
  else
    match a with
    | Z0 => Ok (SF2Prim (S754_zero (b <? 0)))
    | _ =>
        let '(q, e, l) := SFdiv_core_binary prec emax (Z.abs a) 0 (Z.abs b) 0 in
        Ok (SF2Prim (binary_round_aux prec emax (xorb (a <? 0) (b <? 0)) q e l))
    end.

(** C's [fmod(x, 1.0)]: the fractional part, with the sign of [x]; exact. *)
Definition fmod1 (x : float) : float :=
  match Prim2SF x with
  | S754_nan => nan
  | S754_infinity _ => nan
  | S754_zero _ => x
  | S754_finite s m e =>
      if 0 <=? e then SF2Prim (S754_zero s)
      else
        match Zpos m mod 2 ^ (- e) with
        | Zpos f => SF2Prim (binary_normalize prec emax (cond_Zopp s (Zpos f)) e s)
        | _ => SF2Prim (S754_zero s)
        end
  end.

(** [x % 1.0] for a float [x] (CPython's [float_rem] with divisor 1.0): a
    non-zero remainder of the wrong sign is moved up by the divisor, a zero
    remainder takes the divisor's sign. *)
Definition float_mod1 (x : float) : float :=
  let md := fmod1 x in
  if (md =? 0)%float then 0%float
  else if (md <? 0)%float then (md + 1)%float
  else md.

(** [max(a, b, c)] and [min(a, b, c)]: the running item is replaced only by
    a later one that compares strictly greater (smaller). *)
Definition max3 (a b c : float) : float :=
  let m := if (a <? b)%float then b else a in
  if (m <? c)%float then c else m.

Definition min3 (a b c : float) : float :=
  let m := if (b <? a)%float then b else a in
  if (c <? m)%float then c else m.

(** [min(1.0, x)]. *)
Definition min_one (x : float) : float :=
  if (x <? 1)%float then x else 1%float.

(** [sum(...)] of floats: the start value is the int [0], which CPython
    converts to [0.0] for the first addition and which compares as [0.0];
    the additions are made from left to right (CPython up to 3.11, the
    version whose [colorsys] is embedded below; from 3.12 on CPython
    compensates the rounding errors of such a sum). *)
Definition float_sum (xs : list float) : float :=
  fold_left PrimFloat.add xs 0%float.

Definition int_sum (xs : list Z) : Z := fold_left Z.add xs 0.

End PyNum.
Import PyNum.

(** ** colorsys (CPython's standard library, as of Python 3.11) *)

Module colorsys.

Definition ONE_THIRD : float := (1 / 3)%float.
Definition ONE_SIXTH : float := (1 / 6)%float.
Definition TWO_THIRD : float := (2 / 3)%float.

Definition rgb_to_hls (r g b : float) : res (float * float * float) :=
  let maxc := max3 r g b in
  let minc := min3 r g b in
  let sumc := (maxc + minc)%float in
  let rangec := (maxc - minc)%float in
  l <- float_div sumc 2 ;;
  if (minc =? maxc)%float then Ok (0%float, l, 0%float)
  else
    s <- (if (l <=? 0.5)%float then float_div rangec sumc
          else float_div rangec (2 - sumc)%float) ;;
    rc <- float_div (maxc - r)%float rangec ;;
    gc <- float_div (maxc - g)%float rangec ;;
    bc <- float_div (maxc - b)%float rangec ;;
    let h := if (r =? maxc)%float then (bc - gc)%float
             else if (g =? maxc)%float then (2 + rc - bc)%float
             else (4 + gc - rc)%float in
    h6 <- float_div h 6 ;;
    Ok (float_mod1 h6, l, s).

Definition _v (m1 m2 hue : float) : float :=
  let hue := float_mod1 hue in
  if (hue <? ONE_SIXTH)%float then (m1 + (m2 - m1) * hue * 6)%float
  else if (hue <? 0.5)%float then m2
  else if (hue <? TWO_THIRD)%float then (m1 + (m2 - m1) * (TWO_THIRD - hue) * 6)%float
  else m1.

Definition hls_to_rgb (h l s : float) : float * float * float :=
  if (s =? 0)%float then (l, l, l)
  else
    let m2 := if (l <=? 0.5)%float then (l * (1 + s))%float
              else (l + s - l * s)%float in
    let m1 := (2 * l - m2)%float in
    (_v m1 m2 (h + ONE_THIRD)%float, _v m1 m2 h, _v m1 m2 (h - ONE_THIRD)%float).

End colorsys.
Import colorsys.

(** ** Python containers *)

Module PyList.

(** [l[i]] and the position [l[i]] designates: a negative index counts from
    the end, an index out of range raises IndexError. *)
Definition position {A : Type} (l : list A) (i : Z) : res nat :=
  let n := Z.of_nat (List.length l) in
  if (0 <=? i) && (i <? n) then Ok (Z.to_nat i)
  else if (- n <=? i) && (i <? 0) then Ok (Z.to_nat (n + i))
  else Raise IndexError.

Definition get {A : Type} (l : list A) (i : Z) : res A :=
  k <- position l i ;;
  match nth_error l k with
  | Some x => Ok x
  | None => Raise IndexError
  end.

Fixpoint alter {A : Type} (f : A -> A) (k : nat) (l : list A) : list A :=
  match l, k with
  | [], _ => []
  | x :: t, O => f x :: t
  | x :: t, S k' => x :: alter f k' t
  end.

(** [l[i].append(x)] on a list of lists. *)
Definition append_at {A : Type} (l : list (list A)) (i : Z) (x : A)
  : res (list (list A)) :=
  k <- position l i ;;
  Ok (alter (fun b => b ++ [x]) k l).

Definition len {A : Type} (l : list A) : Z := Z.of_nat (List.length l).

(** [range(n)]. *)
Definition range (n : nat) : list Z := map Z.of_nat (seq 0 n).

(** A [for] loop whose body may raise. *)
Fixpoint for_each {S A : Type} (body : S -> A -> res S) (xs : list A) (st : S)
  : res S :=
  match xs with
  | [] => Ok st
  | x :: t => st' <- body st x ;; for_each body t st'
  end.

End PyList.

(** A [dict] with string keys, in insertion order. *)
Module PyDict.

Section Dict.
Context {V : Type}.

Fixpoint get (k : string) (d : list (string * V)) : option V :=
  match d with
  | [] => None
  | (k', v) :: t => if String.eqb k k' then Some v else get k t
  end.

(** [d[k] = v]: an existing key keeps its place. *)
Fixpoint set (k : string) (v : V) (d : list (string * V)) : list (string * V) :=
  match d with
  | [] => [(k, v)]
  | (k', v') :: t =>
      if String.eqb k k' then (k, v) :: t else (k', v') :: set k v t
  end.

Definition keys (d : list (string * V)) : list string := map fst d.

Definition mem (k : string) (d : list (string * V)) : bool :=
  match get k d with Some _ => true | None => false end.

End Dict.

End PyDict.

(** ** calculate_colors.py *)

Module calculate_colors.

(** Config from ItemIcon.tsx *)
Definition ICON_SIZE : Z := 64.
Definition COLS : Z := 23.

(** A pixel of an 8-bit PIL image: a tuple of four channels, or of three
    when the mode has no alpha. *)
Inductive pixel : Type :=
  | RGBA (r g b a : Byte.byte)
  | RGB (r g b : Byte.byte).

Definition chan (c : Byte.byte) : Z := Z.of_N (Byte.to_N c).

(** What [img_crop.size] and [img_crop.load()] give. *)
Record image : Type := {
  width : nat;
  height : nat;
  load : nat -> nat -> pixel
}.

(** The pixels in the order the two loops visit them:
    [for y in range(height): for x in range(width)]. *)
Definition pixel_sequence (img : image) : list pixel :=
  flat_map (fun y => map (fun x => load img x y) (seq 0 (width img)))
           (seq 0 (height img)).

(** A member [(r, g, b, s, l)] of a hue bucket and a member [(r, g, b, l)]
    of the grey pool. *)
Record colored : Type := {
  c_r : Byte.byte; c_g : Byte.byte; c_b : Byte.byte;
  c_s : float; c_l : float
}.

Record grey : Type := {
  g_r : Byte.byte; g_g : Byte.byte; g_b : Byte.byte;
  g_l : float
}.

(** The classifier's three outputs. *)
Record classes : Type := {
  buckets : list (list colored);
  greys : list grey;
  total_non_transparent : Z
}.

Definition initial : classes :=
  {| buckets := repeat [] 36; greys := []; total_non_transparent := 0 |}.

(** [int(h * 36) % 36] *)
Definition hue_index (h : float) : res Z :=
  n <- int_of_float (h * 36)%float ;;
  Ok (n mod 36).

(** The body of the pixel loop (lines 28-43). *)
Definition classify_pixel (st : classes) (px : pixel) : res classes :=
  let '(r, g, b, a) :=
    match px with
    | RGBA r g b a => (r, g, b, chan a)
    | RGB r g b => (r, g, b, 255)
    end in
  if a <? 64 then Ok st
  else
    let total := total_non_transparent st + 1 in
    rf <- int_truediv (chan r) 255 ;;
    gf <- int_truediv (chan g) 255 ;;
    bf <- int_truediv (chan b) 255 ;;
    '(h, l, s) <- rgb_to_hls rf gf bf ;;
    if (l <? 0.1)%float || (0.95 <? l)%float then
      Ok {| buckets := buckets st; greys := greys st;
            total_non_transparent := total |}
    else if (s <? 0.20)%float then
      Ok {| buckets := buckets st;
            greys := greys st ++ [{| g_r := r; g_g := g; g_b := b; g_l := l |}];
            total_non_transparent := total |}
    else
      hue_idx <- hue_index h ;;
      bs <- PyList.append_at (buckets st) hue_idx
              {| c_r := r; c_g := g; c_b := b; c_s := s; c_l := l |} ;;
      Ok {| buckets := bs; greys := greys st; total_non_transparent := total |}.

(** The Hue Classifier: the pixel loop from a given state, and from the
    empty one. *)
Definition classify_from (st : classes) (pxs : list pixel) : res classes :=
  PyList.for_each classify_pixel pxs st.

Definition classify (pxs : list pixel) : res classes :=
  classify_from initial pxs.

(** [sum(px[3] for px in bucket)] *)
Definition strength (bucket : list colored) : float :=
  float_sum (map c_s bucket).

(** The state of the strength scan: [best_bucket], [max_strength],
    [total_colored_pixels]. *)
Record scan : Type := {
  best_bucket : Z;
  max_strength : float;
  total_colored_pixels : Z
}.

Definition scan_start : scan :=
  {| best_bucket := -1; max_strength := 0; total_colored_pixels := 0 |}.

(** The body of [for i in range(36)] (lines 51-56). *)
Definition scan_step (bs : list (list colored)) (sc : scan) (i : Z) : res scan :=
  b <- PyList.get bs i ;;
  let colored_pixels := total_colored_pixels sc + PyList.len b in
  let st := strength b in
  if (max_strength sc <? st)%float then
    Ok {| best_bucket := i; max_strength := st;
          total_colored_pixels := colored_pixels |}
  else
    Ok {| best_bucket := best_bucket sc; max_strength := max_strength sc;
          total_colored_pixels := colored_pixels |}.

Definition find_strongest (bs : list (list colored)) : res scan :=
  PyList.for_each (scan_step bs) (PyList.range 36) scan_start.

(** The condition of line 60; [and] does not evaluate its right operand
    when the left one is false. *)
Definition dominant_accepted (sc : scan) (total : Z) : bool :=
  negb (best_bucket sc =? -1)
  && int_gt_float (total_colored_pixels sc) (float_of_int total * 0.15)%float.

Definition rgb : Type := (Z * Z * Z)%type.

(** Lines 62-72: the prime colour of the top bucket. *)
Definition prime_color (b_pixels : list colored) : res rgb :=
  avg_r <- int_truediv (int_sum (map (fun p => chan (c_r p)) b_pixels))
                       (PyList.len b_pixels) ;;
  avg_g <- int_truediv (int_sum (map (fun p => chan (c_g p)) b_pixels))
                       (PyList.len b_pixels) ;;
  avg_b <- int_truediv (int_sum (map (fun p => chan (c_b p)) b_pixels))
                       (PyList.len b_pixels) ;;
  rf <- float_div avg_r (float_of_int 255) ;;
  gf <- float_div avg_g (float_of_int 255) ;;
  bf <- float_div avg_b (float_of_int 255) ;;
  '(h, l, s) <- rgb_to_hls rf gf bf ;;
  let s := min_one (s * 1.5)%float in
  let l := 0.55%float in
  let '(nr, ng, nb) := hls_to_rgb h l s in
  ir <- int_of_float (nr * float_of_int 255)%float ;;
  ig <- int_of_float (ng * float_of_int 255)%float ;;
  ib <- int_of_float (nb * float_of_int 255)%float ;;
  Ok (ir, ig, ib).

(** Lines 77-80: the grey of a neutral icon. *)
Definition grey_color (gs : list grey) : res rgb :=
  avg_l <- float_div (float_sum (map g_l gs)) (float_of_int (PyList.len gs)) ;;
  let l := 0.65%float in
  v <- int_of_float (l * float_of_int 255)%float ;;
  Ok (v, v, v).

(** Which of the three [return] statements is reached, with its colour. *)
Inductive outcome : Type :=
  | Prime (c : rgb)
  | Grey (c : rgb)
  | NoResult.

Definition color_of (o : outcome) : option rgb :=
  match o with
  | Prime c => Some c
  | Grey c => Some c
  | NoResult => None
  end.

(** The Dominant Color Selector (lines 46-82). *)
Definition select (st : classes) : res outcome :=
  sc <- find_strongest (buckets st) ;;
  if dominant_accepted sc (total_non_transparent st) then
    b_pixels <- PyList.get (buckets st) (best_bucket sc) ;;
    c <- prime_color b_pixels ;;
    Ok (Prime c)
  else
    match greys st with
    | _ :: _ => c <- grey_color (greys st) ;; Ok (Grey c)
    | [] => Ok NoResult
    end.

Definition calculate_average_color (img_crop : image) : res (option rgb * Z) :=
  st <- classify (pixel_sequence img_crop) ;;
  o <- select st ;;
  Ok (color_of o, total_non_transparent st).

(** [format(v, "02x")]: lower-case hexadecimal, zero-padded to two
    characters, the sign counted in the width. *)
Definition hex (n : Z) : string :=
  HexadecimalString.NilZero.string_of_uint (N.to_hex_uint (Z.to_N n)).

Definition format_02x (v : Z) : string :=
  if v <? 0 then String "-" (hex (- v))
  else if v <? 16 then String "0" (hex v)
  else hex v.

(** Line 111: a hash sign and the three channels, each as [format_02x]. *)
Definition hex_color (avg : rgb) : string :=
  let '(r, g, b) := avg in
  String "#" (format_02x r ++ format_02x g ++ format_02x b).

(** [str(n)] for an int. *)
Definition str (n : Z) : string :=
  DecimalString.NilZero.string_of_int (Z.to_int n).

(** An item of the manifest: the three keys [main] reads. *)
Record item : Type := {
  id : string;
  name : string;
  iconIndex : Z
}.

(** The sprite sheet after [.convert("RGBA")]. *)
Record sprite_sheet : Type := {
  sheet_width : Z;
  sheet_height : Z;
  sheet_pixel : Z -> Z -> Byte.byte * Byte.byte * Byte.byte * Byte.byte
}.

(** [sprite.crop((sx, sy, sx + ICON_SIZE, sy + ICON_SIZE))]: the part of the
    box that lies outside the image is filled with zeros. *)
Definition crop (sprite : sprite_sheet) (sx sy : Z) : image :=
  {| width := Z.to_nat ICON_SIZE;
     height := Z.to_nat ICON_SIZE;
     load := fun x y =>
       let px := sx + Z.of_nat x in
       let py := sy + Z.of_nat y in
       if (0 <=? px) && (px <? sheet_width sprite)
          && (0 <=? py) && (py <? sheet_height sprite)
       then let '(r, g, b, a) := sheet_pixel sprite px py in RGBA r g b a
       else RGBA Byte.x00 Byte.x00 Byte.x00 Byte.x00 |}.

(** What the loop of [main] builds: [colors] and [log_lines]. *)
Record walk : Type := {
  colors : list (string * string);
  log_lines : list string
}.

Definition out_of_bounds_line (sprite : sprite_sheet) (it : item) : string :=
  ("Error: Icon " ++ str (iconIndex it) ++ " (Item: " ++ name it
   ++ ") is outside sprite sheet (Height: " ++ str (sheet_height sprite) ++ ")")%string.

Definition no_pixels_line (it : item) (non_trans : Z) : string :=
  ("Warning: No valid pixels found for " ++ name it ++ " (ID: " ++ id it
   ++ ", Index: " ++ str (iconIndex it) ++ ") - Non-trans count: "
   ++ str non_trans)%string.

(** The body of [for item in data["items"]] (lines 97-114). *)
Definition walk_item (sprite : sprite_sheet) (w : walk) (it : item) : res walk :=
  let idx := iconIndex it in
  let sx := (idx mod COLS) * ICON_SIZE in
  let sy := (idx / COLS) * ICON_SIZE in
  if sheet_height sprite <? sy + ICON_SIZE then
    Ok {| colors := colors w;
          log_lines := log_lines w ++ [out_of_bounds_line sprite it] |}
  else
    '(avg, non_trans) <- calculate_average_color (crop sprite sx sy) ;;
    match avg with
    | Some c =>
        Ok {| colors := PyDict.set (id it) (hex_color c) (colors w);
              log_lines := log_lines w |}
    | None =>
        Ok {| colors := colors w;
              log_lines := log_lines w ++ [no_pixels_line it non_trans] |}
    end.

Definition walk_start (sprite : sprite_sheet) : walk :=
  {| colors := [];
     log_lines := [("Image Size: " ++ str (sheet_width sprite) ++ "x"
                    ++ str (sheet_height sprite))%string] |}.

Definition walk_items (sprite : sprite_sheet) (items : list item) (w : walk)
  : res walk :=
  PyList.for_each (walk_item sprite) items w.

(** [main]: [None] for the sprite sheet when the file does not exist, and
    then nothing is written. *)
Definition main (sprite_file : option sprite_sheet) (items : list item)
  : res (option walk) :=
  match sprite_file with
  | None => Ok None
  | Some sprite =>
      w <- walk_items sprite items (walk_start sprite) ;;
      Ok (Some w)
  end.

End calculate_colors.
Import calculate_colors.

(** ** scripts/patch_icons.py *)

Module patch_icons.

(** What [json.load] returns. *)
Inductive json : Type :=
  | JNull
  | JBool (b : bool)
  | JInt (n : Z)
  | JFloat (x : float)
  | JStr (s : string)
  | JArr (elems : list json)
  | JObj (fields : list (string * json)).

Definition mappings : list (string * Z) := [("grating-crystal"%string, 11)].

(** [item_id in mappings]: the key is hashed first, and a list or a dict
    cannot be; only a string can equal a key of [mappings]. *)
Definition in_mappings (item_id : json) : res (option Z) :=
  match item_id with
  | JArr _ | JObj _ => Raise TypeError
  | JStr s => Ok (PyDict.get s mappings)
  | _ => Ok None
  end.

(** The body of the loop (lines 14-17), on one element of the list. *)
Definition patch_item (it : json) : res (json * bool) :=
  match it with
  | JObj fields =>
      let item_id := match PyDict.get "id" fields with
                     | Some v => v
                     | None => JNull
                     end in
      m <- in_mappings item_id ;;
      match m with
      | Some idx => Ok (JObj (PyDict.set "iconIndex" (JInt idx) fields), true)
      | None => Ok (it, false)
      end
  | _ => Raise AttributeError
  end.

Fixpoint patch_items (items : list json) (updated_count : Z)
  : res (list json * Z) :=
  match items with
  | [] => Ok ([], updated_count)
  | it :: rest =>
      '(it', hit) <- patch_item it ;;
      '(rest', n) <- patch_items rest (if hit then updated_count + 1 else updated_count) ;;
      Ok (it' :: rest', n)
  end.

(** The script: the document as written back, and [updated_count].  The
    value under ["items"] is iterated: a list gives its elements, a string
    its characters and a dict its keys (strings, which have no [get]), and
    anything else is not iterable. *)
Definition patch (data : json) : res (json * Z) :=
  match data with
  | JObj fields =>
      match PyDict.get "items" fields with
      | None => Ok (data, 0)
      | Some (JArr items) =>
          '(items', n) <- patch_items items 0 ;;
          Ok (JObj (PyDict.set "items" (JArr items') fields), n)
      | Some (JStr EmptyString) | Some (JObj []) => Ok (data, 0)
      | Some (JStr _) | Some (JObj _) => Raise AttributeError
      | Some _ => Raise TypeError
      end
  | _ => Raise AttributeError
  end.

End patch_icons.

Import patch_icons.

(** ** scripts/extract_gatherers.py *)

Module extract_gatherers.

(** The exceptions of this script: the built-in ones of the other two, and
    KeyError with the key that is missing. *)
Inductive error : Type :=
  | Builtin (e : exn)
  | KeyError (key : json).

Inductive result (A : Type) : Type :=
  | Done (a : A)
  | Raised (e : error).
Arguments Done {A} a.
Arguments Raised {A} e.

Definition and_then {A B : Type} (c : result A) (k : A -> result B) : result B :=
  match c with
  | Done a => k a
  | Raised e => Raised e
  end.

Notation "x <~ c ;; k" := (and_then c (fun x => k))
  (at level 61, c at next level, right associativity).

(** [bool(v)]: what an [if] makes of a value. *)
Definition truthy (v : json) : bool :=
  match v with
  | JNull => false
  | JBool b => b
  | JInt n => negb (n =? 0)
  | JFloat x => negb (x =? 0)%float
  | JStr s => match s with EmptyString => false | String _ _ => true end
  | JArr elems => match elems with [] => false | _ :: _ => true end
  | JObj fields => match fields with [] => false | _ :: _ => true end
  end.

(** [d.get(k, default)] on a dict. *)
Definition get_default (fields : list (string * json)) (k : string) (default : json)
  : json :=
  match PyDict.get k fields with
  | Some v => v
  | None => default
  end.

(** [v.get(k, default)] on any value: only a dict has [get]. *)
Definition get_of (v : json) (k : string) (default : json) : result json :=
  match v with
  | JObj fields => Done (get_default fields k default)
  | _ => Raised (Builtin AttributeError)
  end.

(** [d[k]] on a dict. *)
Definition item_of (fields : list (string * json)) (k : string) : result json :=
  match PyDict.get k fields with
  | Some v => Done v
  | None => Raised (KeyError (JStr k))
  end.

(** [v[0]]: the first element of a list, the first character of a string;
    the keys of a dict are strings, so 0 is not one of them; nothing else can
    be subscripted. *)
Definition first (v : json) : result json :=
  match v with
  | JArr (x :: _) => Done x
  | JArr [] => Raised (Builtin IndexError)
  | JStr (String c _) => Done (JStr (String c EmptyString))
  | JStr EmptyString => Raised (Builtin IndexError)
  | JObj _ => Raised (KeyError (JInt 0))
  | _ => Raised (Builtin TypeError)
  end.

(** A number as [/] sees it: an int (a bool is one) or a float. *)
Inductive number : Type :=
  | Int (n : Z)
  | Float (x : float).

Definition as_number (v : json) : option number :=
  match v with
  | JBool b => Some (Int (if b then 1 else 0))
  | JInt n => Some (Int n)
  | JFloat x => Some (Float x)
  | _ => None
  end.

Definition is_infinite (x : float) : bool :=
  match Prim2SF x with
  | S754_infinity _ => true
  | _ => false
  end.

(** The operand of a float division as a C double: an int is rounded to
    the nearest double, and is too large from [2^1024] on. *)
Definition to_double (n : number) : result float :=
  match n with
  | Float x => Done x
  | Int n =>
      if is_infinite (float_of_int n) then Raised (Builtin OverflowError)
      else Done (float_of_int n)
  end.

(** [a / b].  Two ints give the correctly rounded quotient, which may be too
    large for a float; with a float among them both operands are made
    doubles before the divisor is tested. *)
Definition truediv (a b : json) : result float :=
  match as_number a, as_number b with
  | Some (Int m), Some (Int n) =>
      match int_truediv m n with
      | Ok q => if is_infinite q then Raised (Builtin OverflowError) else Done q
      | Raise e => Raised (Builtin e)
      end
  | Some x, Some y =>
      fx <~ to_double x ;;
      fy <~ to_double y ;;
      if (fy =? 0)%float then Raised (Builtin ZeroDivisionError)
      else Done (fx / fy)%float
  | _, _ => Raised (Builtin TypeError)
  end.

(** [recipe.get("category") == "Gathering"] *)
Definition is_gathering (recipe : list (string * json)) : bool :=
  match PyDict.get "category" recipe with
  | Some (JStr s) => String.eqb s "Gathering"
  | _ => false
  end.

(** Line 27: [recipe["outputs"][0] if recipe.get("outputs") else {}] *)
Definition output_of (recipe : list (string * json)) : result json :=
  if truthy (get_default recipe "outputs" JNull)
  then outputs <~ item_of recipe "outputs" ;; first outputs
  else Done (JObj []).

(** Lines 27-36: the gatherer of a Gathering recipe.  The values of the dict
    display are evaluated in the order they are written. *)
Definition gatherer_of (recipe : list (string * json)) : result json :=
  output <~ output_of recipe ;;
  id <~ item_of recipe "id" ;;
  name <~ item_of recipe "name" ;;
  let machineId := get_default recipe "machineId" (JStr "") in
  outputItemId <~ get_of output "itemId" (JStr "") ;;
  outputAmount <~ get_of output "amount" (JInt 1) ;;
  amount <~ get_of output "amount" (JInt 1) ;;
  extractionRate <~ truediv amount (get_default recipe "craftingTime" (JInt 1)) ;;
  Done (JObj [("id", id); ("name", name); ("machineId", machineId);
              ("outputItemId", outputItemId); ("outputAmount", outputAmount);
              ("extractionRate", JFloat extractionRate)]%string).

(** The two lists the loop builds. *)
Record separation : Type := {
  gatherers : list json;
  remaining_recipes : list json
}.

Definition nothing_yet : separation :=
  {| gatherers := []; remaining_recipes := [] |}.

(** The body of [for recipe in recipes] (lines 25-40). *)
Definition handle (st : separation) (recipe : json) : result separation :=
  match recipe with
  | JObj fields =>
      if is_gathering fields then
        gatherer <~ gatherer_of fields ;;
        Done {| gatherers := gatherers st ++ [gatherer];
                remaining_recipes := remaining_recipes st |}
      else
        Done {| gatherers := gatherers st;
                remaining_recipes := remaining_recipes st ++ [recipe] |}
  | _ => Raised (Builtin AttributeError)
  end.

Fixpoint for_each {S A : Type} (body : S -> A -> result S) (xs : list A) (st : S)
  : result S :=
  match xs with
  | [] => Done st
  | x :: t => st' <~ body st x ;; for_each body t st'
  end.

(** What [for recipe in recipes] iterates over: the elements of a list, the
    characters of a string, the keys of a dict; nothing else is iterable. *)
Definition iterate (recipes : json) : result (list json) :=
  match recipes with
  | JArr elems => Done elems
  | JStr s => Done (map (fun c => JStr (String c EmptyString)) (list_ascii_of_string s))
  | JObj fields => Done (map (fun kv => JStr (fst kv)) fields)
  | _ => Raised (Builtin TypeError)
  end.

(** [main], from the document [json.load] returns to the document
    [json.dump] writes back.  What is printed is not part of the model. *)
Definition main (data : json) : result json :=
  match data with
  | JObj fields =>
      elems <~ iterate (get_default fields "recipes" (JArr [])) ;;
      st <~ for_each handle elems nothing_yet ;;
      Done (JObj (PyDict.set "gatherers" (JArr (gatherers st))
                    (PyDict.set "recipes" (JArr (remaining_recipes st)) fields)))
  | _ => Raised (Builtin AttributeError)
  end.

End extract_gatherers.

(** * The vocabulary of the properties *)

(** ** Floats *)

(** A float that is not zero and not a NaN, of the given sign: finite and
    valid, or the infinity. *)
Definition signed_nonzero (s : bool) (x : spec_float) : Prop :=
  match x with
  | S754_finite s' m e => s' = s /\ bounded prec emax m e = true
  | S754_infinity s' => s' = s
  | _ => False
  end.

(** Strictly positive floats, the infinity included. *)
Definition positive_float (x : float) : Prop := signed_nonzero false (Prim2SF x).

(** ** Pixels *)

(** The alpha a pixel is read with: its fourth channel, or 255. *)
Definition alpha (px : pixel) : Z :=
  match px with
  | RGBA _ _ _ a => chan a
  | RGB _ _ _ => 255
  end.

Definition low_alpha (px : pixel) : bool := alpha px <? 64.

(** The lightness and the saturation that [rgb_to_hls] computes, as the
    function of [maxc] and [minc] that they are. *)
Definition lightness_saturation (maxc minc : float) : res (float * float) :=
  let sumc := (maxc + minc)%float in
  let rangec := (maxc - minc)%float in
  l <- float_div sumc 2 ;;
  if (minc =? maxc)%float then Ok (l, 0%float)
  else
    s <- (if (l <=? 0.5)%float then float_div rangec sumc
          else float_div rangec (2 - sumc)%float) ;;
    Ok (l, s).

(** The 256 values of a channel, and a channel as the classifier scales it:
    [c / 255]. *)
Definition all_bytes : list Byte.byte :=
  map (fun n => match Byte.of_N (N.of_nat n) with
                | Some b => b
                | None => Byte.x00
                end) (seq 0 256).

Definition channel_float (c : Byte.byte) : float :=
  match int_truediv (chan c) 255 with
  | Ok x => x
  | Raise _ => nan
  end.

(** An opaque pixel of RGB (255, 0, 0). *)
Definition opaque_red (px : pixel) : Prop :=
  exists a, px = RGBA Byte.xff Byte.x00 Byte.x00 a /\ 64 <= chan a.

(** A saturation that the comparison with 0.20 can place: not a NaN. *)
Definition saturation_placed (maxc minc : float) : bool :=
  match lightness_saturation maxc minc with
  | Ok (_, s) => (s <? 0.20)%float || (0.20 <=? s)%float
  | Raise _ => true
  end.

(** [saturation_placed] on every pair of a list of values. *)
Definition all_pairs_placed (values : list float) : bool :=
  forallb (fun x => forallb (fun y => saturation_placed x y) values) values.

(** ** Buckets *)

(** Every member of a bucket has a saturation of at least 0.20. *)
Definition saturated (c : colored) : Prop := (0.20 <=? c_s c)%float = true.

Definition classified (st : classes) : Prop :=
  List.length (buckets st) = 36%nat
  /\ Forall (Forall saturated) (buckets st).

(** What the strength scan has established after the buckets below [j]:
    nothing selected yet and every bucket so far empty, or a non-empty
    bucket selected with a positive strength. *)
Definition scan_sound (bs : list (list colored)) (j : nat) (sc : scan) : Prop :=
  (best_bucket sc = -1 /\ max_strength sc = 0%float
   /\ forall i, (i < j)%nat -> nth_error bs i = Some [])
  \/ (exists i b, (i < j)%nat /\ best_bucket sc = Z.of_nat i
                  /\ nth_error bs i = Some b /\ b <> []
                  /\ positive_float (max_strength sc)).

(** What the strength scan has established after the buckets below [j],
    whatever the saturations: nothing selected yet, or a non-empty bucket
    selected with a strength above zero. *)
Definition scan_chosen (bs : list (list colored)) (j : nat) (sc : scan) : Prop :=
  (best_bucket sc = -1 /\ max_strength sc = 0%float)
  \/ (exists i b, (i < j)%nat /\ best_bucket sc = Z.of_nat i
                  /\ nth_error bs i = Some b /\ b <> []
                  /\ Prim2SF (max_strength sc) <> S754_nan
                  /\ 0 < scaled (Prim2SF (max_strength sc))).

(** Bucket [t] attains the maximal strength. *)
Definition attains_maximum (bs : list (list colored)) (t : nat) : Prop :=
  exists bt, nth_error bs t = Some bt
    /\ forall j b, nth_error bs j = Some b ->
                   (strength b <=? strength bt)%float = true.

(** The maximal strength is positive. *)
Definition positive_maximum (bs : list (list colored)) (t : nat) : Prop :=
  exists bt, nth_error bs t = Some bt /\ (0 <? strength bt)%float = true.

(** What the scan has established after the buckets below [j], for the
    lowest bucket [t] of maximal strength [top]. *)
Definition scan_toward (t : nat) (top : float) (j : nat) (sc : scan) : Prop :=
  ((j <= t)%nat /\ (max_strength sc <? top)%float = true)
  \/ ((t < j)%nat /\ best_bucket sc = Z.of_nat t /\ max_strength sc = top).

(** ** The selector's paths *)

(** The selector takes the dominant-hue path: it returns what lines 62-72
    compute from [buckets[best_bucket]]. *)
Definition takes_prime_path (st : classes) (sc : scan) : Prop :=
  exists b_pixels,
    PyList.get (buckets st) (best_bucket sc) = Ok b_pixels
    /\ select st = (c <- prime_color b_pixels ;; Ok (Prime c)).

(** The selector takes the grey or no-result path: it returns what lines
    74-82 compute. *)
Definition takes_fallback_path (st : classes) : Prop :=
  select st = match greys st with
              | _ :: _ => c <- grey_color (greys st) ;; Ok (Grey c)
              | [] => Ok NoResult
              end.

(** *** The prime colour as the specification describes it *)

(** The arithmetic mean of a channel. *)
Definition channel_mean (xs : list Z) : res float :=
  int_truediv (int_sum xs) (PyList.len xs).

Definition mean_rgb (b_pixels : list colored) : res (float * float * float) :=
  mr <- channel_mean (map (fun p => chan (c_r p)) b_pixels) ;;
  mg <- channel_mean (map (fun p => chan (c_g p)) b_pixels) ;;
  mb <- channel_mean (map (fun p => chan (c_b p)) b_pixels) ;;
  Ok (mr, mg, mb).

(** Lightness overridden to 0.55, saturation multiplied by 1.5 and capped
    at 1.0, hue unchanged. *)
Definition boost (hls : float * float * float) : float * float * float :=
  let '(h, _, s) := hls in
  (h, 0.55%float, if (s * 1.5 <? 1)%float then (s * 1.5)%float else 1%float).

(** Rounding to the nearest integer, a tie to the even one. *)
Definition round_nearest (x : float) : res Z :=
  match Prim2SF x with
  | S754_nan => Raise ValueError
  | S754_infinity _ => Raise OverflowError
  | sf =>
      let q := scaled sf / scale in
      let r := scaled sf mod scale in
      Ok (if 2 * r <? scale then q
          else if scale <? 2 * r then q + 1
          else if Z.even q then q else q + 1)
  end.

(** Mean of the members, to HLS, boosted, back to RGB, each channel scaled
    to 255 and made an integer by [to_int]: [round_nearest] in the words of
    the specification, [int_of_float] (truncation) in the code. *)
Definition described_prime_color (to_int : float -> res Z) (b_pixels : list colored)
  : res rgb :=
  '(mr, mg, mb) <- mean_rgb b_pixels ;;
  hls <- rgb_to_hls (mr / 255) (mg / 255) (mb / 255) ;;
  let '(h, l, s) := boost hls in
  let '(nr, ng, nb) := hls_to_rgb h l s in
  ir <- to_int (nr * 255)%float ;;
  ig <- to_int (ng * 255)%float ;;
  ib <- to_int (nb * 255)%float ;;
  Ok (ir, ig, ib).

(** The threshold [total * 0.15], as the float it is. *)
Definition coverage_threshold (total : Z) : float :=
  (float_of_int total * 0.15)%float.

(** The float threshold of [total] lies where the exact one does: from
    [floor(3 * total / 20)] on and below the next integer. *)
Definition threshold_exact (total : Z) : bool :=
  match Prim2SF (coverage_threshold total) with
  | S754_nan => false
  | sf => (3 * total / 20 * scale <=? scaled sf)
          && (scaled sf <? (3 * total / 20 + 1) * scale)
  end.

(** What the scan has counted after the buckets below [j]. *)
Definition scan_counted (bs : list (list colored)) (j : nat) (sc : scan) : Prop :=
  (best_bucket sc = -1 \/ 0 <= best_bucket sc < Z.of_nat j)
  /\ total_colored_pixels sc = PyList.len (List.concat (firstn j bs)).

(** ** The Atlas Walker *)

(** The cell of an item, and the two per-item failures: the bottom edge of
    the cell exceeds the height of the sheet, or the extraction yields no
    result. *)
Definition cell (sprite : sprite_sheet) (it : item) : image :=
  crop sprite ((iconIndex it mod COLS) * ICON_SIZE) ((iconIndex it / COLS) * ICON_SIZE).

Definition out_of_bounds (sprite : sprite_sheet) (it : item) : Prop :=
  sheet_height sprite < (iconIndex it / COLS) * ICON_SIZE + ICON_SIZE.

Definition item_fails (sprite : sprite_sheet) (it : item) : Prop :=
  out_of_bounds sprite it
  \/ exists n, calculate_average_color (cell sprite it) = Ok (None, n).

Definition item_succeeds (sprite : sprite_sheet) (it : item) : Prop :=
  ~ out_of_bounds sprite it
  /\ exists c n, calculate_average_color (cell sprite it) = Ok (Some c, n).

(** The walk after a failed item: the same colours, one more line. *)
Definition diagnosed (w : walk) (line : string) : walk :=
  {| colors := colors w; log_lines := log_lines w ++ [line] |}.

(** ** The icon-index patch *)

(** The index [mappings] gives for an item, and the items on which the body
    of the loop raises nothing: objects whose id, if any, can be hashed. *)
Definition mapped_index (it : json) : option Z :=
  match it with
  | JObj fields =>
      match PyDict.get "id" fields with
      | Some (JStr s) => PyDict.get s mappings
      | _ => None
      end
  | _ => None
  end.

Definition is_mapped (it : json) : bool :=
  match mapped_index it with Some _ => true | None => false end.

Definition patchable (it : json) : Prop :=
  match it with
  | JObj fields =>
      match PyDict.get "id" fields with
      | Some (JArr _) | Some (JObj _) => False
      | _ => True
      end
  | _ => False
  end.

(** An item and what the patch makes of it: the same item when its id is
    not a key of [mappings]; otherwise the same fields but for ["iconIndex"],
    which is 11. *)
Definition patched (it it' : json) : Prop :=
  if is_mapped it then
    exists fields fields',
      it = JObj fields /\ it' = JObj fields'
      /\ PyDict.get "iconIndex" fields' = Some (JInt 11)
      /\ forall k, k <> "iconIndex"%string ->
                   PyDict.get k fields' = PyDict.get k fields
  else it' = it.

(** ** Sample inputs *)

Definition red_pixel : pixel := RGBA Byte.xff Byte.x00 Byte.x00 Byte.xff.
Definition grey_pixel : pixel := RGBA Byte.x80 Byte.x80 Byte.x80 Byte.xff.
Definition clear_pixel : pixel := RGBA Byte.x00 Byte.x00 Byte.x00 Byte.x00.

(** An icon and a sprite sheet (23 columns wide, one row high) filled with
    one pixel, and an item at cell [idx] of a sheet. *)
Definition flat_icon (px : pixel) : image :=
  {| width := 64; height := 64; load := fun _ _ => px |}.

Definition flat_sheet (px : Byte.byte * Byte.byte * Byte.byte * Byte.byte) : sprite_sheet :=
  {| sheet_width := 1472; sheet_height := 64; sheet_pixel := fun _ _ => px |}.

Definition item_at (key : string) (idx : Z) : item :=
  {| id := key; name := key; iconIndex := idx |}.

(** The member an opaque pixel of RGB (255, 0, 0) adds to bucket 0. *)
Definition red_member : colored :=
  {| c_r := Byte.xff; c_g := Byte.x00; c_b := Byte.x00; c_s := 1; c_l := 0.5 |}.

(** The classifier's output on one grey pixel, on one red pixel, and on the
    4096 red pixels of an icon. *)
Definition grey_classes : classes :=
  {| buckets := repeat [] 36;
     greys := [{| g_r := Byte.x80; g_g := Byte.x80; g_b := Byte.x80;
                  g_l := 0.50196078431372548 |}];
     total_non_transparent := 1 |}.

Definition red_classes (n : nat) : classes :=
  {| buckets := PyList.alter (fun b => b ++ repeat red_member n) 0 (repeat [] 36);
     greys := [];
     total_non_transparent := Z.of_nat n |}.

(** A member of saturation 0.5 and two bucket states: one in which the
    buckets 3 and 7 tie with the maximal strength, and the empty one, in
    which all 36 buckets tie with strength 0. *)
Definition half_saturated : colored :=
  {| c_r := Byte.xc0; c_g := Byte.x40; c_b := Byte.x40; c_s := 0.5; c_l := 0.5 |}.

Definition tied_buckets : list (list colored) :=
  PyList.alter (fun _ => [half_saturated]) 7
    (PyList.alter (fun _ => [half_saturated]) 3 (repeat [] 36)).

Definition empty_buckets : list (list colored) := repeat [] 36.

(** A manifest with a mapped item, an unmapped one and a key besides
    ["items"]. *)
Definition sample_manifest : json :=
  JObj [("version", JInt 3);
        ("items", JArr [JObj [("id", JStr "grating-crystal"); ("name", JStr "Grating");
                              ("iconIndex", JInt 5)];
                        JObj [("id", JStr "iron-ore"); ("iconIndex", JInt 1)]]);
        ("recipes", JArr [])]%string.

(** ** What the classifier decides for a pixel *)

(** The colour channels of a pixel, and its hue, lightness and saturation
    as line 34 computes them. *)
Definition channels (px : pixel) : Byte.byte * Byte.byte * Byte.byte :=
  match px with
  | RGBA r g b _ => (r, g, b)
  | RGB r g b => (r, g, b)
  end.

Definition pixel_hls (px : pixel) : res (float * float * float) :=
  let '(r, g, b) := channels px in
  rgb_to_hls (channel_float r) (channel_float g) (channel_float b).

Definition hue (px : pixel) : float :=
  match pixel_hls px with Ok (h, _, _) => h | Raise _ => nan end.

Definition lightness (px : pixel) : float :=
  match pixel_hls px with Ok (_, l, _) => l | Raise _ => nan end.

Definition saturation (px : pixel) : float :=
  match pixel_hls px with Ok (_, _, s) => s | Raise _ => nan end.

(** Line 31 keeps the pixel, line 37 skips it, line 39 sends it to the grey
    pool, lines 42-43 send it to bucket [i]. *)
Definition solid (px : pixel) : bool := negb (low_alpha px).

Definition extreme (px : pixel) : bool :=
  ((lightness px <? 0.1) || (0.95 <? lightness px))%float.

Definition neutral (px : pixel) : bool :=
  solid px && negb (extreme px) && (saturation px <? 0.20)%float.

Definition colorful (px : pixel) : bool :=
  solid px && negb (extreme px) && negb (saturation px <? 0.20)%float.

Definition hued (i : Z) (px : pixel) : bool :=
  colorful px
  && match hue_index (hue px) with
     | Ok j => j =? i
     | Raise _ => false
     end.

(** The members line 40 and line 43 append for a pixel. *)
Definition grey_member (px : pixel) : grey :=
  let '(r, g, b) := channels px in
  {| g_r := r; g_g := g; g_b := b; g_l := lightness px |}.

Definition colored_member (px : pixel) : colored :=
  let '(r, g, b) := channels px in
  {| c_r := r; c_g := g; c_b := b; c_s := saturation px; c_l := lightness px |}.

(** The number of the elements of a list that pass a test. *)
Definition count {A : Type} (f : A -> bool) (l : list A) : Z :=
  PyList.len (filter f l).

(** ** The walk, item by item *)

(** The colour an item gets: none when its cell is below the sheet, and none
    when the extraction yields none. *)
Definition item_color (sprite : sprite_sheet) (it : item) : option rgb :=
  if sheet_height sprite <? (iconIndex it / COLS) * ICON_SIZE + ICON_SIZE then None
  else match calculate_average_color (cell sprite it) with
       | Ok (avg, _) => avg
       | Raise _ => None
       end.

Definition has_color (sprite : sprite_sheet) (it : item) : bool :=
  match item_color sprite it with Some _ => true | None => false end.

(** An item of id [k] that gets a colour. *)
Definition colored_as (sprite : sprite_sheet) (k : string) (it : item) : bool :=
  String.eqb (id it) k && has_color sprite it.

(** A colour as a style sheet reads it: a hash sign and six lower-case
    hexadecimal digits. *)
Definition hex_digit (c : ascii) : bool :=
  existsb (Ascii.eqb c) (list_ascii_of_string "0123456789abcdef").

Definition is_hex_color (s : string) : bool :=
  match s with
  | String "#" digits =>
      (String.length digits =? 6)%nat
      && forallb hex_digit (list_ascii_of_string digits)
  | _ => false
  end.

(** A sheet of two cells, the first red and the second grey. *)
Definition two_tone_sheet : sprite_sheet :=
  {| sheet_width := 128; sheet_height := 64;
     sheet_pixel := fun x _ =>
       if x <? 64 then (Byte.xff, Byte.x00, Byte.x00, Byte.xff)
       else (Byte.x80, Byte.x80, Byte.x80, Byte.xff) |}.


(** ** Rounding

    What the proofs about the rounding of [SpecFloat] speak of. *)

(** The rounding of a record is inexact: one of its two flags is set. *)
Definition inexact (r : shr_record) : bool := shr_r r || shr_s r.

(** The second stage of [binary_round_aux]: the rounded mantissa is brought
    back to 53 digits and the overflow is detected. *)
Definition finish (s : bool) (m1 e1 : Z) : spec_float :=
  let '(mrs, e2) := shr_fexp prec emax m1 e1 loc_Exact in
  match shr_m mrs with
  | Z0 => S754_zero s
  | Zpos m => if e2 <=? emax - prec then S754_finite s m e2 else S754_infinity s
  | Zneg _ => S754_nan
  end.

(** The magnitude of a float, in units of [2^-1074]. *)
Definition mag (x : spec_float) : Z :=
  match x with
  | S754_zero _ | S754_nan => 0
  | S754_infinity _ => 2 ^ 2200
  | S754_finite _ m e => Zpos m * 2 ^ (e + 1074)
  end.

(** Zeros and finite floats: no infinity, no NaN. *)
Definition finite_sf (x : spec_float) : bool :=
  match x with
  | S754_zero _ | S754_finite _ _ _ => true
  | _ => false
  end.

(** The magnitudes of the finite floats, in units of [2^-1074]. *)
Definition float_mag (a : Z) : Prop :=
  exists m e, 0 <= m < 2 ^ 53 /\ -1074 <= e <= 971 /\ a = m * 2 ^ (e + 1074).

(** Not a NaN and not below zero; [+inf] is allowed. *)
Definition nonneg_sf (x : spec_float) : Prop :=
  match x with
  | S754_zero _ => True
  | S754_infinity s | S754_finite s _ _ => s = false
  | S754_nan => False
  end.

(** ** Enclosures

    Bounds of floats on the grid of the multiples of [2^-40]: a bound is
    the integer [k] that stands for [k * 2^-40]. *)

(** [2^-40] in units of [2^-1074]. *)
Definition grid : Z := 2 ^ 1034.

(** [x] is finite and [lo * 2^-40 <= x <= hi * 2^-40]. *)
Definition within (lo hi : Z) (x : float) : Prop :=
  finite_sf (Prim2SF x) = true
  /\ lo * grid <= scaled (Prim2SF x) <= hi * grid.

(** 1.0 on the grid, and the bound of the 53-bit mantissas. *)
Definition one40 : Z := Eval cbv in 2 ^ 40.
Definition two53 : Z := Eval cbv in 2 ^ 53.

(** A bound that a float can take: fewer than 53 bits. *)
Definition small (k : Z) : bool := Z.abs k <? two53.

(** The bounds of a product whose second factor is not negative, rounded
    outwards to the grid. *)
Definition mul_lo (a c d : Z) : Z :=
  Z.shiftr (if a <? 0 then a * d else a * c) 40.
Definition mul_hi (b c d : Z) : Z :=
  - Z.shiftr (- (if b <? 0 then b * c else b * d)) 40.

(** A decidable form of [within], for the constants. *)
Definition within_b (lo hi : Z) (x : float) : bool :=
  finite_sf (Prim2SF x) && (lo * grid <=? scaled (Prim2SF x))
  && (scaled (Prim2SF x) <=? hi * grid).

(** The tightest enclosure of a float on the grid. *)
Definition enclose (x : float) : Z * Z :=
  let v := scaled (Prim2SF x) in (v / grid, - (- v / grid)).

(** 6.0, 0.5 and 255.0 on the grid. *)
Definition six40 : Z := Eval cbv in 6 * 2 ^ 40.
Definition half40 : Z := Eval cbv in 2 ^ 39.
Definition c255 : Z := Eval cbv in 255 * 2 ^ 40.

(** The largest channel value whose 255-fold is below 256. *)
Definition vmax : Z := Eval cbv in 2 ^ 40 + 2 ^ 32.

(** The enclosures of the lightness 0.55, of [2.0 * 0.55] and of the
    constants of [colorsys]. *)
Definition c_l : Z * Z := Eval vm_compute in enclose 0.55.
Definition c_2l : Z * Z := Eval vm_compute in enclose (2 * 0.55).
Definition c_sixth : Z * Z := Eval vm_compute in enclose ONE_SIXTH.
Definition c_two_third : Z * Z := Eval vm_compute in enclose TWO_THIRD.

(** The bounds of [m1 + (m2 - m1) * t * 6.0] for [m1] in [[a1, b1]], [m2] in
    [[a2, b2]] and [t] in [[0, hb]]. *)
Definition ramp_lo (a1 b1 a2 hb : Z) : Z :=
  a1 + mul_lo (mul_lo (a2 - b1) 0 hb) six40 six40.
Definition ramp_hi (a1 b1 b2 hb : Z) : Z :=
  b1 + mul_hi (mul_hi (b2 - a1) 0 hb) six40 six40.

(** The ramp can be enclosed with these bounds, and lies in [[0, vmax]]. *)
Definition ramp_ok (a1 b1 a2 b2 hb : Z) : bool :=
  small (a2 - b1) && small (b2 - a1)
  && small (mul_lo (a2 - b1) 0 hb) && small (mul_hi (b2 - a1) 0 hb)
  && small (mul_lo (mul_lo (a2 - b1) 0 hb) six40 six40)
  && small (mul_hi (mul_hi (b2 - a1) 0 hb) six40 six40)
  && small (ramp_lo a1 b1 a2 hb) && small (ramp_hi a1 b1 b2 hb)
  && (0 <=? ramp_lo a1 b1 a2 hb) && (ramp_hi a1 b1 b2 hb <=? vmax).

(** The bounds of [m2 = l + s - l * s] and [m1 = 2 * l - m2] for [s] in
    [[slo, shi]]. *)
Definition m2_lo (slo shi : Z) : Z := fst c_l + slo - mul_hi (snd c_l) slo shi.
Definition m2_hi (slo shi : Z) : Z := snd c_l + shi - mul_lo (fst c_l) slo shi.
Definition m1_lo (slo shi : Z) : Z := fst c_2l - m2_hi slo shi.
Definition m1_hi (slo shi : Z) : Z := snd c_2l - m2_lo slo shi.

(** For a saturation in [[slo, shi]] every value that [_v] can return is
    enclosed in [[0, vmax]]. *)
Definition piece_ok (slo shi : Z) : bool :=
  (0 <=? slo)
  && small (fst c_l + slo) && small (snd c_l + shi)
  && small (mul_lo (fst c_l) slo shi) && small (mul_hi (snd c_l) slo shi)
  && small (m2_lo slo shi) && small (m2_hi slo shi)
  && small (m1_lo slo shi) && small (m1_hi slo shi)
  && (0 <=? m1_lo slo shi) && (m1_hi slo shi <=? vmax)
  && (0 <=? m2_lo slo shi) && (m2_hi slo shi <=? vmax)
  && ramp_ok (m1_lo slo shi) (m1_hi slo shi) (m2_lo slo shi) (m2_hi slo shi)
       (snd c_sixth)
  && ramp_ok (m1_lo slo shi) (m1_hi slo shi) (m2_lo slo shi) (m2_hi slo shi)
       (snd c_two_third - half40).

(** The saturation range [[0, 1]] in 1024 pieces. *)
Definition pieces : list Z := map Z.of_nat (seq 0 1024).
Definition piece_width : Z := Eval cbv in 2 ^ 30.

Definition nth_piece_ok (k : Z) : bool :=
  piece_ok (k * piece_width) ((k + 1) * piece_width).

(** ** Colours *)

(** A channel of a mean colour, scaled to the unit interval: exactly 1.0, or
    at most [1 - 2^-40]. *)
Definition unit_value (x : float) : Prop :=
  within one40 one40 x \/ within 0 (one40 - 1) x.

(** The bound on the number of the members of a bucket under which the
    mean of a channel is 255 or at most [255 - 2^-32]. *)
Definition bucket_limit : Z := Eval cbv in 2 ^ 32.

(** An RGB triple of 8-bit channels. *)
Definition byte_color (c : rgb) : Prop :=
  let '(r, g, b) := c in 0 <= r <= 255 /\ 0 <= g <= 255 /\ 0 <= b <= 255.

(** ** The extraction of the gatherers *)

(** A recipe of the category Gathering. *)
Definition gathering (recipe : json) : bool :=
  match recipe with
  | JObj fields => extract_gatherers.is_gathering fields
  | _ => false
  end.

(** The script makes the gatherer [g] of the recipe [r]. *)
Definition converted (r g : json) : Prop :=
  exists fields, r = JObj fields /\ extract_gatherers.gatherer_of fields = extract_gatherers.Done g.





(** A pack with two Gathering recipes and a recipe of another category. *)
Definition sample_recipes : list json :=
  [JObj [("id", JStr "iron-vein"); ("name", JStr "Iron Vein");
         ("category", JStr "Gathering"); ("machineId", JStr "mining-machine");
         ("craftingTime", JInt 2);
         ("outputs", JArr [JObj [("itemId", JStr "iron-ore"); ("amount", JInt 1)];
                           JObj [("itemId", JStr "stone"); ("amount", JInt 3)]])];
   JObj [("id", JStr "gear"); ("category", JStr "Assembling"); ("craftingTime", JInt 1)];
   JObj [("id", JStr "water"); ("name", JStr "Water"); ("category", JStr "Gathering")]]%string.

Definition sample_fields : list (string * json) :=
  [("items", JArr []); ("recipes", JArr sample_recipes)]%string.

Definition sample_pack : json := JObj sample_fields.



(** What the script writes for the sample pack. *)
Definition sample_extracted : json :=
  Eval vm_compute in
    match extract_gatherers.main sample_pack with
    | extract_gatherers.Done d => d
    | extract_gatherers.Raised _ => JNull
    end.

(** * Properties *)

(** ** The error monad and the loops *)

Lemma bind_ok {A B : Type} (c : res A) (k : A -> res B) (b : B) :
  bind c k = Ok b -> exists a, c = Ok a /\ k a = Ok b.
Proof.
  destruct c as [a|e]; simpl; intros H; [now exists a | discriminate].
Qed.

Lemma for_each_app {S A : Type} (body : S -> A -> res S) (xs ys : list A) (st : S) :
  PyList.for_each body (xs ++ ys) st
  = bind (PyList.for_each body xs st) (PyList.for_each body ys).
Proof.
  revert st; induction xs as [|x xs IH]; intros st; simpl; [reflexivity|].
  destruct (body st x) as [st'|e]; simpl; [apply IH | reflexivity].
Qed.

(** ** Binary64: order and rounding *)

Lemma digits2_size (p : positive) : digits2_pos p = Pos.size p.
Proof. induction p; simpl; congruence. Qed.

Lemma digits2_upper (p : positive) : Zpos p < 2 ^ Zpos (digits2_pos p).
Proof.
  rewrite digits2_size. pose proof (Pos.size_gt p) as H.
  rewrite <- Pos2Z.inj_pow. exact H.
Qed.

Lemma digits2_lower (p : positive) : 2 ^ (Zpos (digits2_pos p) - 1) <= Zpos p.
Proof.
  rewrite digits2_size. pose proof (Pos.size_le p) as H.
  assert (H' : 2 ^ Zpos (Pos.size p) <= 2 * Zpos p).
  { rewrite <- Pos2Z.inj_pow. exact H. }
  replace (Zpos (Pos.size p)) with (Z.succ (Zpos (Pos.size p) - 1)) in H' by lia.
  rewrite Z.pow_succ_r in H' by lia. lia.
Qed.

Lemma digits2_unique (p : positive) (k : Z) :
  2 ^ (k - 1) <= Zpos p < 2 ^ k -> Zpos (digits2_pos p) = k.
Proof.
  intros [Hlo Hhi].
  pose proof (digits2_upper p) as Hu. pose proof (digits2_lower p) as Hl.
  assert (Hk : 0 < k).
  { destruct (Z.ltb_spec 0 k); [assumption|].
    assert (2 ^ k <= 1).
    { destruct (Z.eq_dec k 0) as [->|]; [simpl; lia|].
      rewrite Z.pow_neg_r by lia. lia. }
    lia. }
  destruct (Z.lt_trichotomy (Zpos (digits2_pos p)) k) as [Hlt|[Heq|Hgt]]; [|assumption|].
  - assert (2 ^ Zpos (digits2_pos p) <= 2 ^ (k - 1)) by (apply Z.pow_le_mono_r; lia). lia.
  - assert (2 ^ k <= 2 ^ (Zpos (digits2_pos p) - 1)) by (apply Z.pow_le_mono_r; lia). lia.
Qed.

(** What validity says of a finite binary64. *)
Lemma bounded_inv (m : positive) (e : Z) :
  bounded prec emax m e = true ->
  -1074 <= e <= 971 /\ Zpos m < 2 ^ 53
  /\ (-1074 < e -> 2 ^ 52 <= Zpos m).
Proof.
  unfold bounded, canonical_mantissa, fexp, emin, prec, emax.
  intros H. apply andb_true_iff in H. destruct H as [Hc He].
  apply Z.eqb_eq in Hc. apply Z.leb_le in He.
  pose proof (digits2_upper m) as Hu. pose proof (digits2_lower m) as Hl.
  set (d := Zpos (digits2_pos m)) in *.
  assert (Hd : d <= 53) by lia.
  split; [lia|]. split.
  - assert (2 ^ d <= 2 ^ 53) by (apply Z.pow_le_mono_r; lia). lia.
  - intros Hgt. assert (d = 53) by lia. subst d.
    replace (2 ^ 52) with (2 ^ (Zpos (digits2_pos m) - 1)); [assumption|].
    f_equal. lia.
Qed.

Lemma scaled_finite_pos (m : positive) (e : Z) :
  bounded prec emax m e = true ->
  0 < Zpos m * 2 ^ (e + 1074) < 2 ^ 2200.
Proof.
  intros H. destruct (bounded_inv m e H) as (He & Hm & _).
  assert (0 < 2 ^ (e + 1074)) by (apply Z.pow_pos_nonneg; lia).
  assert (2 ^ (e + 1074) <= 2 ^ 2045) by (apply Z.pow_le_mono_r; lia).
  split; [apply Z.mul_pos_pos; lia|].
  apply Z.lt_le_trans with (2 ^ 53 * 2 ^ (e + 1074)).
  - apply Z.mul_lt_mono_pos_r; lia.
  - apply Z.le_trans with (2 ^ 53 * 2 ^ 2045).
    + apply Z.mul_le_mono_nonneg_l; lia.
    + rewrite <- Z.pow_add_r by lia. apply Z.pow_le_mono_r; lia.
Qed.

Lemma finite_compare (m1 m2 : positive) (e1 e2 : Z) :
  bounded prec emax m1 e1 = true -> bounded prec emax m2 e2 = true ->
  match Z.compare e1 e2 with
  | Lt => Lt
  | Gt => Gt
  | Eq => Pos.compare_cont Eq m1 m2
  end = (Zpos m1 * 2 ^ (e1 + 1074) ?= Zpos m2 * 2 ^ (e2 + 1074)).
Proof.
  intros H1 H2.
  destruct (bounded_inv m1 e1 H1) as (He1 & Hm1 & Hn1).
  destruct (bounded_inv m2 e2 H2) as (He2 & Hm2 & Hn2).
  assert (Hlt : forall ma mb ea eb, -1074 <= ea -> ea < eb ->
            Zpos ma < 2 ^ 53 -> 2 ^ 52 <= Zpos mb ->
            Zpos ma * 2 ^ (ea + 1074) < Zpos mb * 2 ^ (eb + 1074)).
  { intros ma mb ea eb Ha Hab Hma Hmb.
    assert (0 < 2 ^ (ea + 1074)) by (apply Z.pow_pos_nonneg; lia).
    assert (2 ^ (ea + 1074 + 1) <= 2 ^ (eb + 1074)) by (apply Z.pow_le_mono_r; lia).
    rewrite Z.pow_add_r in H0 by lia. change (2 ^ 1) with 2 in H0.
    change (2 ^ 53) with (2 ^ 52 * 2) in Hma.
    nia. }
  destruct (Z.compare_spec e1 e2) as [Heq|Hl|Hg].
  - subst e2. change (Pos.compare_cont Eq m1 m2) with (Zpos m1 ?= Zpos m2).
    assert (0 < 2 ^ (e1 + 1074)) by (apply Z.pow_pos_nonneg; lia).
    apply Zmult_compare_compat_r. lia.
  - symmetry. apply Z.compare_lt_iff. apply Hlt; first [lia | apply Hn2; lia].
  - symmetry. apply Z.compare_gt_iff. apply Hlt; first [lia | apply Hn1; lia].
Qed.

(** On valid floats that are not NaN, the comparison of IEEE 754 is the
    comparison of the exact values. *)
Lemma SFcompare_scaled (x y : spec_float) :
  valid_binary x = true -> valid_binary y = true ->
  x <> S754_nan -> y <> S754_nan ->
  SFcompare x y = Some (scaled x ?= scaled y).
Proof.
  intros Hx Hy Nx Ny.
  destruct x as [sx|sx| |sx mx ex]; [| | congruence |];
  destruct y as [sy|sy| |sy my ey]; try congruence;
    cbn [valid_binary] in Hx, Hy;
    try (pose proof (scaled_finite_pos mx ex Hx));
    try (pose proof (scaled_finite_pos my ey Hy));
    try (pose proof (finite_compare mx my ex ey Hx Hy) as Hc);
    destruct sx; destruct sy; cbn [SFcompare scaled cond_Zopp]; f_equal;
    try reflexivity;
    try (symmetry; apply Z.compare_gt_iff; lia);
    try (symmetry; apply Z.compare_lt_iff; lia).
  - rewrite Z.compare_opp.
    rewrite (Z.compare_antisym (Zpos mx * 2 ^ (ex + 1074))), <- Hc.
    destruct (ex ?= ey); reflexivity.
  - exact Hc.
Qed.

Lemma SFltb_scaled (x y : spec_float) :
  valid_binary x = true -> valid_binary y = true ->
  x <> S754_nan -> y <> S754_nan ->
  SFltb x y = (scaled x <? scaled y).
Proof.
  intros Hx Hy Nx Ny. unfold SFltb, Z.ltb.
  rewrite (SFcompare_scaled x y Hx Hy Nx Ny).
  destruct (scaled x ?= scaled y); reflexivity.
Qed.

(** ** Rounding *)

Lemma shr_1_m (r : shr_record) :
  0 <= shr_m r -> shr_m (shr_1 r) = shr_m r / 2.
Proof.
  destruct r as [m b s]; cbn [shr_m]; intros Hm.
  rewrite <- Z.div2_div.
  destruct m as [|p|p]; [reflexivity| |lia].
  destruct p; reflexivity.
Qed.

Lemma pow2_xI (p : positive) : 2 ^ Zpos p~1 = 2 * (2 ^ Zpos p * 2 ^ Zpos p).
Proof.
  replace (Zpos p~1) with (1 + Zpos p + Zpos p) by lia.
  rewrite !Z.pow_add_r by lia. change (2 ^ 1) with 2. ring.
Qed.

Lemma pow2_xO (p : positive) : 2 ^ Zpos p~0 = 2 ^ Zpos p * 2 ^ Zpos p.
Proof.
  replace (Zpos p~0) with (Zpos p + Zpos p) by lia.
  rewrite !Z.pow_add_r by lia. reflexivity.
Qed.

Lemma iter_shr_1_m (p : positive) :
  forall r, 0 <= shr_m r ->
  shr_m (iter_pos shr_1 p r) = shr_m r / 2 ^ Zpos p.
Proof.
  induction p as [p IH|p IH|]; intros r Hr; cbn [iter_pos].
  - assert (H1 : 0 <= shr_m (shr_1 r)).
    { rewrite shr_1_m by assumption. apply Z.div_pos; lia. }
    assert (H2 : 0 <= shr_m (iter_pos shr_1 p (shr_1 r))).
    { rewrite IH by assumption. apply Z.div_pos; [lia|]. apply Z.pow_pos_nonneg; lia. }
    rewrite IH, IH, shr_1_m by assumption.
    assert (Hp : 0 < 2 ^ Zpos p) by (apply Z.pow_pos_nonneg; lia).
    rewrite !Z.div_div by lia. f_equal. rewrite pow2_xI. ring.
  - assert (H2 : 0 <= shr_m (iter_pos shr_1 p r)).
    { rewrite IH by assumption. apply Z.div_pos; [lia|]. apply Z.pow_pos_nonneg; lia. }
    rewrite IH, IH by assumption.
    assert (Hp : 0 < 2 ^ Zpos p) by (apply Z.pow_pos_nonneg; lia).
    rewrite !Z.div_div by lia. f_equal. rewrite pow2_xO. ring.
  - rewrite shr_1_m by assumption. reflexivity.
Qed.

Lemma shr_spec (r : shr_record) (e n : Z) :
  0 <= shr_m r -> 0 < n ->
  shr_m (fst (shr r e n)) = shr_m r / 2 ^ n /\ snd (shr r e n) = e + n.
Proof.
  intros Hr Hn. destruct n as [|p|p]; try lia.
  cbn [shr fst snd]. split; [apply iter_shr_1_m; assumption | reflexivity].
Qed.

Lemma shr_none (r : shr_record) (e n : Z) :
  n <= 0 -> shr r e n = (r, e).
Proof. destruct n as [|p|p]; try lia; reflexivity. Qed.

Lemma round_nearest_even_bounds (r : shr_record) :
  shr_m r <= round_nearest_even (shr_m r) (loc_of_shr_record r) <= shr_m r + 1.
Proof.
  destruct r as [m b s]; cbn [shr_m loc_of_shr_record].
  destruct b, s; cbn [round_nearest_even]; try lia.
  destruct (Z.even m); lia.
Qed.

Lemma Zdigits2_pos (p : positive) : Zdigits2 (Zpos p) = Zpos (digits2_pos p).
Proof. reflexivity. Qed.

Lemma fexp64 (e : Z) : fexp prec emax e = Z.max (e - 53) (-1074).
Proof. reflexivity. Qed.

Lemma bounded_intro (m : positive) (e : Z) :
  -1074 <= e <= 971 -> Zpos m < 2 ^ 53 -> (-1074 < e -> 2 ^ 52 <= Zpos m) ->
  bounded prec emax m e = true.
Proof.
  intros He Hm Hn. unfold bounded, canonical_mantissa.
  apply andb_true_iff. split; [|apply Z.leb_le; unfold emax, prec; lia].
  apply Z.eqb_eq. rewrite fexp64.
  pose proof (digits2_upper m) as Hu. pose proof (digits2_lower m) as Hl.
  set (d := Zpos (digits2_pos m)) in *.
  assert (Hd : d <= 53).
  { destruct (Z.leb_spec d 53); [assumption|].
    assert (2 ^ 53 <= 2 ^ (d - 1)) by (apply Z.pow_le_mono_r; lia). lia. }
  destruct (Z.eq_dec e (-1074)) as [->|Hne]; [lia|].
  assert (2 ^ 52 <= Zpos m) by (apply Hn; lia).
  assert (d = 53).
  { destruct (Z.eq_dec d 53); [assumption|].
    assert (2 ^ d <= 2 ^ 52) by (apply Z.pow_le_mono_r; subst d; lia). lia. }
  lia.
Qed.

(** Rounding a positive mantissa whose exponent is not below the least one
    gives a valid finite float of the same sign, or the infinity of that
    sign: never a zero, never a NaN. *)
Lemma binary_round_aux_exact (s : bool) (mz : positive) (ez : Z) :
  -1074 <= ez ->
  ez <= fexp prec emax (Zpos (digits2_pos mz) + ez) ->
  match binary_round_aux prec emax s (Zpos mz) ez loc_Exact with
  | S754_finite s' m' e' => s' = s /\ bounded prec emax m' e' = true
                            /\ Zpos mz * 2 ^ (ez + 1074) <= 2 * (Zpos m' * 2 ^ (e' + 1074))
  | S754_infinity s' => s' = s
  | _ => False
  end.
Proof.
  intros Hez Hfe. rewrite fexp64 in Hfe.
  pose proof (digits2_upper mz) as Hu. pose proof (digits2_lower mz) as Hl.
  set (d := Zpos (digits2_pos mz)) in *.
  assert (Hd0 : 0 < d) by (subst d; lia).
  unfold binary_round_aux, shr_fexp.
  rewrite Zdigits2_pos, fexp64. fold d.
  destruct (Z.leb_spec d 53) as [Hd|Hd].
  - (* the mantissa fits *)
    rewrite shr_none by lia. cbn [shr_record_of_loc shr_m loc_of_shr_record round_nearest_even].
    rewrite Zdigits2_pos, fexp64. fold d. rewrite shr_none by lia. cbn [shr_m].
    destruct (Z.leb_spec ez (emax - prec)) as [Hle|Hgt]; [|reflexivity].
    unfold emax, prec in Hle. split; [reflexivity|]. split.
    + apply bounded_intro; [lia| |].
      * assert (2 ^ d <= 2 ^ 53) by (apply Z.pow_le_mono_r; lia). lia.
      * intros Hlt. assert (d = 53) by lia.
        replace 52 with (d - 1) by lia. exact Hl.
    + assert (0 < Zpos mz * 2 ^ (ez + 1074)).
      { apply Z.mul_pos_pos; [lia|]. apply Z.pow_pos_nonneg; lia. }
      lia.
  - (* the mantissa is shifted to 53 digits *)
    set (n := d - 53) in *.
    replace (Z.max (d + ez - 53) (-1074) - ez) with n by lia.
    destruct (shr_spec (shr_record_of_loc (Zpos mz) loc_Exact) ez n) as [Hm1 He1];
      [cbn; lia | lia |].
    destruct (shr (shr_record_of_loc (Zpos mz) loc_Exact) ez n) as [r1 e1].
    cbn [fst snd] in Hm1, He1. cbn [shr_record_of_loc shr_m] in Hm1. subst e1.
    assert (Hpn : 0 < 2 ^ n) by (apply Z.pow_pos_nonneg; lia).
    assert (Hr1 : 2 ^ 52 <= shr_m r1 < 2 ^ 53).
    { rewrite Hm1. split.
      - apply Z.div_le_lower_bound; [lia|].
        rewrite <- Z.pow_add_r by lia. replace (n + 52) with (d - 1) by lia. exact Hl.
      - apply Z.div_lt_upper_bound; [lia|].
        rewrite <- Z.pow_add_r by lia. replace (n + 53) with d by lia. exact Hu. }
    assert (Hval : shr_m r1 * 2 ^ n <= Zpos mz < (shr_m r1 + 1) * 2 ^ n).
    { rewrite Hm1. pose proof (Z.div_mod (Zpos mz) (2 ^ n) ltac:(lia)) as Hdm.
      pose proof (Z.mod_pos_bound (Zpos mz) (2 ^ n) Hpn). nia. }
    pose proof (round_nearest_even_bounds r1) as Hrb.
    set (m1 := round_nearest_even (shr_m r1) (loc_of_shr_record r1)) in *.
    assert (Hscale : 2 ^ (ez + n + 1074) = 2 ^ n * 2 ^ (ez + 1074)).
    { rewrite <- Z.pow_add_r by lia. f_equal. lia. }
    assert (Hpe : 0 < 2 ^ (ez + 1074)) by (apply Z.pow_pos_nonneg; lia).
    destruct m1 as [|p1|p1] eqn:Em1; try lia.
    rewrite Zdigits2_pos, fexp64.
    destruct (Z.eq_dec (Zpos p1) (2 ^ 53)) as [Heq|Hne].
    + (* the rounding carried into a 54th digit *)
      assert (Hd1 : Zpos (digits2_pos p1) = 54).
      { apply digits2_unique. rewrite Heq. change (54 - 1) with 53. split; [lia|].
        apply Z.pow_lt_mono_r; lia. }
      rewrite Hd1.
      replace (Z.max (54 + (ez + n) - 53) (-1074) - (ez + n)) with 1 by lia.
      destruct (shr_spec (shr_record_of_loc (Zpos p1) loc_Exact) (ez + n) 1) as [Hm2 He2];
        [cbn; lia | lia |].
      destruct (shr (shr_record_of_loc (Zpos p1) loc_Exact) (ez + n) 1) as [r2 e2].
      cbn [fst snd] in Hm2, He2. cbn [shr_record_of_loc shr_m] in Hm2. subst e2.
      rewrite Heq in Hm2. change (2 ^ 53 / 2 ^ 1) with (2 ^ 52) in Hm2.
      rewrite Hm2. change (2 ^ 52) with (Zpos (Pos.pow 2 52)).
      destruct (Z.leb_spec (ez + n + 1) (emax - prec)) as [Hle|Hgt]; [|reflexivity].
      unfold emax, prec in Hle. split; [reflexivity|]. split.
      * apply bounded_intro; [lia| |]; intros; vm_compute; congruence.
      * change (Zpos (Pos.pow 2 52)) with (2 ^ 52).
        replace (ez + n + 1 + 1074) with (1 + (ez + n + 1074)) by lia.
        rewrite (Z.pow_add_r 2 1 (ez + n + 1074)), Hscale by lia. change (2 ^ 1) with 2.
        assert (Zpos mz < 2 ^ 53 * 2 ^ n) by nia.
        change (2 ^ 53) with (2 * 2 ^ 52) in H. nia.
    + assert (Hd1 : Zpos (digits2_pos p1) = 53).
      { apply digits2_unique. change (53 - 1) with 52. lia. }
      rewrite Hd1. rewrite shr_none by lia. cbn [shr_record_of_loc shr_m].
      destruct (Z.leb_spec (ez + n) (emax - prec)) as [Hle|Hgt]; [|reflexivity].
      unfold emax, prec in Hle. split; [reflexivity|]. split.
      * apply bounded_intro; [lia|lia|intros; lia].
      * rewrite Hscale. nia.
Qed.

Lemma iter_xO (m k : positive) : Zpos (Pos.iter xO m k) = Zpos m * 2 ^ Zpos k.
Proof.
  induction k as [|k IH] using Pos.peano_ind.
  - cbn [Pos.iter]. rewrite Pos2Z.inj_xO. change (2 ^ 1) with 2. lia.
  - rewrite Pos.iter_succ, Pos2Z.inj_xO, IH, Pos2Z.inj_succ, Z.pow_succ_r by lia.
    ring.
Qed.

Lemma binary_round_nonzero (s : bool) (m : positive) (e : Z) :
  -1074 <= e -> signed_nonzero s (binary_round prec emax s m e).
Proof.
  intros He. unfold binary_round, shl_align.
  pose proof (digits2_upper m) as Hu. pose proof (digits2_lower m) as Hl.
  set (d := Zpos (digits2_pos m)) in *.
  rewrite fexp64.
  assert (Hd0 : 0 < d) by (subst d; lia).
  destruct (Z.max (d + e - 53) (-1074) - e) as [|k|k] eqn:Ek.
  - pose proof (binary_round_aux_exact s m e He) as H. fold d in H.
    rewrite fexp64 in H. specialize (H ltac:(lia)).
    destruct (binary_round_aux prec emax s (Zpos m) e loc_Exact); try contradiction;
      cbn [signed_nonzero]; tauto.
  - pose proof (binary_round_aux_exact s m e He) as H. fold d in H.
    rewrite fexp64 in H. specialize (H ltac:(lia)).
    destruct (binary_round_aux prec emax s (Zpos m) e loc_Exact); try contradiction;
      cbn [signed_nonzero]; tauto.
  - assert (Hdk : Zpos (digits2_pos (Pos.iter xO m k)) = d + Zpos k).
    { apply digits2_unique. rewrite iter_xO.
      assert (0 < 2 ^ Zpos k) by (apply Z.pow_pos_nonneg; lia).
      replace (d + Zpos k - 1) with (d - 1 + Zpos k) by lia.
      rewrite !Z.pow_add_r by lia. split; nia. }
    pose proof (binary_round_aux_exact s (Pos.iter xO m k)
                  (Z.max (d + e - 53) (-1074)) ltac:(lia)) as H.
    rewrite Hdk, fexp64 in H. specialize (H ltac:(lia)).
    destruct (binary_round_aux prec emax s (Zpos (Pos.iter xO m k))
                (Z.max (d + e - 53) (-1074)) loc_Exact); try contradiction;
      cbn [signed_nonzero]; tauto.
Qed.

Lemma signed_nonzero_valid (s : bool) (x : spec_float) :
  signed_nonzero s x -> valid_binary x = true.
Proof. destruct x; cbn; tauto. Qed.

Lemma binary_normalize_valid (n : Z) (e : Z) (sz : bool) :
  -1074 <= e -> valid_binary (binary_normalize prec emax n e sz) = true.
Proof.
  intros He. destruct n as [|p|p]; cbn [binary_normalize].
  - reflexivity.
  - exact (signed_nonzero_valid _ _ (binary_round_nonzero false p e He)).
  - exact (signed_nonzero_valid _ _ (binary_round_nonzero true p e He)).
Qed.

Lemma shl_align_fst_pos (m : positive) (e e' : Z) : 0 < Zpos (fst (shl_align m e e')).
Proof. lia. Qed.

Lemma SFadd_positive (x y : spec_float) :
  valid_binary x = true -> valid_binary y = true ->
  signed_nonzero false x -> signed_nonzero false y ->
  signed_nonzero false (SFadd prec emax x y).
Proof.
  intros Vx Vy Hx Hy.
  destruct x as [sx|sx| |sx mx ex]; cbn [signed_nonzero] in Hx; try contradiction;
  destruct y as [sy|sy| |sy my ey]; cbn [signed_nonzero] in Hy; try contradiction.
  - subst. reflexivity.
  - subst sx. destruct Hy as [-> _]. reflexivity.
  - subst sy. destruct Hx as [-> _]. reflexivity.
  - destruct Hx as [-> Bx], Hy as [-> By].
    destruct (bounded_inv mx ex Bx) as (Hex & _). destruct (bounded_inv my ey By) as (Hey & _).
    cbn [SFadd cond_Zopp].
    change (Zpos (fst (shl_align mx ex (Z.min ex ey))) + Zpos (fst (shl_align my ey (Z.min ex ey))))
      with (Zpos (fst (shl_align mx ex (Z.min ex ey)) + fst (shl_align my ey (Z.min ex ey)))).
    cbn [binary_normalize]. apply binary_round_nonzero. lia.
Qed.

Lemma add_positive (x y : float) :
  positive_float x -> positive_float y -> positive_float (x + y).
Proof.
  unfold positive_float. rewrite FloatAxioms.add_spec. apply SFadd_positive; apply Prim2SF_valid.
Qed.

Lemma Prim2SF_float_of_int (n : Z) :
  Prim2SF (SF2Prim (binary_normalize prec emax n 0 false))
  = binary_normalize prec emax n 0 false.
Proof. apply Prim2SF_SF2Prim. apply binary_normalize_valid. lia. Qed.

Lemma Zdigits2_le (m K : Z) : 0 <= m < 2 ^ K -> 0 <= K -> 0 <= Zdigits2 m <= K.
Proof.
  intros [H0 Hm] HK. destruct m as [|p|p]; [cbn; lia| |lia].
  rewrite Zdigits2_pos. pose proof (digits2_lower p) as Hl.
  split; [lia|].
  destruct (Z.leb_spec (Zpos (digits2_pos p)) K); [assumption|].
  assert (2 ^ K <= 2 ^ (Zpos (digits2_pos p) - 1)) by (apply Z.pow_le_mono_r; lia). lia.
Qed.

Lemma shr_m_of_loc (m : Z) (l : location) : shr_m (shr_record_of_loc m l) = m.
Proof. destruct l as [|[ | | ]]; reflexivity. Qed.

Lemma shr_fexp_bounds (m e : Z) (l : location) (K : Z) :
  0 <= m < 2 ^ K -> 0 <= K ->
  let r := shr_fexp prec emax m e l in
  0 <= shr_m (fst r) <= m
  /\ (snd r = e \/ snd r = Z.max (Zdigits2 m + e - 53) (-1074))
  /\ e <= snd r.
Proof.
  intros Hm HK. unfold shr_fexp. rewrite fexp64.
  destruct (Z.leb_spec (Z.max (Zdigits2 m + e - 53) (-1074) - e) 0) as [Hn|Hn].
  - rewrite shr_none by assumption. cbn [fst snd]. rewrite shr_m_of_loc. lia.
  - destruct (shr_spec (shr_record_of_loc m l) e _ ltac:(rewrite shr_m_of_loc; lia) Hn)
      as [H1 H2].
    rewrite shr_m_of_loc in H1. rewrite H1, H2.
    assert (0 < 2 ^ (Z.max (Zdigits2 m + e - 53) (-1074) - e))
      by (apply Z.pow_pos_nonneg; lia).
    split; [split|].
    + apply Z.div_pos; lia.
    + apply Z.div_le_upper_bound; [lia|]. nia.
    + lia.
Qed.

(** A product (or quotient) whose mantissa and exponent are small enough
    rounds to a zero or to a finite float: no overflow, no NaN. *)
Lemma binary_round_aux_finite (s : bool) (mx ex : Z) (lx : location) (K : Z) :
  0 <= mx < 2 ^ K -> 0 <= K <= 2000 -> ex <= 971 -> 2 * K + ex <= 971 ->
  match binary_round_aux prec emax s mx ex lx with
  | S754_zero _ | S754_finite _ _ _ => True
  | _ => False
  end.
Proof.
  intros Hm HK Hex HKe. unfold binary_round_aux.
  pose proof (shr_fexp_bounds mx ex lx K Hm ltac:(lia)) as H1. cbv zeta in H1.
  pose proof (Zdigits2_le mx K Hm ltac:(lia)) as Hd.
  destruct (shr_fexp prec emax mx ex lx) as [r1 e1]. cbn [fst snd] in H1.
  destruct H1 as (Hr1 & He1 & Hle1).
  pose proof (round_nearest_even_bounds r1) as Hrb.
  set (m1 := round_nearest_even (shr_m r1) (loc_of_shr_record r1)) in *.
  assert (Hm1 : 0 <= m1 < 2 ^ (K + 1)).
  { rewrite Z.pow_add_r by lia. change (2 ^ 1) with 2.
    assert (0 < 2 ^ K) by (apply Z.pow_pos_nonneg; lia). lia. }
  pose proof (shr_fexp_bounds m1 e1 loc_Exact (K + 1) Hm1 ltac:(lia)) as H2. cbv zeta in H2.
  pose proof (Zdigits2_le m1 (K + 1) Hm1 ltac:(lia)) as Hd1.
  destruct (shr_fexp prec emax m1 e1 loc_Exact) as [r2 e2]. cbn [fst snd] in H2.
  destruct H2 as (Hr2 & He2 & Hle2).
  destruct (shr_m r2) as [|p|p]; [exact I| |lia].
  destruct (Z.leb_spec e2 (emax - prec)) as [Hle|Hgt]; [exact I|].
  unfold emax, prec in Hgt. lia.
Qed.

(** ** Binary64: comparisons of primitive floats *)

Lemma ltb_scaled (x y : float) :
  Prim2SF x <> S754_nan -> Prim2SF y <> S754_nan ->
  (x <? y)%float = (scaled (Prim2SF x) <? scaled (Prim2SF y)).
Proof.
  intros Nx Ny. rewrite FloatAxioms.ltb_spec.
  apply SFltb_scaled; auto using Prim2SF_valid.
Qed.

Lemma leb_scaled (x y : float) :
  Prim2SF x <> S754_nan -> Prim2SF y <> S754_nan ->
  (x <=? y)%float = (scaled (Prim2SF x) <=? scaled (Prim2SF y)).
Proof.
  intros Nx Ny. rewrite FloatAxioms.leb_spec. unfold SFleb, Z.leb.
  rewrite (SFcompare_scaled _ _ (Prim2SF_valid x) (Prim2SF_valid y) Nx Ny).
  destruct (scaled (Prim2SF x) ?= scaled (Prim2SF y)); reflexivity.
Qed.

Lemma leb_true_not_nan (x y : float) :
  (x <=? y)%float = true -> Prim2SF x <> S754_nan /\ Prim2SF y <> S754_nan.
Proof.
  rewrite FloatAxioms.leb_spec. unfold SFleb.
  destruct (Prim2SF x) as [| | |]; destruct (Prim2SF y) as [| | |];
    cbn [SFcompare]; intros H; split; congruence.
Qed.

Lemma ltb_true_not_nan (x y : float) :
  (x <? y)%float = true -> Prim2SF x <> S754_nan /\ Prim2SF y <> S754_nan.
Proof.
  rewrite FloatAxioms.ltb_spec. unfold SFltb.
  destruct (Prim2SF x) as [| | |]; destruct (Prim2SF y) as [| | |];
    cbn [SFcompare]; intros H; split; congruence.
Qed.

(** [x <= y] excludes [y < x]. *)
Lemma leb_not_gt (x y : float) :
  (x <=? y)%float = true -> (y <? x)%float = false.
Proof.
  intros H. destruct (leb_true_not_nan x y H) as [Nx Ny].
  rewrite leb_scaled in H by assumption. rewrite ltb_scaled by assumption.
  apply Z.leb_le in H. apply Z.ltb_ge. exact H.
Qed.

(** On floats that are not NaN, [not (x < y)] is [y <= x]. *)
Lemma not_ltb_leb (x y : float) :
  Prim2SF x <> S754_nan -> Prim2SF y <> S754_nan ->
  (x <? y)%float = false -> (y <=? x)%float = true.
Proof.
  intros Nx Ny H. rewrite ltb_scaled in H by assumption.
  rewrite leb_scaled by assumption. apply Z.ltb_ge in H. apply Z.leb_le. exact H.
Qed.

Lemma signed_nonzero_not_nan (s : bool) (x : spec_float) :
  signed_nonzero s x -> x <> S754_nan.
Proof. destruct x; cbn; intros H; congruence || contradiction. Qed.

Lemma positive_scaled (x : spec_float) :
  signed_nonzero false x -> 0 < scaled x.
Proof.
  destruct x as [| s | | s m e]; cbn [signed_nonzero]; try contradiction.
  - intros ->. cbn [scaled cond_Zopp]. apply Z.pow_pos_nonneg; lia.
  - intros [-> B]. cbn [scaled cond_Zopp]. pose proof (scaled_finite_pos m e B). lia.
Qed.

Lemma Prim2SF_zero : Prim2SF 0 = S754_zero false.
Proof. reflexivity. Qed.

Lemma positive_float_gt_zero (x : float) :
  positive_float x -> (0 <? x)%float = true /\ (x <? 0)%float = false.
Proof.
  intros H. pose proof (positive_scaled _ H) as Hs.
  pose proof (signed_nonzero_not_nan _ _ H) as Nx.
  assert (N0 : Prim2SF 0 <> S754_nan) by (rewrite Prim2SF_zero; discriminate).
  rewrite !ltb_scaled by assumption. rewrite Prim2SF_zero. cbn [scaled].
  split; [apply Z.ltb_lt | apply Z.ltb_ge]; lia.
Qed.

Lemma scaled_positive_float (x : float) :
  Prim2SF x <> S754_nan -> 0 < scaled (Prim2SF x) -> positive_float x.
Proof.
  intros Nx Hs. unfold positive_float. pose proof (Prim2SF_valid x) as V.
  destruct (Prim2SF x) as [s|s| |s m e]; cbn [scaled cond_Zopp] in Hs; try lia; try congruence.
  - destruct s; cbn [signed_nonzero]; [|reflexivity].
    assert (0 < 2 ^ 2200) by (apply Z.pow_pos_nonneg; lia). cbn [cond_Zopp] in Hs. lia.
  - cbn [valid_binary] in V. pose proof (scaled_finite_pos m e V).
    destruct s; cbn [signed_nonzero cond_Zopp] in *; [lia | auto].
Qed.

(** A saturation of at least 0.20 is a positive float. *)
Lemma saturated_positive (x : float) :
  (0.20 <=? x)%float = true -> positive_float x.
Proof.
  intros H. destruct (leb_true_not_nan _ _ H) as [N2 Nx].
  rewrite leb_scaled in H by assumption. apply Z.leb_le in H.
  apply scaled_positive_float; [assumption|].
  assert (0 < scaled (Prim2SF 0.20)) by (vm_compute; reflexivity). lia.
Qed.

Lemma zero_plus_positive (x : float) :
  positive_float x -> positive_float (0 + x).
Proof.
  unfold positive_float. rewrite FloatAxioms.add_spec, Prim2SF_zero.
  destruct (Prim2SF x) as [s|s| |s m e]; cbn [signed_nonzero SFadd];
    intros H; (exact H || contradiction).
Qed.

Lemma fold_add_positive (xs : list float) :
  forall acc, positive_float acc -> Forall positive_float xs ->
  positive_float (fold_left PrimFloat.add xs acc).
Proof.
  induction xs as [|x xs IH]; intros acc Ha Hxs; cbn [fold_left]; [assumption|].
  inversion Hxs; subst. apply IH; [apply add_positive|]; assumption.
Qed.

(** The sum of a non-empty list of positive floats is positive. *)
Lemma float_sum_positive (xs : list float) :
  xs <> [] -> Forall positive_float xs -> positive_float (float_sum xs).
Proof.
  intros Hne Hxs. destruct xs as [|x xs]; [congruence|].
  inversion Hxs; subst. unfold float_sum. cbn [fold_left].
  apply fold_add_positive; [apply zero_plus_positive|]; assumption.
Qed.

(** ** The Hue Classifier *)

Lemma classify_pixel_low_alpha (st : classes) (px : pixel) :
  low_alpha px = true -> classify_pixel st px = Ok st.
Proof.
  unfold low_alpha, classify_pixel; destruct px as [r g b a|r g b]; simpl.
  - intros ->; reflexivity.
  - intros H; discriminate H.
Qed.

Lemma classify_from_drop_low_alpha (pxs : list pixel) (st : classes) :
  classify_from st (filter (fun px => negb (low_alpha px)) pxs)
  = classify_from st pxs.
Proof.
  unfold classify_from; revert st.
  induction pxs as [|px pxs IH]; intros st; simpl; [reflexivity|].
  destruct (low_alpha px) eqn:Hlow; simpl.
  - rewrite (classify_pixel_low_alpha st px Hlow); simpl; apply IH.
  - destruct (classify_pixel st px) as [st'|e]; simpl; [apply IH | reflexivity].
Qed.

(** C5. For every pixel sequence, deleting all the pixels with alpha < 64
    leaves the Hue Classifier's outputs unchanged: the classifier run on the
    filtered sequence gives the same result as on the original one (the same
    36 buckets, the same grey pool and the same [total_opaque]). *)
Theorem C5_low_alpha_pixels_ignored (pxs : list pixel) :
  classify (filter (fun px => negb (alpha px <? 64)) pxs) = classify pxs.
Proof.
  exact (classify_from_drop_low_alpha pxs initial).
Qed.


(** *** Channels *)

Lemma in_all_bytes (b : Byte.byte) : In b all_bytes.
Proof.
  unfold all_bytes. apply in_map_iff. exists (N.to_nat (Byte.to_N b)). split.
  - rewrite N2Nat.id, Byte.of_to_N. reflexivity.
  - apply in_seq. pose proof (Byte.to_N_bounded b). lia.
Qed.

Lemma chan_range (c : Byte.byte) : 0 <= chan c <= 255.
Proof. unfold chan. pose proof (Byte.to_N_bounded c). lia. Qed.

Lemma int_truediv_ok (a b : Z) : b <> 0 -> exists x, int_truediv a b = Ok x.
Proof.
  intros Hb. unfold int_truediv. apply Z.eqb_neq in Hb. rewrite Hb.
  destruct a as [|p|p]; [eexists; reflexivity| |];
    destruct (SFdiv_core_binary _ _ _ _ _ _) as [[q e] l]; eexists; reflexivity.
Qed.

Lemma int_truediv_channel (c : Byte.byte) :
  int_truediv (chan c) 255 = Ok (channel_float c).
Proof.
  unfold channel_float.
  destruct (int_truediv_ok (chan c) 255 ltac:(lia)) as [x ->]. reflexivity.
Qed.

(** *** The saturation of a pixel is never a NaN *)

Lemma max3_cases (a b c : float) : max3 a b c = a \/ max3 a b c = b \/ max3 a b c = c.
Proof.
  unfold max3. destruct (a <? b)%float; destruct (_ <? c)%float; auto.
Qed.

Lemma min3_cases (a b c : float) : min3 a b c = a \/ min3 a b c = b \/ min3 a b c = c.
Proof.
  unfold min3. destruct (b <? a)%float; destruct (c <? _)%float; auto.
Qed.

Lemma rgb_to_hls_lightness_saturation (r g b h l s : float) :
  rgb_to_hls r g b = Ok (h, l, s) ->
  lightness_saturation (max3 r g b) (min3 r g b) = Ok (l, s).
Proof.
  unfold rgb_to_hls, lightness_saturation.
  set (maxc := max3 r g b). set (minc := min3 r g b).
  intros H. apply bind_ok in H. destruct H as (l0 & -> & H). cbn [bind].
  destruct (minc =? maxc)%float; [congruence|].
  apply bind_ok in H. destruct H as (s0 & -> & H). cbn [bind].
  apply bind_ok in H. destruct H as (rc & _ & H).
  apply bind_ok in H. destruct H as (gc & _ & H).
  apply bind_ok in H. destruct H as (bc & _ & H).
  apply bind_ok in H. destruct H as (h6 & _ & H).
  congruence.
Qed.

Lemma all_pairs_placed_channels : all_pairs_placed (map channel_float all_bytes) = true.
Proof. vm_compute. reflexivity. Qed.

Lemma all_pairs_placed_spec (values : list float) :
  all_pairs_placed values = true ->
  forall x y, In x values -> In y values -> saturation_placed x y = true.
Proof.
  unfold all_pairs_placed. intros H x y Hx Hy.
  rewrite forallb_forall in H. specialize (H x Hx).
  rewrite forallb_forall in H. exact (H y Hy).
Qed.

Lemma saturation_placed_channels (x y : float) :
  In x (map channel_float all_bytes) -> In y (map channel_float all_bytes) ->
  saturation_placed x y = true.
Proof.
  exact (all_pairs_placed_spec _ all_pairs_placed_channels x y).
Qed.

Lemma channel_float_in (c : Byte.byte) : In (channel_float c) (map channel_float all_bytes).
Proof. apply in_map, in_all_bytes. Qed.

(** The saturation of a pixel compares with 0.20 one way or the other. *)
Lemma pixel_saturation_placed (r g b : Byte.byte) (h l s : float) :
  rgb_to_hls (channel_float r) (channel_float g) (channel_float b) = Ok (h, l, s) ->
  (s <? 0.20)%float = false -> (0.20 <=? s)%float = true.
Proof.
  intros H Hlt. apply rgb_to_hls_lightness_saturation in H.
  assert (Hp : saturation_placed (max3 (channel_float r) (channel_float g) (channel_float b))
                 (min3 (channel_float r) (channel_float g) (channel_float b)) = true).
  { apply saturation_placed_channels.
    - destruct (max3_cases (channel_float r) (channel_float g) (channel_float b))
        as [-> | [-> | ->]]; apply channel_float_in.
    - destruct (min3_cases (channel_float r) (channel_float g) (channel_float b))
        as [-> | [-> | ->]]; apply channel_float_in. }
  unfold saturation_placed in Hp. rewrite H, Hlt in Hp. exact Hp.
Qed.

(** *** Lists *)

Lemma position_nat {A : Type} (l : list A) (k : nat) :
  (k < List.length l)%nat -> PyList.position l (Z.of_nat k) = Ok k.
Proof.
  intros Hk. unfold PyList.position.
  assert (H : (0 <=? Z.of_nat k) && (Z.of_nat k <? Z.of_nat (List.length l)) = true).
  { apply andb_true_iff. split; [apply Z.leb_le | apply Z.ltb_lt]; lia. }
  rewrite H, Nat2Z.id. reflexivity.
Qed.

Lemma position_bound {A : Type} (l : list A) (i : Z) (k : nat) :
  PyList.position l i = Ok k -> (k < List.length l)%nat.
Proof.
  unfold PyList.position.
  destruct ((0 <=? i) && (i <? Z.of_nat (List.length l))) eqn:H1.
  - apply andb_true_iff in H1. destruct H1 as [H0 H1].
    apply Z.leb_le in H0. apply Z.ltb_lt in H1. intros H. inversion H. lia.
  - destruct ((- Z.of_nat (List.length l) <=? i) && (i <? 0)) eqn:H2; [|discriminate].
    apply andb_true_iff in H2. destruct H2 as [H2 H3].
    apply Z.leb_le in H2. apply Z.ltb_lt in H3. intros H. inversion H. lia.
Qed.

Lemma get_nat {A : Type} (l : list A) (k : nat) (x : A) :
  nth_error l k = Some x -> PyList.get l (Z.of_nat k) = Ok x.
Proof.
  intros H. unfold PyList.get.
  rewrite position_nat by (apply nth_error_Some; congruence).
  cbn [bind]. rewrite H. reflexivity.
Qed.

Lemma alter_length {A : Type} (f : A -> A) (k : nat) (l : list A) :
  List.length (PyList.alter f k l) = List.length l.
Proof.
  revert k; induction l as [|x l IH]; intros [|k]; cbn; auto.
Qed.

Lemma alter_Forall {A : Type} (P : A -> Prop) (f : A -> A) (k : nat) (l : list A) :
  (forall x, P x -> P (f x)) -> Forall P l -> Forall P (PyList.alter f k l).
Proof.
  intros Hf. revert k; induction l as [|x l IH]; intros k H; [destruct k; exact H|].
  inversion H; subst. destruct k; cbn; constructor; auto.
Qed.

Lemma for_each_seq_invariant {S : Type} (body : S -> Z -> res S)
      (I : nat -> S -> Prop) (n : nat) :
  (forall k s, (k < n)%nat -> I k s -> exists s', body s (Z.of_nat k) = Ok s' /\ I (Datatypes.S k) s') ->
  forall m k s, (k + m = n)%nat -> I k s ->
  exists s', PyList.for_each body (map Z.of_nat (seq k m)) s = Ok s' /\ I n s'.
Proof.
  intros Hstep. induction m as [|m IH]; intros k s Hk Hi; cbn.
  - exists s. replace n with k by lia. auto.
  - destruct (Hstep k s ltac:(lia) Hi) as (s1 & -> & Hi1). cbn [bind].
    apply IH; [lia | assumption].
Qed.

(** A loop over [range(n)] that keeps an invariant runs to its end. *)
Lemma for_each_range_invariant {S : Type} (body : S -> Z -> res S)
      (I : nat -> S -> Prop) (n : nat) (s : S) :
  (forall k s, (k < n)%nat -> I k s -> exists s', body s (Z.of_nat k) = Ok s' /\ I (Datatypes.S k) s') ->
  I 0%nat s ->
  exists s', PyList.for_each body (PyList.range n) s = Ok s' /\ I n s'.
Proof.
  intros Hstep H0. unfold PyList.range.
  apply (for_each_seq_invariant body I n Hstep n 0%nat s); [lia | assumption].
Qed.

(** *** What the classifier keeps true *)

Lemma classified_initial : classified initial.
Proof.
  split; [reflexivity|]. cbn [initial buckets].
  apply Forall_forall. intros b Hb. apply repeat_spec in Hb. subst. constructor.
Qed.

Lemma append_at_classified (bs bs' : list (list colored)) (i : Z) (c : colored) :
  PyList.append_at bs i c = Ok bs' -> saturated c ->
  Forall (Forall saturated) bs ->
  List.length bs' = List.length bs /\ Forall (Forall saturated) bs'.
Proof.
  unfold PyList.append_at. intros H Hc Hbs.
  apply bind_ok in H. destruct H as (k & _ & H). inversion H; subst.
  split; [apply alter_length|].
  apply alter_Forall; [|assumption].
  intros b Hb. apply Forall_app. split; [assumption | constructor; [assumption | constructor]].
Qed.

Lemma classify_pixel_classified (st st' : classes) (px : pixel) :
  classified st -> classify_pixel st px = Ok st' -> classified st'.
Proof.
  intros [Hlen Hsat]. unfold classify_pixel.
  set (rgba := match px with
               | RGBA r g b a => (r, g, b, chan a)
               | RGB r g b => (r, g, b, 255)
               end).
  destruct rgba as [[[r g] b] a].
  destruct (a <? 64); [intros H; inversion H; subst; split; assumption|].
  rewrite !int_truediv_channel. cbn [bind].
  destruct (rgb_to_hls (channel_float r) (channel_float g) (channel_float b))
    as [[[h l] s]|e] eqn:Hhls; cbn [bind]; [|discriminate].
  destruct ((l <? 0.1)%float || (0.95 <? l)%float);
    [intros H; inversion H; subst; split; assumption|].
  destruct (s <? 0.20)%float eqn:Hs;
    [intros H; inversion H; subst; split; assumption|].
  destruct (hue_index h) as [i|e]; cbn [bind]; [|discriminate].
  destruct (PyList.append_at (buckets st) i _) as [bs|e] eqn:Happ; cbn [bind]; [|discriminate].
  intros H; inversion H; subst. unfold classified. cbn [buckets].
  apply append_at_classified in Happ; [| |assumption].
  - destruct Happ as [Hl Hf]. split; [congruence | assumption].
  - unfold saturated. cbn [c_s]. exact (pixel_saturation_placed r g b h l s Hhls Hs).
Qed.

Lemma classify_from_classified (pxs : list pixel) :
  forall st st', classified st -> classify_from st pxs = Ok st' -> classified st'.
Proof.
  unfold classify_from. induction pxs as [|px pxs IH]; intros st st' Hst H; cbn in H.
  - inversion H; subst; assumption.
  - apply bind_ok in H. destruct H as (st1 & H1 & H).
    exact (IH st1 st' (classify_pixel_classified st st1 px Hst H1) H).
Qed.

Lemma classify_classified (pxs : list pixel) (st : classes) :
  classify pxs = Ok st -> classified st.
Proof. apply classify_from_classified, classified_initial. Qed.

(** *** The strength scan *)

Lemma strength_nil : strength [] = 0%float.
Proof. reflexivity. Qed.

Lemma strength_positive (b : list colored) :
  b <> [] -> Forall saturated b -> positive_float (strength b).
Proof.
  intros Hne Hb. unfold strength. apply float_sum_positive.
  - destruct b; [congruence | discriminate].
  - apply Forall_map. revert Hb. apply Forall_impl. intros c. apply saturated_positive.
Qed.

Lemma scan_step_sound (bs : list (list colored)) (k : nat) (sc : scan) :
  Forall (Forall saturated) bs -> (k < List.length bs)%nat ->
  scan_sound bs k sc ->
  exists sc', scan_step bs sc (Z.of_nat k) = Ok sc' /\ scan_sound bs (S k) sc'.
Proof.
  intros Hsat Hk Hinv. unfold scan_step.
  destruct (nth_error bs k) as [b|] eqn:Hb; [|apply nth_error_None in Hb; lia].
  rewrite (get_nat bs k b Hb). cbn [bind].
  assert (Hbsat : Forall saturated b).
  { rewrite Forall_forall in Hsat. apply Hsat. eapply nth_error_In; eassumption. }
  destruct b as [|c b'].
  - (* an empty bucket never becomes the best one *)
    rewrite strength_nil.
    assert (Hno : (max_strength sc <? 0)%float = false).
    { destruct Hinv as [(_ & -> & _) | (i & b & _ & _ & _ & _ & Hpos)]; [reflexivity|].
      apply positive_float_gt_zero; assumption. }
    rewrite Hno. eexists; split; [reflexivity|].
    destruct Hinv as [(Hbest & Hmax & Hall) | (i & b & Hi & Hbest & Hbi & Hne & Hpos)].
    + left. cbn [best_bucket max_strength]. repeat split; try assumption.
      intros i Hi. destruct (Nat.eq_dec i k) as [->|]; [assumption | apply Hall; lia].
    + right. exists i, b. cbn [best_bucket max_strength]. repeat split; auto; lia.
  - (* a non-empty bucket has a positive strength *)
    pose proof (strength_positive (c :: b') ltac:(discriminate) Hbsat) as Hpos.
    destruct (max_strength sc <? strength (c :: b'))%float eqn:Hcmp.
    + eexists; split; [reflexivity|]. right. exists k, (c :: b').
      cbn [best_bucket max_strength]. repeat split; auto; try lia. discriminate.
    + eexists; split; [reflexivity|].
      destruct Hinv as [(Hbest & Hmax & Hall) | (i & b & Hi & Hbest & Hbi & Hne & Hp)].
      * rewrite Hmax in Hcmp. destruct (positive_float_gt_zero _ Hpos) as [Hgt _]. congruence.
      * right. exists i, b. cbn [best_bucket max_strength]. repeat split; auto; lia.
Qed.

Lemma find_strongest_sound (bs : list (list colored)) :
  List.length bs = 36%nat -> Forall (Forall saturated) bs ->
  exists sc, find_strongest bs = Ok sc /\ scan_sound bs 36 sc.
Proof.
  intros Hlen Hsat. unfold find_strongest.
  apply for_each_range_invariant.
  - intros k s Hk. apply scan_step_sound; [assumption | lia].
  - left. repeat split; try reflexivity. intros i Hi. lia.
Qed.

(** C9. After the strength scan of the buckets the classifier produced,
    [best_bucket = -1] exactly when all 36 buckets are empty: every member of
    a bucket has a saturation of at least 0.20, so a non-empty bucket has a
    strength above 0, the initial [max_strength].  Hence, whenever the
    acceptance condition holds, [buckets[best_bucket]] exists and is not
    empty, and a division by its length raises no ZeroDivisionError. *)
Theorem C9_best_bucket_exists_iff_a_bucket_is_nonempty
        (pxs : list pixel) (st : classes) :
  classify pxs = Ok st ->
  exists sc, find_strongest (buckets st) = Ok sc
    /\ (best_bucket sc = -1 <-> Forall (fun b => b = []) (buckets st))
    /\ (forall b, In b (buckets st) -> b <> [] ->
          Forall saturated b /\ (0 <? strength b)%float = true)
    /\ (dominant_accepted sc (total_non_transparent st) = true ->
        exists b_pixels,
          PyList.get (buckets st) (best_bucket sc) = Ok b_pixels
          /\ b_pixels <> []
          /\ forall a, exists q, int_truediv a (PyList.len b_pixels) = Ok q).
Proof.
  intros Hc. destruct (classify_classified pxs st Hc) as [Hlen Hsat].
  destruct (find_strongest_sound (buckets st) Hlen Hsat) as (sc & Hsc & Hinv).
  exists sc. split; [assumption|].
  assert (Hnonempty : forall i b, best_bucket sc = Z.of_nat i ->
            nth_error (buckets st) i = Some b -> b <> [] ->
            exists b_pixels, PyList.get (buckets st) (best_bucket sc) = Ok b_pixels
              /\ b_pixels <> []
              /\ forall a, exists q, int_truediv a (PyList.len b_pixels) = Ok q).
  { intros i b Hbest Hb Hne. exists b. rewrite Hbest. split; [apply get_nat; assumption|].
    split; [assumption|]. intros a. apply int_truediv_ok.
    unfold PyList.len. destruct b; [congruence | cbn; lia]. }
  split; [|split].
  - destruct Hinv as [(Hbest & _ & Hall) | (i & b & Hi & Hbest & Hb & Hne & _)].
    + split; [|auto]. intros _. apply Forall_forall. intros b Hb.
      destruct (In_nth_error _ _ Hb) as [i Hi].
      assert (i < 36)%nat by (rewrite <- Hlen; apply nth_error_Some; congruence).
      rewrite Hall in Hi by assumption. congruence.
    + split; [lia|]. intros Hall. rewrite Forall_forall in Hall.
      exfalso. apply Hne. apply Hall. eapply nth_error_In; eassumption.
  - intros b Hb Hne. rewrite Forall_forall in Hsat. specialize (Hsat b Hb).
    split; [assumption|]. apply positive_float_gt_zero, strength_positive; assumption.
  - intros Hacc. unfold dominant_accepted in Hacc. apply andb_true_iff in Hacc.
    destruct Hacc as [Hbest _]. apply negb_true_iff, Z.eqb_neq in Hbest.
    destruct Hinv as [(Hb & _) | (i & b & Hi & Hbi & Hb & Hne & _)]; [contradiction|].
    exact (Hnonempty i b Hbi Hb Hne).
Qed.

(** One opaque red pixel: bucket 0 is the only non-empty one and it is
    selected. *)
Lemma C9_best_bucket_exists_iff_a_bucket_is_nonempty_witness :
  classify [red_pixel] = Ok (red_classes 1)
  /\ exists sc, find_strongest (buckets (red_classes 1)) = Ok sc
    /\ (best_bucket sc = -1 <-> Forall (fun b => b = []) (buckets (red_classes 1)))
    /\ (forall b, In b (buckets (red_classes 1)) -> b <> [] ->
          Forall saturated b /\ (0 <? strength b)%float = true)
    /\ (dominant_accepted sc (total_non_transparent (red_classes 1)) = true ->
        exists b_pixels,
          PyList.get (buckets (red_classes 1)) (best_bucket sc) = Ok b_pixels
          /\ b_pixels <> []
          /\ forall a, exists q, int_truediv a (PyList.len b_pixels) = Ok q).
Proof.
  split; [vm_compute; reflexivity|].
  apply (C9_best_bucket_exists_iff_a_bucket_is_nonempty [red_pixel]).
  vm_compute; reflexivity.
Defined.

(** *** The first maximum wins *)

Lemma leb_trans (x y z : float) :
  (x <=? y)%float = true -> (y <=? z)%float = true -> (x <=? z)%float = true.
Proof.
  intros H1 H2. destruct (leb_true_not_nan _ _ H1) as [Nx Ny].
  destruct (leb_true_not_nan _ _ H2) as [_ Nz].
  rewrite leb_scaled in * by assumption.
  apply Z.leb_le in H1, H2. apply Z.leb_le. lia.
Qed.

Lemma scan_step_toward (bs : list (list colored)) (t : nat) (bt : list colored)
      (k : nat) (sc : scan) :
  (k < List.length bs)%nat ->
  nth_error bs t = Some bt ->
  (forall j b, nth_error bs j = Some b -> (strength b <=? strength bt)%float = true) ->
  (forall j b, (j < t)%nat -> nth_error bs j = Some b ->
               (strength b <? strength bt)%float = true) ->
  scan_toward t (strength bt) k sc ->
  exists sc', scan_step bs sc (Z.of_nat k) = Ok sc'
              /\ scan_toward t (strength bt) (S k) sc'.
Proof.
  intros Hk Ht Hmax Hlow Hinv. unfold scan_step.
  destruct (nth_error bs k) as [b|] eqn:Hb; [|apply nth_error_None in Hb; lia].
  rewrite (get_nat bs k b Hb). cbn [bind].
  destruct Hinv as [[Hkt Hlt] | (Hkt & Hbest & Htop)].
  - destruct (Nat.eq_dec k t) as [->|Hne].
    + (* the lowest maximum is reached: it exceeds everything before it *)
      assert (b = bt) by congruence. subst b. rewrite Hlt.
      eexists; split; [reflexivity|]. right. cbn [best_bucket max_strength].
      repeat split; lia.
    + assert (Hkt' : (k < t)%nat) by lia.
      destruct (max_strength sc <? strength b)%float;
        (eexists; split; [reflexivity|]); left; cbn [max_strength];
        (split; [lia|]); [exact (Hlow k b Hkt' Hb) | exact Hlt].
  - (* after it, no bucket is strictly stronger *)
    rewrite Htop, (leb_not_gt _ _ (Hmax k b Hb)).
    eexists; split; [reflexivity|]. right. cbn [best_bucket max_strength].
    repeat split; auto; lia.
Qed.

Lemma below_maximum (bs : list (list colored)) (t j : nat) (bt b : list colored) :
  nth_error bs t = Some bt ->
  (forall i c, nth_error bs i = Some c -> (strength c <=? strength bt)%float = true) ->
  nth_error bs j = Some b -> ~ attains_maximum bs j ->
  (strength b <? strength bt)%float = true.
Proof.
  intros Ht Hmax Hb Hnot.
  pose proof (Hmax j b Hb) as Hle. destruct (leb_true_not_nan _ _ Hle) as [Nb Nt].
  destruct (strength b <? strength bt)%float eqn:Hlt; [reflexivity|].
  exfalso. apply Hnot. exists b. split; [assumption|].
  intros i c Hc. apply leb_trans with (strength bt); [exact (Hmax i c Hc)|].
  apply not_ltb_leb; assumption.
Qed.

(** C7 (as amended). For every state of the 36 buckets in which the maximal
    strength is positive, the selector picks the lowest bucket index that
    attains the maximal strength: with the strict comparison of the scan the
    first maximum wins, whether two or more buckets tie or not. *)
Theorem C7_first_maximum_wins (bs : list (list colored)) (t : nat) :
  List.length bs = 36%nat ->
  attains_maximum bs t ->
  positive_maximum bs t ->
  (forall j, (j < t)%nat -> ~ attains_maximum bs j) ->
  exists sc, find_strongest bs = Ok sc /\ best_bucket sc = Z.of_nat t.
Proof.
  intros Hlen (bt & Ht & Hmax) (bt' & Ht' & Hpos) Hlowest.
  assert (bt' = bt) by congruence. subst bt'.
  assert (Htlt : (t < 36)%nat) by (rewrite <- Hlen; apply nth_error_Some; congruence).
  assert (Hlow : forall j b, (j < t)%nat -> nth_error bs j = Some b ->
                             (strength b <? strength bt)%float = true).
  { intros j b Hj Hb. apply (below_maximum bs t j bt b); auto. }
  destruct (for_each_range_invariant (scan_step bs) (scan_toward t (strength bt))
              36 scan_start) as (sc & Hsc & Hinv).
  - intros k s Hk. apply scan_step_toward; auto. lia.
  - left. split; [lia | exact Hpos].
  - exists sc. split; [exact Hsc|].
    destruct Hinv as [[Hle _] | (_ & Hbest & _)]; [lia | exact Hbest].
Qed.

Lemma tied_buckets_maximum (t : nat) :
  t = 3%nat \/ t = 7%nat -> attains_maximum tied_buckets t.
Proof.
  intros Ht. exists [half_saturated].
  split; [destruct Ht as [-> | ->]; reflexivity|].
  intros j b Hb.
  assert (Hcases : b = [] \/ b = [half_saturated]).
  { apply nth_error_In in Hb. unfold tied_buckets in Hb. cbn in Hb.
    repeat (destruct Hb as [Hb|Hb]; [subst b; auto|]). contradiction. }
  destruct Hcases as [-> | ->]; reflexivity.
Qed.

Lemma tied_buckets_below (j : nat) : (j < 3)%nat -> ~ attains_maximum tied_buckets j.
Proof.
  intros Hj (bt & Hbt & Hmax).
  assert (bt = []).
  { destruct j as [|[|[|j]]]; try lia; cbn in Hbt; congruence. }
  subst bt. specialize (Hmax 3%nat [half_saturated] eq_refl).
  vm_compute in Hmax. discriminate.
Qed.

(** The tie of the buckets 3 and 7 goes to bucket 3. *)
Lemma C7_first_maximum_wins_witness :
  attains_maximum tied_buckets 3 /\ attains_maximum tied_buckets 7
  /\ exists sc, find_strongest tied_buckets = Ok sc /\ best_bucket sc = 3.
Proof.
  split; [apply tied_buckets_maximum; auto|].
  split; [apply tied_buckets_maximum; auto|].
  apply (C7_first_maximum_wins tied_buckets 3).
  - reflexivity.
  - apply tied_buckets_maximum; auto.
  - exists [half_saturated]. split; reflexivity.
  - exact tied_buckets_below.
Defined.

Lemma empty_buckets_maximum (t : nat) : (t < 36)%nat -> attains_maximum empty_buckets t.
Proof.
  intros Ht. exists [].
  assert (Hall : forall j b, nth_error empty_buckets j = Some b -> b = []).
  { intros j b Hb. apply nth_error_In, repeat_spec in Hb. assumption. }
  split.
  - destruct (nth_error empty_buckets t) as [b|] eqn:Hb.
    + f_equal. exact (Hall t b Hb).
    + apply nth_error_None in Hb. unfold empty_buckets in Hb.
      rewrite repeat_length in Hb. lia.
  - intros j b Hb. rewrite (Hall j b Hb). reflexivity.
Qed.

(** C7, the claim as stated, fails when all the buckets are empty: the
    buckets 0 and 1 (and all others) attain the maximal strength 0, bucket 0
    is the lowest of them, and the selector picks no bucket at all. *)
Lemma C7_counterexample_no_bucket_picked :
  attains_maximum empty_buckets 0 /\ attains_maximum empty_buckets 1
  /\ (forall j, (j < 0)%nat -> ~ attains_maximum empty_buckets j)
  /\ exists sc, find_strongest empty_buckets = Ok sc
                /\ best_bucket sc = -1 /\ best_bucket sc <> 0.
Proof.
  split; [apply empty_buckets_maximum; lia|].
  split; [apply empty_buckets_maximum; lia|].
  split; [intros j Hj; lia|].
  eexists. split; [vm_compute; reflexivity|]. cbn. split; [reflexivity | discriminate].
Qed.

(** ** The hue bucket index *)

Lemma unit_interval_cases (h : float) :
  (0 <=? h)%float = true -> (h <=? 1)%float = true ->
  (exists s, Prim2SF h = S754_zero s)
  \/ (exists m e, Prim2SF h = S754_finite false m e
                  /\ Zpos m < 2 ^ 53 /\ e <= 0).
Proof.
  intros H0 H1. destruct (leb_true_not_nan _ _ H0) as [N0 Nh].
  destruct (leb_true_not_nan _ _ H1) as [_ N1].
  rewrite leb_scaled in H0, H1 by assumption.
  apply Z.leb_le in H0, H1.
  change (scaled (Prim2SF 0)) with 0 in H0.
  change (scaled (Prim2SF 1)) with (2 ^ 52 * 2 ^ 1022) in H1.
  pose proof (Prim2SF_valid h) as V.
  destruct (Prim2SF h) as [s|s| |s m e]; [left; eauto | | congruence |].
  - exfalso. cbn [scaled] in H0, H1.
    assert (2 ^ 52 * 2 ^ 1022 < 2 ^ 2200).
    { rewrite <- Z.pow_add_r by lia. apply Z.pow_lt_mono_r; lia. }
    destruct s; cbn [cond_Zopp] in *; lia.
  - right. cbn [valid_binary] in V. pose proof (scaled_finite_pos m e V) as Hp.
    destruct (bounded_inv m e V) as (He & Hm & _).
    destruct s; cbn [scaled cond_Zopp] in H0, H1; [lia|].
    exists m, e. split; [reflexivity|]. split; [assumption|].
    destruct (Z.leb_spec e 0) as [|Hgt]; [assumption|]. exfalso.
    assert (2 ^ (1 + 1074) <= 2 ^ (e + 1074)) by (apply Z.pow_le_mono_r; lia).
    rewrite <- Z.pow_add_r in H1 by lia.
    assert (2 ^ (52 + 1022) < 2 ^ (1 + 1074)) by (apply Z.pow_lt_mono_r; lia).
    nia.
Qed.

(** In the unit interval, [h * 36] is a zero or a finite float. *)
Lemma hue_times_36_finite (h : float) :
  (0 <=? h)%float = true -> (h <=? 1)%float = true ->
  match Prim2SF (h * 36) with
  | S754_zero _ | S754_finite _ _ _ => True
  | _ => False
  end.
Proof.
  intros H0 H1. rewrite FloatAxioms.mul_spec.
  change (Prim2SF 36) with (S754_finite false 5066549580791808 (-47)).
  destruct (unit_interval_cases h H0 H1) as [[s ->] | (m & e & -> & Hm & He)].
  - exact I.
  - unfold SF64mul. cbn [SFmul].
    apply (binary_round_aux_finite _ _ _ _ 106); lia.
Qed.

Lemma hue_index_range (h : float) (i : Z) : hue_index h = Ok i -> 0 <= i <= 35.
Proof.
  unfold hue_index. intros H. apply bind_ok in H. destruct H as (n & _ & H).
  inversion H. pose proof (Z.mod_pos_bound n 36). lia.
Qed.

Lemma append_at_in_range {A : Type} (bs : list (list A)) (i : Z) (x : A) :
  0 <= i < Z.of_nat (List.length bs) ->
  exists bs', PyList.append_at bs i x = Ok bs'.
Proof.
  intros Hi. unfold PyList.append_at.
  replace i with (Z.of_nat (Z.to_nat i)) by lia.
  rewrite position_nat by lia. cbn [bind]. eexists; reflexivity.
Qed.

(** C4. For every hue [h] of the unit interval (the interval [[0,1)] of the
    hues, and the value 1.0 a hue can wrap to), the bucket index
    [int(h * 36) % 36] is computed and lies in [[0,35]], so appending to
    [buckets[index]] in the list of 36 buckets raises no IndexError; whatever
    the hue, an index that is computed lies in [[0,35]]; 0.999999 maps to
    bucket 35 and 1.0 to bucket 0, never 36. *)
Theorem C4_hue_index_in_range :
  (forall h, (0 <=? h)%float = true -> (h <=? 1)%float = true ->
     exists i, hue_index h = Ok i /\ 0 <= i <= 35
       /\ forall (bs : list (list colored)) (c : colored),
            List.length bs = 36%nat -> exists bs', PyList.append_at bs i c = Ok bs')
  /\ (forall h i, hue_index h = Ok i -> 0 <= i <= 35)
  /\ hue_index 0.999999 = Ok 35
  /\ hue_index 1 = Ok 0.
Proof.
  split; [|split; [exact hue_index_range | split; reflexivity]].
  intros h H0 H1.
  assert (Hi : exists i, hue_index h = Ok i).
  { unfold hue_index, int_of_float. pose proof (hue_times_36_finite h H0 H1) as Hf.
    destruct (Prim2SF (h * 36)); try contradiction; cbn [bind]; eexists; reflexivity. }
  destruct Hi as [i Hi]. exists i. split; [assumption|].
  pose proof (hue_index_range h i Hi) as Hr. split; [assumption|].
  intros bs c Hlen. apply append_at_in_range. rewrite Hlen. lia.
Qed.

(** ** The Dominant Color Selector *)

Lemma float_of_int_positive (n : Z) : 0 < n -> positive_float (float_of_int n).
Proof.
  intros Hn. unfold positive_float, float_of_int. rewrite Prim2SF_float_of_int.
  destruct n as [|p|p]; try lia. cbn [binary_normalize].
  apply binary_round_nonzero. lia.
Qed.

Lemma positive_float_nonzero (x : float) : positive_float x -> (x =? 0)%float = false.
Proof.
  unfold positive_float. rewrite FloatAxioms.eqb_spec, Prim2SF_zero.
  destruct (Prim2SF x) as [s|s| |s m e]; cbn [signed_nonzero]; try contradiction.
  - intros ->. reflexivity.
  - intros [-> _]. reflexivity.
Qed.

(** The grey of a neutral icon does not depend on the pool. *)
Lemma grey_color_constant (gs : list grey) :
  gs <> [] -> grey_color gs = Ok (165, 165, 165).
Proof.
  intros Hne. unfold grey_color, float_div.
  rewrite positive_float_nonzero.
  - reflexivity.
  - apply float_of_int_positive. unfold PyList.len. destruct gs; [congruence | cbn; lia].
Qed.

Lemma firstn_succ_nth {A : Type} (l : list A) (k : nat) (x : A) :
  nth_error l k = Some x -> firstn (S k) l = firstn k l ++ [x].
Proof.
  revert k; induction l as [|y l IH]; intros [|k] H; cbn in *; try discriminate.
  - congruence.
  - f_equal. apply IH. assumption.
Qed.

Lemma scan_step_counted (bs : list (list colored)) (k : nat) (sc : scan) :
  (k < List.length bs)%nat -> scan_counted bs k sc ->
  exists sc', scan_step bs sc (Z.of_nat k) = Ok sc' /\ scan_counted bs (S k) sc'.
Proof.
  intros Hk [Hbest Hcount]. unfold scan_step.
  destruct (nth_error bs k) as [b|] eqn:Hb; [|apply nth_error_None in Hb; lia].
  rewrite (get_nat bs k b Hb). cbn [bind].
  assert (Hnew : total_colored_pixels sc + PyList.len b
                 = PyList.len (List.concat (firstn (S k) bs))).
  { rewrite (firstn_succ_nth bs k b Hb), concat_app. cbn [List.concat].
    rewrite app_nil_r. unfold PyList.len in *. rewrite length_app. lia. }
  destruct (max_strength sc <? strength b)%float;
    (eexists; split; [reflexivity|]); split;
    cbn [best_bucket total_colored_pixels]; try assumption; lia.
Qed.

(** The scan of 36 buckets ends; it selects no bucket or one of them, and
    counts the members of all of them. *)
Lemma find_strongest_counted (bs : list (list colored)) :
  List.length bs = 36%nat ->
  exists sc, find_strongest bs = Ok sc
    /\ (best_bucket sc = -1 \/ 0 <= best_bucket sc < 36)
    /\ total_colored_pixels sc = PyList.len (List.concat bs).
Proof.
  intros Hlen.
  destruct (for_each_range_invariant (scan_step bs) (scan_counted bs) 36 scan_start)
    as (sc & Hsc & Hbest & Hcount).
  - intros k s Hk. apply scan_step_counted. lia.
  - split; [left; reflexivity | reflexivity].
  - exists sc. split; [exact Hsc|]. split; [exact Hbest|].
    rewrite Hcount, <- Hlen, firstn_all. reflexivity.
Qed.

Lemma get_in_range {A : Type} (l : list A) (i : Z) :
  0 <= i < Z.of_nat (List.length l) -> exists x, PyList.get l i = Ok x.
Proof.
  intros Hi. destruct (nth_error l (Z.to_nat i)) as [x|] eqn:Hx.
  - exists x. replace i with (Z.of_nat (Z.to_nat i)) by lia. apply get_nat. assumption.
  - apply nth_error_None in Hx. lia.
Qed.

(** *** The coverage threshold *)

Lemma scale_positive : 0 < scale.
Proof. unfold scale. apply Z.pow_pos_nonneg; lia. Qed.

Lemma threshold_exact_icons : forallb threshold_exact (PyList.range 4097) = true.
Proof. vm_compute. reflexivity. Qed.

Lemma in_range (n : nat) (i : Z) : 0 <= i < Z.of_nat n -> In i (PyList.range n).
Proof.
  intros Hi. unfold PyList.range. apply in_map_iff. exists (Z.to_nat i).
  split; [lia | apply in_seq; lia].
Qed.

(** For up to 4096 sampled pixels (a whole icon) the test against the float
    threshold is the exact test [colored > total * 15 / 100]. *)
Lemma coverage_test_exact (total colored : Z) :
  0 <= total <= 4096 ->
  int_gt_float colored (coverage_threshold total) = true <-> 3 * total < 20 * colored.
Proof.
  intros Ht.
  assert (He : threshold_exact total = true).
  { pose proof threshold_exact_icons as H. rewrite forallb_forall in H.
    apply H, in_range. lia. }
  unfold threshold_exact in He. unfold int_gt_float.
  pose proof scale_positive as Hs.
  pose proof (Z.div_mod (3 * total) 20 ltac:(lia)) as Hdm.
  pose proof (Z.mod_pos_bound (3 * total) 20 ltac:(lia)) as Hmb.
  set (q := 3 * total / 20) in *.
  destruct (Prim2SF (coverage_threshold total)) as [s|s| |s m e]; try discriminate;
    apply andb_true_iff in He; destruct He as [Hlo Hhi];
    apply Z.leb_le in Hlo; apply Z.ltb_lt in Hhi;
    rewrite Z.ltb_lt; (split; intros H; [assert (q < colored) by nia | assert (q < colored) by lia]; nia).
Qed.

(** A count that equals the threshold exactly does not exceed it. *)
Lemma coverage_test_boundary (colored : Z) (x : float) :
  scaled (Prim2SF x) = colored * scale -> int_gt_float colored x = false.
Proof.
  intros H. unfold int_gt_float.
  destruct (Prim2SF x); try reflexivity; apply Z.ltb_ge; lia.
Qed.

(** *** The decision *)

Lemma select_accepted (st : classes) (sc : scan) :
  find_strongest (buckets st) = Ok sc ->
  dominant_accepted sc (total_non_transparent st) = true ->
  select st = (b_pixels <- PyList.get (buckets st) (best_bucket sc) ;;
               c <- prime_color b_pixels ;; Ok (Prime c)).
Proof. intros Hsc Hacc. unfold select. rewrite Hsc. cbn [bind]. rewrite Hacc. reflexivity. Qed.

Lemma select_not_accepted (st : classes) (sc : scan) :
  find_strongest (buckets st) = Ok sc ->
  dominant_accepted sc (total_non_transparent st) = false ->
  select st = match greys st with
              | _ :: _ => c <- grey_color (greys st) ;; Ok (Grey c)
              | [] => Ok NoResult
              end.
Proof. intros Hsc Hacc. unfold select. rewrite Hsc. cbn [bind]. rewrite Hacc. reflexivity. Qed.

Lemma fallback_value (st : classes) :
  takes_fallback_path st ->
  select st = Ok (Grey (165, 165, 165)) \/ select st = Ok NoResult.
Proof.
  unfold takes_fallback_path. intros ->. destruct (greys st) as [|g gs] eqn:Hg; [auto|].
  left. rewrite grey_color_constant by discriminate. reflexivity.
Qed.

Lemma prime_value (st : classes) (sc : scan) :
  takes_prime_path st sc ->
  (exists c, select st = Ok (Prime c)) \/ (exists e, select st = Raise e).
Proof.
  intros (b & _ & ->). destruct (prime_color b) as [c|e]; cbn [bind]; eauto.
Qed.

Lemma paths_exclusive (st : classes) (sc : scan) :
  takes_prime_path st sc -> takes_fallback_path st -> False.
Proof.
  intros Hp Hf. apply prime_value in Hp. apply fallback_value in Hf.
  destruct Hp as [[c Hc] | [e He]]; destruct Hf as [Hf | Hf]; congruence.
Qed.

Lemma dominant_accepted_iff (sc : scan) (total : Z) :
  dominant_accepted sc total = true
  <-> best_bucket sc <> -1
      /\ int_gt_float (total_colored_pixels sc) (coverage_threshold total) = true.
Proof.
  unfold dominant_accepted, coverage_threshold.
  rewrite andb_true_iff, negb_true_iff, Z.eqb_neq. reflexivity.
Qed.

(** C1. For every output of the classifier (36 buckets, a grey pool and
    [total_opaque]) the strength scan ends, and the selector takes the
    dominant-hue path if and only if a best bucket exists and
    [total_colored > total_opaque * 0.15], under the strict comparison, where
    [total_colored] is the number of members of all the buckets; otherwise it
    takes the grey or no-result path.  In particular a [total_colored] that
    equals the threshold exactly is not accepted; and for up to 4096 sampled
    pixels the comparison with the float threshold is the exact comparison
    [total_colored * 20 > total_opaque * 3]. *)
Theorem C1_dominant_hue_decision (st : classes) :
  List.length (buckets st) = 36%nat ->
  exists sc, find_strongest (buckets st) = Ok sc
    /\ total_colored_pixels sc = PyList.len (List.concat (buckets st))
    /\ (takes_prime_path st sc
        <-> best_bucket sc <> -1
            /\ int_gt_float (total_colored_pixels sc)
                 (coverage_threshold (total_non_transparent st)) = true)
    /\ (takes_fallback_path st
        <-> ~ (best_bucket sc <> -1
               /\ int_gt_float (total_colored_pixels sc)
                    (coverage_threshold (total_non_transparent st)) = true))
    /\ (scaled (Prim2SF (coverage_threshold (total_non_transparent st)))
          = total_colored_pixels sc * scale -> takes_fallback_path st)
    /\ (0 <= total_non_transparent st <= 4096 ->
        (int_gt_float (total_colored_pixels sc)
           (coverage_threshold (total_non_transparent st)) = true
         <-> 3 * total_non_transparent st < 20 * total_colored_pixels sc)).
Proof.
  intros Hlen.
  destruct (find_strongest_counted (buckets st) Hlen) as (sc & Hsc & Hbest & Hcount).
  exists sc. split; [exact Hsc|]. split; [exact Hcount|].
  assert (Hprime : dominant_accepted sc (total_non_transparent st) = true ->
                   takes_prime_path st sc).
  { intros Hacc. pose proof (proj1 (dominant_accepted_iff _ _) Hacc) as [Hb _].
    destruct (get_in_range (buckets st) (best_bucket sc) ltac:(lia)) as [b Hget].
    exists b. split; [exact Hget|].
    rewrite (select_accepted st sc Hsc Hacc), Hget. reflexivity. }
  assert (Hfall : dominant_accepted sc (total_non_transparent st) = false ->
                  takes_fallback_path st).
  { intros Hacc. exact (select_not_accepted st sc Hsc Hacc). }
  rewrite <- dominant_accepted_iff.
  split; [|split; [|split]].
  - split; [|exact Hprime]. intros Hp.
    destruct (dominant_accepted sc (total_non_transparent st)) eqn:Hacc; [reflexivity|].
    exfalso. exact (paths_exclusive st sc Hp (Hfall eq_refl)).
  - split.
    + intros Hf Hacc. exact (paths_exclusive st sc (Hprime Hacc) Hf).
    + intros Hn. apply Hfall. apply not_true_is_false. exact Hn.
  - intros Heq. apply Hfall. unfold dominant_accepted.
    fold (coverage_threshold (total_non_transparent st)).
    rewrite (coverage_test_boundary _ _ Heq). apply andb_false_r.
  - apply coverage_test_exact.
Qed.

(** The classes of one opaque red pixel: the dominant-hue path is taken. *)
Lemma C1_dominant_hue_decision_witness :
  exists sc, find_strongest (buckets (red_classes 1)) = Ok sc
    /\ total_colored_pixels sc = PyList.len (List.concat (buckets (red_classes 1)))
    /\ (takes_prime_path (red_classes 1) sc
        <-> best_bucket sc <> -1
            /\ int_gt_float (total_colored_pixels sc)
                 (coverage_threshold (total_non_transparent (red_classes 1))) = true)
    /\ (takes_fallback_path (red_classes 1)
        <-> ~ (best_bucket sc <> -1
               /\ int_gt_float (total_colored_pixels sc)
                    (coverage_threshold (total_non_transparent (red_classes 1))) = true))
    /\ (scaled (Prim2SF (coverage_threshold (total_non_transparent (red_classes 1))))
          = total_colored_pixels sc * scale -> takes_fallback_path (red_classes 1))
    /\ (0 <= total_non_transparent (red_classes 1) <= 4096 ->
        (int_gt_float (total_colored_pixels sc)
           (coverage_threshold (total_non_transparent (red_classes 1))) = true
         <-> 3 * total_non_transparent (red_classes 1) < 20 * total_colored_pixels sc)).
Proof.
  apply (C1_dominant_hue_decision (red_classes 1)). reflexivity.
Defined.

(** At the boundary, 3 coloured pixels of 20 sampled ones (exactly 15%) are
    not accepted; 4 of 20 are. *)
Lemma coverage_boundary_20 :
  int_gt_float 3 (coverage_threshold 20) = false
  /\ int_gt_float 4 (coverage_threshold 20) = true
  /\ scaled (Prim2SF (coverage_threshold 20)) = 3 * scale.
Proof. repeat split; vm_compute; reflexivity. Qed.

(** C3 (as amended). For every input on which the selector takes the grey
    fallback (no dominant hue accepted, a non-empty grey pool) the result is
    the flat grey R = G = B = int(0.65 * 255) = 165, the product truncated,
    which is formatted as #a5a5a5: the same value for every such input,
    whatever the members of the grey pool. *)
Theorem C3_grey_fallback_is_constant (st : classes) (sc : scan) :
  find_strongest (buckets st) = Ok sc ->
  dominant_accepted sc (total_non_transparent st) = false ->
  greys st <> [] ->
  select st = Ok (Grey (165, 165, 165))
  /\ int_of_float (0.65 * float_of_int 255) = Ok 165
  /\ hex_color (165, 165, 165) = "#a5a5a5"%string.
Proof.
  intros Hsc Hacc Hg. split; [|split; reflexivity].
  rewrite (select_not_accepted st sc Hsc Hacc).
  destruct (greys st) as [|g gs] eqn:E; [congruence|].
  rewrite grey_color_constant by discriminate. reflexivity.
Qed.

Lemma C3_grey_fallback_is_constant_witness :
  exists sc, find_strongest (buckets grey_classes) = Ok sc
    /\ classify [grey_pixel] = Ok grey_classes
    /\ select grey_classes = Ok (Grey (165, 165, 165))
    /\ int_of_float (0.65 * float_of_int 255) = Ok 165
    /\ hex_color (165, 165, 165) = "#a5a5a5"%string.
Proof.
  eexists. split; [vm_compute; reflexivity|]. split; [vm_compute; reflexivity|].
  eapply (C3_grey_fallback_is_constant grey_classes).
  - vm_compute; reflexivity.
  - vm_compute; reflexivity.
  - discriminate.
Defined.

(** C3, the claim as stated, fails on the icon of its own scenario: all the
    4096 pixels opaque and of RGB (128, 128, 128).  The grey fallback
    returns 165, not 166, and [main] records #a5a5a5, not #a6a6a6. *)
Lemma C3_counterexample_grey_is_165 :
  calculate_average_color (flat_icon grey_pixel) = Ok (Some (165, 165, 165), 4096)
  /\ (165, 165, 165) <> (166, 166, 166)
  /\ (exists w, main (Some (flat_sheet (Byte.x80, Byte.x80, Byte.x80, Byte.xff)))
                     [item_at "gear" 0] = Ok (Some w)
                /\ colors w = [("gear", "#a5a5a5")]%string)
  /\ "#a5a5a5"%string <> "#a6a6a6"%string.
Proof.
  split; [vm_compute; reflexivity|]. split; [discriminate|].
  split; [|discriminate]. eexists. split; vm_compute; reflexivity.
Qed.

(** *** The prime colour *)

Lemma prime_color_described (b_pixels : list colored) :
  prime_color b_pixels = described_prime_color int_of_float b_pixels.
Proof.
  unfold prime_color, described_prime_color, mean_rgb, channel_mean, PyList.len.
  rewrite !length_map.
  destruct (int_truediv (int_sum (map (fun p => chan (c_r p)) b_pixels)) _) as [mr|e];
    cbn [bind]; [|reflexivity].
  destruct (int_truediv (int_sum (map (fun p => chan (c_g p)) b_pixels)) _) as [mg|e];
    cbn [bind]; [|reflexivity].
  destruct (int_truediv (int_sum (map (fun p => chan (c_b p)) b_pixels)) _) as [mb|e];
    cbn [bind]; [|reflexivity].
  change (float_of_int 255) with 255%float.
  unfold float_div. change (255 =? 0)%float with false. cbn [bind].
  destruct (rgb_to_hls (mr / 255) (mg / 255) (mb / 255)) as [[[h l] s]|e];
    cbn [bind boost]; [|reflexivity].
  unfold min_one. reflexivity.
Qed.

(** ** The prime colour lies in the RGB cube

    A correctly rounded result never crosses a float that bounds the exact
    value.  With it the channels that [hls_to_rgb] returns at lightness
    0.55 are enclosed, the saturation range cut in 1024 pieces, and each
    channel times 255 stays below 256. *)

(** *** The two stages of [binary_round_aux] *)

Lemma shr_1_inexact (r : shr_record) :
  0 <= shr_m r ->
  inexact (shr_1 r) = true -> inexact r = true \/ ~ (2 | shr_m r).
Proof.
  destruct r as [m b s]; unfold inexact; cbn [shr_m shr_r shr_s]; intros Hm.
  destruct m as [|p|p]; [| |lia].
  - cbn. destruct b, s; auto.
  - destruct p as [p|p|]; cbn [shr_1 shr_r shr_s].
    + intros _. right. intros [k Hk]. lia.
    + intros H. left. destruct b, s; auto.
    + intros _. right. intros [k Hk]. lia.
Qed.

Lemma divide_pow2_div (m a b : Z) :
  0 <= a -> 0 <= b -> (2 ^ (a + b) | m) -> (2 ^ b | m / 2 ^ a).
Proof.
  intros Ha Hb [k Hk]. exists k.
  assert (0 < 2 ^ a) by (apply Z.pow_pos_nonneg; lia).
  rewrite Hk, Z.pow_add_r by lia.
  replace (k * (2 ^ a * 2 ^ b)) with (k * 2 ^ b * 2 ^ a) by ring.
  apply Z.div_mul. lia.
Qed.

Lemma divide_pow2_le (m a b : Z) :
  0 <= a <= b -> (2 ^ b | m) -> (2 ^ a | m).
Proof.
  intros Hab Hd. apply Z.divide_trans with (2 ^ b); [|exact Hd].
  exists (2 ^ (b - a)). rewrite <- Z.pow_add_r by lia. f_equal. lia.
Qed.

Lemma iter_shr_1_inexact (p : positive) :
  forall r, 0 <= shr_m r ->
  inexact (iter_pos shr_1 p r) = true ->
  inexact r = true \/ ~ (2 ^ Zpos p | shr_m r).
Proof.
  assert (Hstep : forall r, 0 <= shr_m r -> 0 <= shr_m (shr_1 r)).
  { intros r Hr. rewrite shr_1_m by assumption. apply Z.div_pos; lia. }
  assert (Hiter : forall q r, 0 <= shr_m r -> 0 <= shr_m (iter_pos shr_1 q r)).
  { intros q r Hr. rewrite iter_shr_1_m by assumption.
    apply Z.div_pos; [lia | apply Z.pow_pos_nonneg; lia]. }
  induction p as [p IH|p IH|]; intros r Hr H; cbn [iter_pos] in H.
  - (* 2p+1 steps: one, then p, then p *)
    pose proof (Hstep r Hr) as H1.
    pose proof (Hiter p (shr_1 r) H1) as H2.
    destruct (IH _ H2 H) as [Ha | Ha].
    + destruct (IH _ H1 Ha) as [Hb | Hb].
      * destruct (shr_1_inexact r Hr Hb) as [Hc | Hc]; [left; exact Hc|].
        right. intros Hd. apply Hc. change 2 with (2 ^ 1) at 1.
        apply (divide_pow2_le _ 1 (Zpos p~1)); [lia | exact Hd].
      * right. intros Hd. apply Hb. rewrite shr_1_m by assumption.
        change 2 with (2 ^ 1) at 2. apply divide_pow2_div; try lia.
        apply (divide_pow2_le _ (1 + Zpos p) (Zpos p~1)); [lia | exact Hd].
    + right. intros Hd. apply Ha. rewrite iter_shr_1_m, shr_1_m by assumption.
      apply divide_pow2_div; try lia. change 2 with (2 ^ 1) at 2.
      apply divide_pow2_div; try lia.
      replace (1 + (Zpos p + Zpos p)) with (Zpos p~1) by lia. exact Hd.
  - pose proof (Hiter p r Hr) as H1.
    destruct (IH _ H1 H) as [Ha | Ha].
    + destruct (IH _ Hr Ha) as [Hb | Hb]; [left; exact Hb|].
      right. intros Hd. apply Hb.
      apply (divide_pow2_le _ (Zpos p) (Zpos p~0)); [lia | exact Hd].
    + right. intros Hd. apply Ha. rewrite iter_shr_1_m by assumption.
      apply divide_pow2_div; try lia.
      replace (Zpos p + Zpos p) with (Zpos p~0) by lia. exact Hd.
  - destruct (shr_1_inexact r Hr H) as [Hc | Hc]; [left; exact Hc|].
    right. exact Hc.
Qed.

Lemma round_nearest_even_exact (r : shr_record) :
  inexact r = false -> round_nearest_even (shr_m r) (loc_of_shr_record r) = shr_m r.
Proof.
  destruct r as [m b s]. unfold inexact. cbn [shr_m shr_r shr_s loc_of_shr_record].
  destruct b, s; cbn; congruence.
Qed.

Lemma binary_round_aux_finish (s : bool) (m e : Z) (l : location) :
  binary_round_aux prec emax s m e l
  = let '(mrs, e1) := shr_fexp prec emax m e l in
    finish s (round_nearest_even (shr_m mrs) (loc_of_shr_record mrs)) e1.
Proof. reflexivity. Qed.

Lemma finish_spec (s : bool) (m1 e1 : Z) :
  0 <= m1 <= 2 ^ 53 -> -1074 <= e1 -> (-1074 < e1 -> 2 ^ 52 <= m1) ->
  match finish s m1 e1 with
  | S754_zero s' => s' = s /\ m1 = 0
  | S754_finite s' m' e' =>
      s' = s /\ bounded prec emax m' e' = true
      /\ Zpos m' * 2 ^ (e' + 1074) = m1 * 2 ^ (e1 + 1074)
  | S754_infinity s' => s' = s /\ 2 ^ (1024 + 1074) <= m1 * 2 ^ (e1 + 1074)
  | S754_nan => False
  end.
Proof.
  intros Hm He Hn. unfold finish, shr_fexp. rewrite fexp64.
  destruct m1 as [|p|p]; [| |lia].
  - cbn [Zdigits2]. rewrite shr_none by lia. cbn. auto.
  - rewrite Zdigits2_pos.
    pose proof (digits2_upper p) as Hu. pose proof (digits2_lower p) as Hl.
    set (d := Zpos (digits2_pos p)) in *.
    assert (Hd0 : 0 < d) by (subst d; lia).
    assert (Hd54 : d <= 54).
    { destruct (Z.leb_spec d 54); [assumption|].
      assert (2 ^ 54 <= 2 ^ (d - 1)) by (apply Z.pow_le_mono_r; lia).
      change (2 ^ 54) with (2 * 2 ^ 53) in *. lia. }
    assert (Hpe : 0 < 2 ^ (e1 + 1074)) by (apply Z.pow_pos_nonneg; lia).
    destruct (Z.eq_dec (Zpos p) (2 ^ 53)) as [Heq | Hne].
    + (* a carry: one more shift *)
      assert (d = 54).
      { apply (digits2_unique p 54). rewrite Heq. change (54 - 1) with 53. split; [lia|].
        apply Z.pow_lt_mono_r; lia. }
      replace (Z.max (d + e1 - 53) (-1074) - e1) with 1 by lia.
      destruct (shr_spec (shr_record_of_loc (Zpos p) loc_Exact) e1 1) as [H1 H2];
        [cbn; lia | lia |].
      destruct (shr (shr_record_of_loc (Zpos p) loc_Exact) e1 1) as [r2 e2].
      cbn [fst snd] in H1, H2. cbn [shr_record_of_loc shr_m] in H1. subst e2.
      rewrite Heq in H1. change (2 ^ 53 / 2 ^ 1) with (2 ^ 52) in H1. rewrite H1.
      change (2 ^ 52) with (Zpos (Pos.pow 2 52)).
      assert (Hval : Zpos (Pos.pow 2 52) * 2 ^ (e1 + 1 + 1074) = Zpos p * 2 ^ (e1 + 1074)).
      { rewrite Heq. replace (e1 + 1 + 1074) with (1 + (e1 + 1074)) by lia.
        rewrite Z.pow_add_r by lia. change (Zpos (Pos.pow 2 52)) with (2 ^ 52).
        change (2 ^ 53) with (2 ^ 52 * 2 ^ 1). ring. }
      destruct (Z.leb_spec (e1 + 1) (emax - prec)) as [Hle | Hgt].
      * unfold emax, prec in Hle. split; [reflexivity|]. split; [|exact Hval].
        apply bounded_intro; [lia| |]; intros; vm_compute; congruence.
      * unfold emax, prec in Hgt. split; [reflexivity|].
        rewrite Heq, <- Z.pow_add_r by lia. apply Z.pow_le_mono_r; lia.
    + assert (Hp53 : Zpos p < 2 ^ 53) by lia.
      assert (Hd : d <= 53).
      { destruct (Z.leb_spec d 53); [assumption|].
        assert (2 ^ 53 <= 2 ^ (d - 1)) by (apply Z.pow_le_mono_r; lia). lia. }
      assert (Hn0 : Z.max (d + e1 - 53) (-1074) - e1 <= 0).
      { destruct (Z.eq_dec e1 (-1074)); [lia|].
        assert (2 ^ 52 <= Zpos p) by (apply Hn; lia). lia. }
      rewrite shr_none by assumption. cbn [shr_record_of_loc shr_m].
      destruct (Z.leb_spec e1 (emax - prec)) as [Hle | Hgt].
      * unfold emax, prec in Hle. split; [reflexivity|]. split; [|reflexivity].
        apply bounded_intro; [lia | assumption | assumption].
      * unfold emax, prec in Hgt. split; [reflexivity|].
        assert (2 ^ 52 <= Zpos p) by (apply Hn; lia).
        apply Z.le_trans with (2 ^ 52 * 2 ^ (e1 + 1074)); [|nia].
        rewrite <- Z.pow_add_r by lia. apply Z.pow_le_mono_r; lia.
Qed.

Lemma inexact_of_loc (m : Z) (l : location) :
  inexact (shr_record_of_loc m l) = true -> l <> loc_Exact.
Proof. destruct l as [|[ | | ]]; cbn; congruence. Qed.

(** The first stage of [binary_round_aux]: the mantissa is cut to the
    exponent of its binade. *)
Lemma shr_fexp_spec (m e : Z) (l : location) :
  0 <= m -> e <= fexp prec emax (Zdigits2 m + e) ->
  let e1 := fexp prec emax (Zdigits2 m + e) in
  let r := fst (shr_fexp prec emax m e l) in
  snd (shr_fexp prec emax m e l) = e1
  /\ shr_m r = m / 2 ^ (e1 - e)
  /\ -1074 <= e1
  /\ shr_m r < 2 ^ 53
  /\ (-1074 < e1 -> 2 ^ 52 <= shr_m r)
  /\ (inexact r = true -> l <> loc_Exact \/ ~ (2 ^ (e1 - e) | m)).
Proof.
  intros Hm Hn. cbv zeta. unfold shr_fexp. rewrite fexp64 in *.
  set (d := Zdigits2 m) in *.
  assert (Hdig : m = 0 /\ d = 0 \/ 0 < m /\ 0 < d /\ 2 ^ (d - 1) <= m < 2 ^ d).
  { destruct m as [|p|p]; [left; split; reflexivity | right | lia].
    subst d. rewrite Zdigits2_pos.
    pose proof (digits2_upper p). pose proof (digits2_lower p). lia. }
  set (e1 := Z.max (d + e - 53) (-1074)) in *.
  destruct (Z.eq_dec e1 e) as [Heq | Hne].
  - (* no shift *)
    rewrite shr_none by lia. cbn [fst snd]. rewrite shr_m_of_loc.
    replace (e1 - e) with 0 by lia. rewrite Z.pow_0_r, Z.div_1_r.
    split; [lia|]. split; [reflexivity|]. split; [lia|].
    destruct Hdig as [[-> ->] | (Hm0 & Hd0 & Hlo & Hhi)].
    + split; [lia|]. split; [lia|]. intros H. left. exact (inexact_of_loc _ _ H).
    + assert (Hd53 : d <= 53) by lia.
      split; [assert (2 ^ d <= 2 ^ 53) by (apply Z.pow_le_mono_r; lia); lia|].
      split.
      * intros Hgt. assert (Hd : d = 53) by lia. replace 52 with (d - 1) by lia. exact Hlo.
      * intros Hx. left. exact (inexact_of_loc _ _ Hx).
  - assert (Hn1 : 0 < e1 - e) by lia.
    destruct (shr_spec (shr_record_of_loc m l) e (e1 - e)) as [H1 H2];
      [rewrite shr_m_of_loc; lia | lia |].
    rewrite shr_m_of_loc in H1.
    assert (Hinex : inexact (fst (shr (shr_record_of_loc m l) e (e1 - e))) = true ->
                    l <> loc_Exact \/ ~ (2 ^ (e1 - e) | m)).
    { destruct (e1 - e) as [|p|p] eqn:En; try lia. cbn [shr fst]. intros H.
      destruct (iter_shr_1_inexact p (shr_record_of_loc m l)) as [Hi | Hi];
        [rewrite shr_m_of_loc; lia | exact H | |].
      - left. exact (inexact_of_loc _ _ Hi).
      - right. rewrite shr_m_of_loc in Hi. exact Hi. }
    rewrite H1, H2. split; [lia|]. split; [reflexivity|]. split; [lia|].
    assert (Hpn : 0 < 2 ^ (e1 - e)) by (apply Z.pow_pos_nonneg; lia).
    destruct Hdig as [[-> ->] | (Hm0 & Hd0 & Hlo & Hhi)].
    + rewrite Z.div_0_l by lia. split; [lia|]. split; [lia | exact Hinex].
    + split; [|split; [|exact Hinex]].
      * apply Z.div_lt_upper_bound; [lia|].
        apply Z.lt_le_trans with (2 ^ d); [lia|].
        rewrite <- Z.pow_add_r by lia. apply Z.pow_le_mono_r; lia.
      * intros Hgt. assert (e1 = d + e - 53) by lia.
        apply Z.div_le_lower_bound; [lia|].
        rewrite <- Z.pow_add_r by lia. replace (e1 - e + 52) with (d - 1) by lia. exact Hlo.
Qed.

(** [binary_round_aux] rounds to the lower or the upper neighbour on the
    grid of its binade, and to the upper one only when the value is not on
    the grid. *)
Lemma binary_round_aux_spec (s : bool) (m e : Z) (l : location) :
  0 <= m -> e <= fexp prec emax (Zdigits2 m + e) ->
  let e1 := fexp prec emax (Zdigits2 m + e) in
  let q := m / 2 ^ (e1 - e) in
  exists m1,
    binary_round_aux prec emax s m e l = finish s m1 e1
    /\ q <= m1 <= q + 1
    /\ (m1 = q + 1 -> l <> loc_Exact \/ ~ (2 ^ (e1 - e) | m))
    /\ -1074 <= e1 /\ m1 <= 2 ^ 53 /\ (-1074 < e1 -> 2 ^ 52 <= m1)
    /\ 0 <= q /\ (-1074 < e1 -> 2 ^ 52 <= q) /\ e <= e1.
Proof.
  intros Hm Hn. cbv zeta.
  pose proof (shr_fexp_spec m e l Hm Hn) as H. cbv zeta in H.
  rewrite binary_round_aux_finish.
  destruct (shr_fexp prec emax m e l) as [r e1]. cbn [fst snd] in H.
  destruct H as (He1 & Hq & Hemin & H53 & H52 & Hinex). subst e1.
  exists (round_nearest_even (shr_m r) (loc_of_shr_record r)).
  pose proof (round_nearest_even_bounds r) as Hb.
  assert (Hq0 : 0 <= shr_m r).
  { rewrite Hq. apply Z.div_pos; [lia|]. apply Z.pow_pos_nonneg.
    - lia.
    - rewrite fexp64 in *. lia. }
  rewrite <- Hq. split; [reflexivity|]. split; [exact Hb|].
  split; [|split; [exact Hemin | split; [lia | split; [intros; specialize (H52 ltac:(assumption)); lia | split; [exact Hq0 | split; [exact H52 | exact Hn]]]]]].
  intros Hup. apply Hinex.
  destruct (inexact r) eqn:Hi; [reflexivity|].
  rewrite (round_nearest_even_exact r Hi) in Hup. lia.
Qed.

Lemma float_mag_grid (a q e1 : Z) :
  float_mag a -> 0 <= q -> -1074 <= e1 -> (-1074 < e1 -> 2 ^ 52 <= q) ->
  (a < (q + 1) * 2 ^ (e1 + 1074) -> a <= q * 2 ^ (e1 + 1074))
  /\ (q * 2 ^ (e1 + 1074) < a -> (q + 1) * 2 ^ (e1 + 1074) <= a).
Proof.
  intros (m & e & Hm & He & ->) Hq He1 H52.
  assert (Hp1 : 0 < 2 ^ (e1 + 1074)) by (apply Z.pow_pos_nonneg; lia).
  destruct (Z.leb_spec e1 e) as [Hle | Hgt].
  - (* a is on the grid *)
    assert (Hk : 2 ^ (e + 1074) = 2 ^ (e - e1) * 2 ^ (e1 + 1074)).
    { rewrite <- Z.pow_add_r by lia. f_equal. lia. }
    rewrite Hk. assert (0 < 2 ^ (e - e1)) by (apply Z.pow_pos_nonneg; lia).
    rewrite Z.mul_assoc. set (k := m * 2 ^ (e - e1)).
    split; intros H'.
    + apply Z.mul_lt_mono_pos_r in H'; [|exact Hp1].
      apply Z.mul_le_mono_nonneg_r; lia.
    + apply Z.mul_lt_mono_pos_r in H'; [|exact Hp1].
      apply Z.mul_le_mono_nonneg_r; lia.
  - (* a is below the binade of the grid *)
    assert (Hq52 : 2 ^ 52 <= q) by (apply H52; lia).
    assert (Hlt : m * 2 ^ (e + 1074) < q * 2 ^ (e1 + 1074)).
    { assert (H : 2 ^ (e + 1 + 1074) <= 2 ^ (e1 + 1074)) by (apply Z.pow_le_mono_r; lia).
      replace (e + 1 + 1074) with (1 + (e + 1074)) in H by lia.
      rewrite Z.pow_add_r in H by lia. change (2 ^ 1) with 2 in H.
      assert (0 < 2 ^ (e + 1074)) by (apply Z.pow_pos_nonneg; lia).
      apply Z.lt_le_trans with (2 ^ 53 * 2 ^ (e + 1074)).
      { apply Z.mul_lt_mono_pos_r; lia. }
      apply Z.le_trans with (2 ^ 52 * 2 ^ (e1 + 1074)).
      { change (2 ^ 53) with (2 ^ 52 * 2). rewrite <- Z.mul_assoc.
        apply Z.mul_le_mono_nonneg_l; lia. }
      apply Z.mul_le_mono_nonneg_r; lia. }
    split; intros H'; lia.
Qed.

Lemma float_mag_bounds (a : Z) : float_mag a -> 0 <= a < 2 ^ (1024 + 1074).
Proof.
  intros (m & e & Hm & He & ->).
  assert (0 < 2 ^ (e + 1074)) by (apply Z.pow_pos_nonneg; lia).
  split; [apply Z.mul_nonneg_nonneg; lia|].
  apply Z.lt_le_trans with (2 ^ 53 * 2 ^ (e + 1074)); [apply Z.mul_lt_mono_pos_r; lia|].
  rewrite <- Z.pow_add_r by lia. apply Z.pow_le_mono_r; lia.
Qed.

(** The sign of the rounded value. *)
Lemma round_sign (s : bool) (m e : Z) (l : location) :
  0 <= m -> e <= fexp prec emax (Zdigits2 m + e) ->
  match binary_round_aux prec emax s m e l with
  | S754_zero s' | S754_infinity s' | S754_finite s' _ _ => s' = s
  | S754_nan => False
  end
  /\ valid_binary (binary_round_aux prec emax s m e l) = true.
Proof.
  intros Hm Hn.
  destruct (binary_round_aux_spec s m e l Hm Hn)
    as (m1 & Hr & Hq & _ & He1 & Hm1 & H52 & Hq0 & _). cbv zeta in *.
  pose proof (finish_spec s m1 _ ltac:(lia) He1 H52) as Hf.
  rewrite Hr. destruct (finish s m1 _) as [s'|s'| |s' m' e']; cbn [valid_binary]; tauto.
Qed.

Section Rounding.

Variables (s : bool) (m e : Z) (l : location) (N D K : Z).
Hypothesis Hm : 0 <= m.
Hypothesis Hn : e <= fexp prec emax (Zdigits2 m + e).
Hypothesis HD : 0 < D.
Hypothesis HK : 0 <= K.
Hypothesis HeK : 0 <= e + 1074 + K.
(** The exact value is [N / D] in units of [2^-(1074+K)]; it lies in the
    cell of [m], and not at its lower end when the location is inexact. *)
Hypothesis Hlo : m * 2 ^ (e + 1074 + K) * D <= N.
Hypothesis Hhi : N < (m + 1) * 2 ^ (e + 1074 + K) * D.
Hypothesis Hinex : l <> loc_Exact -> m * 2 ^ (e + 1074 + K) * D < N.

Lemma round_cell :
  exists q m1 e1,
    binary_round_aux prec emax s m e l = finish s m1 e1
    /\ q <= m1 <= q + 1 /\ 0 <= q
    /\ -1074 <= e1 /\ m1 <= 2 ^ 53 /\ (-1074 < e1 -> 2 ^ 52 <= m1)
    /\ (-1074 < e1 -> 2 ^ 52 <= q)
    /\ q * 2 ^ (e1 + 1074) * (2 ^ K * D) <= N
    /\ N < (q + 1) * 2 ^ (e1 + 1074) * (2 ^ K * D)
    /\ (m1 = q + 1 -> q * 2 ^ (e1 + 1074) * (2 ^ K * D) < N).
Proof.
  destruct (binary_round_aux_spec s m e l Hm Hn)
    as (m1 & Hr & Hq & Hup & He1 & Hm1 & H52 & Hq0 & Hq52 & Hee). cbv zeta in *.
  set (e1 := fexp prec emax (Zdigits2 m + e)) in *.
  set (q := m / 2 ^ (e1 - e)) in *.
  exists q, m1, e1.
  assert (Hpn : 0 < 2 ^ (e1 - e)) by (apply Z.pow_pos_nonneg; lia).
  assert (HpK : 0 < 2 ^ K) by (apply Z.pow_pos_nonneg; lia).
  assert (HpW : 0 < 2 ^ (e + 1074 + K)) by (apply Z.pow_pos_nonneg; lia).
  assert (Hsplit : 2 ^ (e1 + 1074) * 2 ^ K = 2 ^ (e1 - e) * 2 ^ (e + 1074 + K)).
  { rewrite <- !Z.pow_add_r by lia. f_equal. lia. }
  pose proof (Z.div_mod m (2 ^ (e1 - e)) ltac:(lia)) as Hdm.
  pose proof (Z.mod_pos_bound m (2 ^ (e1 - e)) Hpn) as Hmb.
  fold q in Hdm.
  assert (Hcell : q * 2 ^ (e1 + 1074) * (2 ^ K * D)
                  = q * 2 ^ (e1 - e) * (2 ^ (e + 1074 + K) * D)).
  { replace (q * 2 ^ (e1 + 1074) * (2 ^ K * D))
      with (q * (2 ^ (e1 + 1074) * 2 ^ K) * D) by ring.
    rewrite Hsplit. ring. }
  assert (Hcell1 : (q + 1) * 2 ^ (e1 + 1074) * (2 ^ K * D)
                  = (q + 1) * 2 ^ (e1 - e) * (2 ^ (e + 1074 + K) * D)).
  { replace ((q + 1) * 2 ^ (e1 + 1074) * (2 ^ K * D))
      with ((q + 1) * (2 ^ (e1 + 1074) * 2 ^ K) * D) by ring.
    rewrite Hsplit. ring. }
  assert (HWD : 0 < 2 ^ (e + 1074 + K) * D) by (apply Z.mul_pos_pos; lia).
  rewrite <- Z.mul_assoc in Hlo, Hhi, Hinex.
  set (W := 2 ^ (e + 1074 + K) * D) in *.
  set (P := 2 ^ (e1 - e)) in *.
  split; [exact Hr|]. split; [exact Hq|]. split; [exact Hq0|].
  split; [exact He1|]. split; [exact Hm1|]. split; [exact H52|]. split; [exact Hq52|].
  split; [|split].
  - rewrite Hcell. apply Z.le_trans with (m * W); [|exact Hlo].
    apply Z.mul_le_mono_nonneg_r; lia.
  - rewrite Hcell1. apply Z.lt_le_trans with ((m + 1) * W); [exact Hhi|].
    apply Z.mul_le_mono_nonneg_r; lia.
  - intros Hm1q. rewrite Hcell. destruct (Hup Hm1q) as [Hl | Hnd].
    + apply Z.le_lt_trans with (m * W); [|exact (Hinex Hl)].
      apply Z.mul_le_mono_nonneg_r; lia.
    + assert (Hrem : m mod P <> 0).
      { intros H0. apply Hnd. apply Z.mod_divide; [lia | exact H0]. }
      apply Z.lt_le_trans with (m * W); [|exact Hlo].
      apply Z.mul_lt_mono_pos_r; lia.
Qed.

(** A float below the exact value is not above the rounded one. *)
Lemma round_lower (a : Z) :
  float_mag a -> a * (2 ^ K * D) <= N ->
  a <= mag (binary_round_aux prec emax s m e l).
Proof.
  intros Ha HaN.
  destruct round_cell as (q & m1 & e1 & Hr & Hq & Hq0 & He1 & Hm1 & H52 & Hq52 & Hc1 & Hc2 & _).
  assert (HKD : 0 < 2 ^ K * D).
  { apply Z.mul_pos_pos; [apply Z.pow_pos_nonneg; lia | lia]. }
  assert (Hlt : a < (q + 1) * 2 ^ (e1 + 1074)).
  { apply (Z.mul_lt_mono_pos_r (2 ^ K * D)); [exact HKD | lia]. }
  destruct (float_mag_grid a q e1 Ha Hq0 He1 Hq52) as [G1 _]. specialize (G1 Hlt).
  pose proof (float_mag_bounds a Ha) as Hab.
  pose proof (finish_spec s m1 e1 ltac:(lia) He1 H52) as Hf.
  rewrite Hr.
  assert (Hp1 : 0 < 2 ^ (e1 + 1074)) by (apply Z.pow_pos_nonneg; lia).
  destruct (finish s m1 e1) as [s'|s'| |s' m' e']; try contradiction; cbn [mag].
  - destruct Hf as [_ Hz]. subst m1. assert (q = 0) by lia. subst q. lia.
  - assert (2 ^ (1024 + 1074) < 2 ^ 2200) by (apply Z.pow_lt_mono_r; lia). lia.
  - destruct Hf as (_ & B & Hv). rewrite Hv.
    apply Z.le_trans with (q * 2 ^ (e1 + 1074)); [exact G1|].
    apply Z.mul_le_mono_nonneg_r; lia.
Qed.

(** A float above the exact value is not below the rounded one, which is
    then finite. *)
Lemma round_upper (b : Z) :
  float_mag b -> N <= b * (2 ^ K * D) ->
  mag (binary_round_aux prec emax s m e l) <= b
  /\ finite_sf (binary_round_aux prec emax s m e l) = true.
Proof.
  intros Hb HbN.
  destruct round_cell as (q & m1 & e1 & Hr & Hq & Hq0 & He1 & Hm1 & H52 & Hq52 & Hc1 & Hc2 & Hc3).
  assert (HKD : 0 < 2 ^ K * D).
  { apply Z.mul_pos_pos; [apply Z.pow_pos_nonneg; lia | lia]. }
  destruct (float_mag_grid b q e1 Hb Hq0 He1 Hq52) as [_ G2].
  pose proof (float_mag_bounds b Hb) as Hbb.
  assert (Hp1 : 0 < 2 ^ (e1 + 1074)) by (apply Z.pow_pos_nonneg; lia).
  assert (Hm1b : m1 * 2 ^ (e1 + 1074) <= b).
  { destruct (Z.eq_dec m1 q) as [-> | Hne].
    { apply (Z.mul_le_mono_pos_r _ _ (2 ^ K * D)); [exact HKD | lia]. }
    assert (Hm1q : m1 = q + 1) by lia. specialize (Hc3 Hm1q).
    rewrite Hm1q. apply G2.
    apply (Z.mul_lt_mono_pos_r (2 ^ K * D)); [exact HKD | lia]. }
  pose proof (finish_spec s m1 e1 ltac:(lia) He1 H52) as Hf.
  rewrite Hr.
  destruct (finish s m1 e1) as [s'|s'| |s' m' e']; try contradiction; cbn [mag finite_sf].
  - split; [lia | reflexivity].
  - destruct Hf as [_ Hov]. lia.
  - destruct Hf as (_ & B & Hv). split; [lia | reflexivity].
Qed.

(** The rounded value lies between any two floats that enclose the exact
    one. *)
Lemma round_within (A B : Z) :
  float_mag (Z.abs A) -> float_mag (Z.abs B) ->
  A * (2 ^ K * D) <= cond_Zopp s N <= B * (2 ^ K * D) ->
  finite_sf (binary_round_aux prec emax s m e l) = true
  /\ A <= scaled (binary_round_aux prec emax s m e l) <= B
  /\ valid_binary (binary_round_aux prec emax s m e l) = true.
Proof.
  intros HA HB [HAN HNB].
  pose proof round_lower as Hlower. pose proof round_upper as Hupper.
  set (r := binary_round_aux prec emax s m e l) in *.
  assert (HKD : 0 < 2 ^ K * D).
  { apply Z.mul_pos_pos; [apply Z.pow_pos_nonneg; lia | lia]. }
  assert (HN : 0 <= N).
  { apply Z.le_trans with (m * 2 ^ (e + 1074 + K) * D); [|exact Hlo].
    apply Z.mul_nonneg_nonneg; [|lia]. apply Z.mul_nonneg_nonneg; [lia|].
    apply Z.pow_nonneg; lia. }
  destruct (round_sign s m e l Hm Hn) as [Hs Hv].
  assert (Hsc : scaled r = cond_Zopp s (mag r) /\ 0 <= mag r).
  { revert Hs. unfold r.
    destruct (binary_round_aux prec emax s m e l) as [s'|s'| |s' m' e']; intros Hs;
      try contradiction; subst s'; cbn [scaled mag]; (split; [destruct s; reflexivity|]);
      first [lia | apply Z.mul_nonneg_nonneg; [lia | apply Z.pow_nonneg; lia]]. }
  destruct Hsc as [Hsc Hmag]. rewrite Hsc.
  assert (Es : s = true \/ s = false) by (destruct s; auto).
  split; [|split; [|exact Hv]].
  - destruct Es as [Es | Es]; rewrite Es in HAN, HNB; cbn [cond_Zopp] in HAN, HNB.
    + assert (HA0 : A <= 0).
      { destruct (Z.leb_spec A 0); [assumption|].
        assert (0 < A * (2 ^ K * D)) by (apply Z.mul_pos_pos; lia). lia. }
      rewrite Z.abs_neq in HA by exact HA0.
      apply (Hupper (- A) HA). lia.
    + assert (HB0 : 0 <= B).
      { destruct (Z.leb_spec 0 B); [assumption|].
        assert (B * (2 ^ K * D) < 0) by (apply Z.mul_neg_pos; lia). lia. }
      rewrite Z.abs_eq in HB by exact HB0.
      apply (Hupper B HB). lia.
  - destruct Es as [Es | Es]; rewrite Es in HAN, HNB |- *; cbn [cond_Zopp] in HAN, HNB |- *.
    + assert (HA0 : A <= 0).
      { destruct (Z.leb_spec A 0); [assumption|].
        assert (0 < A * (2 ^ K * D)) by (apply Z.mul_pos_pos; lia). lia. }
      rewrite Z.abs_neq in HA by exact HA0.
      pose proof (proj1 (Hupper (- A) HA ltac:(lia))) as Hup.
      split; [lia|].
      destruct (Z.leb_spec 0 B) as [HB0 | HB0]; [lia|].
      rewrite Z.abs_neq in HB by lia.
      pose proof (Hlower (- B) HB ltac:(lia)). lia.
    + assert (HB0 : 0 <= B).
      { destruct (Z.leb_spec 0 B); [assumption|].
        assert (B * (2 ^ K * D) < 0) by (apply Z.mul_neg_pos; lia). lia. }
      rewrite Z.abs_eq in HB by exact HB0.
      pose proof (proj1 (Hupper B HB ltac:(lia))) as Hup.
      split; [|lia].
      destruct (Z.leb_spec A 0) as [HA0 | HA0]; [lia|].
      rewrite Z.abs_eq in HA by lia.
      pose proof (Hlower A HA ltac:(lia)). lia.
Qed.

End Rounding.

(** *** Rounding an exact value *)

Lemma binary_round_align (s : bool) (m : positive) (e : Z) :
  -1074 <= e ->
  exists mz ez,
    binary_round prec emax s m e = binary_round_aux prec emax s (Zpos mz) ez loc_Exact
    /\ -1074 <= ez
    /\ ez <= fexp prec emax (Zdigits2 (Zpos mz) + ez)
    /\ Zpos mz * 2 ^ (ez + 1074) = Zpos m * 2 ^ (e + 1074).
Proof.
  intros He. unfold binary_round, shl_align.
  pose proof (digits2_upper m) as Hu. pose proof (digits2_lower m) as Hl.
  rewrite !fexp64.
  set (d := Zpos (digits2_pos m)) in *.
  assert (Hd0 : 0 < d) by (subst d; lia).
  destruct (Z.max (d + e - 53) (-1074) - e) as [|k|k] eqn:Ek.
  - exists m, e. rewrite Zdigits2_pos, fexp64. fold d. repeat split; lia.
  - exists m, e. rewrite Zdigits2_pos, fexp64. fold d. repeat split; lia.
  - exists (Pos.iter xO m k), (Z.max (d + e - 53) (-1074)).
    assert (Hdk : Zpos (digits2_pos (Pos.iter xO m k)) = d + Zpos k).
    { apply digits2_unique. rewrite iter_xO.
      assert (0 < 2 ^ Zpos k) by (apply Z.pow_pos_nonneg; lia).
      replace (d + Zpos k - 1) with (d - 1 + Zpos k) by lia.
      rewrite !Z.pow_add_r by lia. split.
      - apply Z.mul_le_mono_nonneg_r; lia.
      - apply Z.mul_lt_mono_pos_r; lia. }
    rewrite Zdigits2_pos, Hdk, fexp64.
    split; [reflexivity|]. split; [lia|]. split; [lia|].
    rewrite iter_xO, <- Z.mul_assoc, <- Z.pow_add_r by lia. f_equal. f_equal. lia.
Qed.

Lemma binary_round_within (s : bool) (m : positive) (e A B : Z) :
  -1074 <= e ->
  float_mag (Z.abs A) -> float_mag (Z.abs B) ->
  A <= cond_Zopp s (Zpos m * 2 ^ (e + 1074)) <= B ->
  let r := binary_round prec emax s m e in
  finite_sf r = true /\ A <= scaled r <= B /\ valid_binary r = true.
Proof.
  intros He HA HB HAB.
  destruct (binary_round_align s m e He) as (mz & ez & -> & Hez & Hn & Hval).
  cbv zeta.
  assert (Hp : 0 < 2 ^ (ez + 1074)) by (apply Z.pow_pos_nonneg; lia).
  refine (round_within s (Zpos mz) ez loc_Exact (Zpos m * 2 ^ (e + 1074)) 1 0
            _ Hn _ _ _ _ _ _ A B HA HB _); try lia.
  - rewrite Z.add_0_r, Z.mul_1_r. lia.
  - rewrite Z.add_0_r, Z.mul_1_r. lia.
  - intros H. contradiction H. reflexivity.
Qed.

Lemma float_mag_zero : float_mag 0.
Proof. exists 0, 0. repeat split; lia. Qed.

Lemma normalize_within (n e : Z) (sz : bool) (A B : Z) :
  -1074 <= e ->
  float_mag (Z.abs A) -> float_mag (Z.abs B) ->
  A <= n * 2 ^ (e + 1074) <= B ->
  let r := binary_normalize prec emax n e sz in
  finite_sf r = true /\ A <= scaled r <= B /\ valid_binary r = true.
Proof.
  intros He HA HB HAB. destruct n as [|p|p]; cbn [binary_normalize]; cbv zeta.
  - cbn [finite_sf scaled valid_binary]. repeat split; lia.
  - apply binary_round_within; assumption.
  - apply binary_round_within; try assumption. cbn [cond_Zopp]. lia.
Qed.

(** *** Sums, differences and products *)

Lemma shl_align_value (m : positive) (e ez : Z) :
  -1074 <= ez <= e ->
  Zpos (fst (shl_align m e ez)) * 2 ^ (ez + 1074) = Zpos m * 2 ^ (e + 1074).
Proof.
  intros He. unfold shl_align. destruct (ez - e) as [|k|k] eqn:Ek; cbn [fst]; try lia.
  - replace e with ez by lia. reflexivity.
  - rewrite iter_xO, <- Z.mul_assoc, <- Z.pow_add_r by lia. f_equal. f_equal. lia.
Qed.

Lemma valid_finite_inv (s : bool) (m : positive) (e : Z) :
  valid_binary (S754_finite s m e) = true ->
  -1074 <= e <= 971 /\ Zpos m < 2 ^ 53 /\ (-1074 < e -> 2 ^ 52 <= Zpos m).
Proof. intros H. exact (bounded_inv m e H). Qed.

Lemma SFadd_within (x y : spec_float) (A B : Z) :
  valid_binary x = true -> valid_binary y = true ->
  finite_sf x = true -> finite_sf y = true ->
  float_mag (Z.abs A) -> float_mag (Z.abs B) ->
  A <= scaled x + scaled y <= B ->
  finite_sf (SFadd prec emax x y) = true
  /\ A <= scaled (SFadd prec emax x y) <= B
  /\ valid_binary (SFadd prec emax x y) = true.
Proof.
  intros Vx Vy Fx Fy HA HB HAB.
  destruct x as [sx|sx| |sx mx ex]; try discriminate;
  destruct y as [sy|sy| |sy my ey]; try discriminate.
  - destruct sx, sy; cbn in *; repeat split; lia.
  - cbn [SFadd]. cbn [scaled] in HAB. split; [reflexivity|]. split; [cbn [scaled]; lia | exact Vy].
  - cbn [SFadd]. cbn [scaled] in HAB. split; [reflexivity|]. split; [cbn [scaled]; lia | exact Vx].
  - destruct (valid_finite_inv _ _ _ Vx) as (Hex & _).
    destruct (valid_finite_inv _ _ _ Vy) as (Hey & _).
    cbn [SFadd]. apply normalize_within; try assumption; [lia|].
    cbn [scaled] in HAB.
    rewrite Z.mul_add_distr_r.
    replace (cond_Zopp sx (Zpos (fst (shl_align mx ex (Z.min ex ey)))) * 2 ^ (Z.min ex ey + 1074))
      with (cond_Zopp sx (Zpos mx * 2 ^ (ex + 1074))).
    2:{ rewrite <- (shl_align_value mx ex (Z.min ex ey)) by lia.
        destruct sx; cbn [cond_Zopp]; ring. }
    replace (cond_Zopp sy (Zpos (fst (shl_align my ey (Z.min ex ey)))) * 2 ^ (Z.min ex ey + 1074))
      with (cond_Zopp sy (Zpos my * 2 ^ (ey + 1074))).
    2:{ rewrite <- (shl_align_value my ey (Z.min ex ey)) by lia.
        destruct sy; cbn [cond_Zopp]; ring. }
    exact HAB.
Qed.

Lemma SFsub_within (x y : spec_float) (A B : Z) :
  valid_binary x = true -> valid_binary y = true ->
  finite_sf x = true -> finite_sf y = true ->
  float_mag (Z.abs A) -> float_mag (Z.abs B) ->
  A <= scaled x - scaled y <= B ->
  finite_sf (SFsub prec emax x y) = true
  /\ A <= scaled (SFsub prec emax x y) <= B
  /\ valid_binary (SFsub prec emax x y) = true.
Proof.
  intros Vx Vy Fx Fy HA HB HAB.
  destruct x as [sx|sx| |sx mx ex]; try discriminate;
  destruct y as [sy|sy| |sy my ey]; try discriminate.
  - destruct sx, sy; cbn in *; repeat split; lia.
  - cbn [SFsub]. cbn [scaled] in HAB. split; [reflexivity|].
    split; [cbn [scaled]; destruct sy; cbn [negb cond_Zopp] in *; lia | exact Vy].
  - cbn [SFsub]. cbn [scaled] in HAB. split; [reflexivity|]. split; [cbn [scaled]; lia | exact Vx].
  - destruct (valid_finite_inv _ _ _ Vx) as (Hex & _).
    destruct (valid_finite_inv _ _ _ Vy) as (Hey & _).
    cbn [SFsub]. apply normalize_within; try assumption; [lia|].
    cbn [scaled] in HAB.
    rewrite Z.mul_sub_distr_r.
    replace (cond_Zopp sx (Zpos (fst (shl_align mx ex (Z.min ex ey)))) * 2 ^ (Z.min ex ey + 1074))
      with (cond_Zopp sx (Zpos mx * 2 ^ (ex + 1074))).
    2:{ rewrite <- (shl_align_value mx ex (Z.min ex ey)) by lia.
        destruct sx; cbn [cond_Zopp]; ring. }
    replace (cond_Zopp sy (Zpos (fst (shl_align my ey (Z.min ex ey)))) * 2 ^ (Z.min ex ey + 1074))
      with (cond_Zopp sy (Zpos my * 2 ^ (ey + 1074))).
    2:{ rewrite <- (shl_align_value my ey (Z.min ex ey)) by lia.
        destruct sy; cbn [cond_Zopp]; ring. }
    exact HAB.
Qed.

Lemma digits2_ge_53 (p : positive) : 2 ^ 52 <= Zpos p -> 53 <= Zpos (digits2_pos p).
Proof.
  intros H. pose proof (digits2_upper p) as Hu.
  destruct (Z.leb_spec 53 (Zpos (digits2_pos p))); [assumption|].
  assert (2 ^ Zpos (digits2_pos p) <= 2 ^ 52) by (apply Z.pow_le_mono_r; lia). lia.
Qed.

Lemma product_exponent (mx my : positive) (ex ey : Z) :
  bounded prec emax mx ex = true -> bounded prec emax my ey = true ->
  ex + ey <= fexp prec emax (Zdigits2 (Zpos (mx * my)) + (ex + ey)).
Proof.
  intros Bx By.
  destruct (bounded_inv mx ex Bx) as (Hex & Hmx & Hnx).
  destruct (bounded_inv my ey By) as (Hey & Hmy & Hny).
  rewrite Zdigits2_pos, fexp64.
  destruct (Z.leb_spec (ex + ey) (-1074)) as [Hle | Hgt]; [lia|].
  assert (H52 : 2 ^ 52 <= Zpos (mx * my)).
  { rewrite Pos2Z.inj_mul.
    destruct (Z.eq_dec ex (-1074)) as [-> | Hne].
    - specialize (Hny ltac:(lia)).
      apply Z.le_trans with (1 * Zpos my); [lia|].
      apply Z.mul_le_mono_nonneg_r; lia.
    - specialize (Hnx ltac:(lia)).
      apply Z.le_trans with (Zpos mx * 1); [lia|].
      apply Z.mul_le_mono_nonneg_l; lia. }
  pose proof (digits2_ge_53 _ H52). lia.
Qed.

Lemma cond_Zopp_mul (sx sy : bool) (a b : Z) :
  cond_Zopp sx a * cond_Zopp sy b = cond_Zopp (xorb sx sy) (a * b).
Proof. destruct sx, sy; cbn [cond_Zopp xorb]; ring. Qed.

Lemma SFmul_within (x y : spec_float) (A B : Z) :
  valid_binary x = true -> valid_binary y = true ->
  finite_sf x = true -> finite_sf y = true ->
  float_mag (Z.abs A) -> float_mag (Z.abs B) ->
  A * 2 ^ 1074 <= scaled x * scaled y <= B * 2 ^ 1074 ->
  finite_sf (SFmul prec emax x y) = true
  /\ A <= scaled (SFmul prec emax x y) <= B
  /\ valid_binary (SFmul prec emax x y) = true.
Proof.
  intros Vx Vy Fx Fy HA HB HAB.
  assert (HS : 0 < 2 ^ 1074) by (apply Z.pow_pos_nonneg; lia).
  set (S := 2 ^ 1074) in *.
  destruct x as [sx|sx| |sx mx ex]; try discriminate;
  destruct y as [sy|sy| |sy my ey]; try discriminate;
    try (cbn [SFmul scaled finite_sf valid_binary]; cbn [scaled] in HAB;
         rewrite ?Z.mul_0_l, ?Z.mul_0_r in HAB;
         split; [reflexivity|]; split; [|reflexivity];
         split; [destruct (Z.leb_spec A 0); [assumption|];
                 assert (0 < A * S) by (apply Z.mul_pos_pos; lia); lia
                |destruct (Z.leb_spec 0 B); [assumption|];
                 assert (B * S < 0) by (apply Z.mul_neg_pos; lia); lia]).
  destruct (valid_finite_inv _ _ _ Vx) as (Hex & _).
  destruct (valid_finite_inv _ _ _ Vy) as (Hey & _).
  cbn [SFmul]. cbn [scaled] in HAB. rewrite cond_Zopp_mul in HAB.
  assert (Hpow : 2 ^ (ex + 1074) * 2 ^ (ey + 1074) = 2 ^ (ex + ey + 1074 + 1074)).
  { rewrite <- Z.pow_add_r by lia. f_equal. lia. }
  assert (Hp : 0 < 2 ^ (ex + ey + 1074 + 1074)) by (apply Z.pow_pos_nonneg; lia).
  refine (round_within (xorb sx sy) (Zpos (mx * my)) (ex + ey) loc_Exact
            (Zpos (mx * my) * 2 ^ (ex + ey + 1074 + 1074)) 1 1074
            _ (product_exponent mx my ex ey Vx Vy) _ _ _ _ _ _ A B HA HB _); try lia.
  - intros H. contradiction H. reflexivity.
  - fold S. rewrite Z.mul_1_r.
    replace (Zpos (mx * my) * 2 ^ (ex + ey + 1074 + 1074))
      with (Zpos mx * 2 ^ (ex + 1074) * (Zpos my * 2 ^ (ey + 1074))).
    + exact HAB.
    + rewrite <- Hpow, Pos2Z.inj_mul. ring.
Qed.

(** *** Quotients *)

Lemma Zdigits2_succ_le (q : Z) : 0 <= q -> q + 1 <= 2 ^ Zdigits2 q.
Proof.
  intros Hq. destruct q as [|p|p]; [cbn; lia| |lia].
  rewrite Zdigits2_pos. pose proof (digits2_upper p). lia.
Qed.

Lemma Zdigits2_nonneg (q : Z) : 0 <= q -> 0 <= Zdigits2 q.
Proof. intros Hq. destruct q as [|p|p]; cbn; lia. Qed.

Lemma new_location_exact (n r : Z) : new_location n r = loc_Exact -> r = 0.
Proof.
  unfold new_location, new_location_even, new_location_odd.
  destruct (Z.even n); destruct (Z.eqb_spec r 0); congruence.
Qed.

(** The quotient of the division core: its cell and its exponent. *)
Lemma SFdiv_core_cell (m1 m2 : positive) (e1 e2 : Z) :
  -2148 <= e1 - e2 ->
  let '(q, e', l) := SFdiv_core_binary prec emax (Zpos m1) e1 (Zpos m2) e2 in
  0 <= q
  /\ e' <= fexp prec emax (Zdigits2 q + e')
  /\ 0 <= e' + 1074 + 1074
  /\ q * 2 ^ (e' + 1074 + 1074) * Zpos m2 <= Zpos m1 * 2 ^ (e1 - e2 + 2148)
  /\ Zpos m1 * 2 ^ (e1 - e2 + 2148) < (q + 1) * 2 ^ (e' + 1074 + 1074) * Zpos m2
  /\ (l <> loc_Exact ->
      q * 2 ^ (e' + 1074 + 1074) * Zpos m2 < Zpos m1 * 2 ^ (e1 - e2 + 2148)).
Proof.
  intros He. unfold SFdiv_core_binary.
  rewrite !Zdigits2_pos, fexp64.
  pose proof (digits2_upper m1) as Hu1. pose proof (digits2_lower m1) as Hl1.
  pose proof (digits2_upper m2) as Hu2. pose proof (digits2_lower m2) as Hl2.
  set (d1 := Zpos (digits2_pos m1)) in *. set (d2 := Zpos (digits2_pos m2)) in *.
  assert (Hd1 : 0 < d1) by (subst d1; lia). assert (Hd2 : 0 < d2) by (subst d2; lia).
  set (e' := Z.min (Z.max (d1 + e1 - (d2 + e2) - 53) (-1074)) (e1 - e2)).
  set (s := e1 - e2 - e').
  assert (Hs : 0 <= s) by (subst s e'; lia).
  set (m' := match s with Zpos _ => Z.shiftl (Zpos m1) s | Z0 => Zpos m1 | Zneg _ => 0 end).
  assert (Hm' : m' = Zpos m1 * 2 ^ s).
  { subst m'. destruct s as [|k|k] eqn:Es; [rewrite Z.mul_1_r; reflexivity| |lia].
    rewrite Z.shiftl_mul_pow2 by lia. reflexivity. }
  assert (Hps : 0 < 2 ^ s) by (apply Z.pow_pos_nonneg; lia).
  pose proof (Z_div_mod m' (Zpos m2) ltac:(lia)) as Hdiv.
  destruct (Z.div_eucl m' (Zpos m2)) as [q r]. destruct Hdiv as [Hqr Hr].
  assert (Hm'pos : 0 < m') by (rewrite Hm'; apply Z.mul_pos_pos; lia).
  assert (Hq : 0 <= q).
  { destruct (Z.leb_spec 0 q); [assumption|].
    assert (Zpos m2 * q <= Zpos m2 * (-1)) by (apply Z.mul_le_mono_nonneg_l; lia). lia. }
  assert (He' : 0 <= e' + 1074 + 1074) by (subst e'; lia).
  assert (Hp : 0 < 2 ^ (e' + 1074 + 1074)) by (apply Z.pow_pos_nonneg; lia).
  assert (HN : Zpos m1 * 2 ^ (e1 - e2 + 2148) = m' * 2 ^ (e' + 1074 + 1074)).
  { rewrite Hm', <- Z.mul_assoc, <- Z.pow_add_r by lia. f_equal. f_equal. subst s. lia. }
  split; [exact Hq|]. split; [|split; [exact He'|]].
  - (* the quotient has enough digits *)
    rewrite fexp64.
    assert (Hdm : 2 ^ (d1 + s - 1) <= m').
    { rewrite Hm'. replace (d1 + s - 1) with (d1 - 1 + s) by lia.
      rewrite Z.pow_add_r by lia. apply Z.mul_le_mono_nonneg_r; lia. }
    pose proof (Zdigits2_succ_le q Hq) as Hq1.
    pose proof (Zdigits2_nonneg q Hq) as Hdq.
    assert (Hlt : m' < 2 ^ (Zdigits2 q + d2)).
    { rewrite Z.pow_add_r by lia.
      apply Z.lt_le_trans with ((q + 1) * Zpos m2); [lia|].
      apply Z.le_trans with (2 ^ Zdigits2 q * Zpos m2).
      - apply Z.mul_le_mono_nonneg_r; lia.
      - apply Z.mul_le_mono_nonneg_l; [|lia]. apply Z.pow_nonneg; lia. }
    assert (Hdd : d1 + s - 1 < Zdigits2 q + d2).
    { apply (Z.pow_lt_mono_r_iff 2); lia. }
    subst s e'. lia.
  - rewrite HN. split; [|split].
    + rewrite <- Z.mul_assoc, (Z.mul_comm (2 ^ _)), Z.mul_assoc.
      apply Z.mul_le_mono_nonneg_r; lia.
    + rewrite <- Z.mul_assoc, (Z.mul_comm (2 ^ _)), Z.mul_assoc.
      apply Z.mul_lt_mono_pos_r; lia.
    + intros Hl.
      assert (Hr0 : r <> 0).
      { intros ->. apply Hl. unfold new_location, new_location_even, new_location_odd.
        destruct (Z.even (Zpos m2)); reflexivity. }
      rewrite <- Z.mul_assoc, (Z.mul_comm (2 ^ _)), Z.mul_assoc.
      apply Z.mul_lt_mono_pos_r; lia.
Qed.

(** The quotient of two finite floats, the divisor positive. *)
Lemma SFdiv_within (x : spec_float) (my : positive) (ey : Z) (A B : Z) :
  valid_binary x = true -> bounded prec emax my ey = true ->
  finite_sf x = true ->
  float_mag (Z.abs A) -> float_mag (Z.abs B) ->
  A * (Zpos my * 2 ^ (ey + 1074)) <= scaled x * 2 ^ 1074
    <= B * (Zpos my * 2 ^ (ey + 1074)) ->
  let r := SFdiv prec emax x (S754_finite false my ey) in
  finite_sf r = true /\ A <= scaled r <= B /\ valid_binary r = true.
Proof.
  intros Vx By Fx HA HB HAB. cbv zeta.
  destruct (bounded_inv my ey By) as (Hey & _).
  assert (HY : 0 < Zpos my * 2 ^ (ey + 1074)).
  { apply Z.mul_pos_pos; [lia | apply Z.pow_pos_nonneg; lia]. }
  destruct x as [sx|sx| |sx mx ex]; try discriminate.
  - cbn [SFdiv scaled finite_sf valid_binary]. cbn [scaled] in HAB.
    rewrite Z.mul_0_l in HAB.
    split; [reflexivity|]. split; [|reflexivity]. split.
    + destruct (Z.leb_spec A 0); [assumption|].
      assert (0 < A * (Zpos my * 2 ^ (ey + 1074))) by (apply Z.mul_pos_pos; lia). lia.
    + destruct (Z.leb_spec 0 B); [assumption|].
      assert (B * (Zpos my * 2 ^ (ey + 1074)) < 0) by (apply Z.mul_neg_pos; lia). lia.
  - destruct (valid_finite_inv _ _ _ Vx) as (Hex & _).
    cbn [SFdiv]. rewrite xorb_false_r.
    pose proof (SFdiv_core_cell mx my ex ey ltac:(lia)) as Hc.
    destruct (SFdiv_core_binary prec emax (Zpos mx) ex (Zpos my) ey) as [[q e'] l].
    destruct Hc as (Hq & Hn & He' & Hlo & Hhi & Hin).
    refine (round_within sx q e' l (Zpos mx * 2 ^ (ex - ey + 2148)) (Zpos my) 1074
              Hq Hn _ _ He' Hlo Hhi Hin A B HA HB _); try lia.
    cbn [scaled] in HAB.
    (* both sides of the enclosure times [2^(ey+1074)] *)
    assert (Hp : 0 < 2 ^ (ey + 1074)) by (apply Z.pow_pos_nonneg; lia).
    assert (HX : cond_Zopp sx (Zpos mx * 2 ^ (ex - ey + 2148)) * 2 ^ (ey + 1074)
                 = cond_Zopp sx (Zpos mx * 2 ^ (ex + 1074)) * 2 ^ 1074 * 2 ^ 1074).
    { assert (HP : 2 ^ (ex - ey + 2148) * 2 ^ (ey + 1074)
                   = 2 ^ (ex + 1074) * (2 ^ 1074 * 2 ^ 1074)).
      { rewrite <- !Z.pow_add_r by lia. f_equal. lia. }
      destruct sx; cbn [cond_Zopp]; rewrite ?Z.mul_opp_l, <- !Z.mul_assoc, HP;
        reflexivity. }
    split.
    + apply (Z.mul_le_mono_pos_r _ _ (2 ^ (ey + 1074)) Hp). rewrite HX.
      replace (A * (2 ^ 1074 * Zpos my) * 2 ^ (ey + 1074))
        with (A * (Zpos my * 2 ^ (ey + 1074)) * 2 ^ 1074) by ring.
      apply Z.mul_le_mono_nonneg_r; [apply Z.pow_nonneg; lia | lia].
    + apply (Z.mul_le_mono_pos_r _ _ (2 ^ (ey + 1074)) Hp). rewrite HX.
      replace (B * (2 ^ 1074 * Zpos my) * 2 ^ (ey + 1074))
        with (B * (Zpos my * 2 ^ (ey + 1074)) * 2 ^ 1074) by ring.
      apply Z.mul_le_mono_nonneg_r; [apply Z.pow_nonneg; lia | lia].
Qed.

(** *** Signs *)

Lemma nonneg_sf_scaled (x : spec_float) :
  nonneg_sf x -> x <> S754_nan /\ 0 <= scaled x.
Proof.
  destruct x as [s|s| |s m e]; cbn [nonneg_sf]; intros H; try contradiction;
    try subst s; (split; [discriminate|]); cbn [scaled cond_Zopp];
    first [lia | apply Z.lt_le_incl, Z.pow_pos_nonneg; lia
          | apply Z.mul_nonneg_nonneg; [lia | apply Z.pow_nonneg; lia]].
Qed.

Lemma nonneg_sf_intro (x : spec_float) :
  valid_binary x = true -> x <> S754_nan -> 0 <= scaled x -> nonneg_sf x.
Proof.
  intros V Hn Hs. destruct x as [s|s| |s m e]; try exact I; try congruence.
  - destruct s; [|reflexivity]. cbn [scaled cond_Zopp] in Hs.
    assert (0 < 2 ^ 2200) by (apply Z.pow_pos_nonneg; lia). lia.
  - destruct s; [|reflexivity]. cbn [scaled cond_Zopp] in Hs.
    destruct (valid_finite_inv _ _ _ V) as (He & _).
    assert (0 < 2 ^ (e + 1074)) by (apply Z.pow_pos_nonneg; lia).
    assert (0 < Zpos m * 2 ^ (e + 1074)) by (apply Z.mul_pos_pos; lia). lia.
Qed.

Lemma round_nonneg (m e : Z) (l : location) :
  0 <= m -> e <= fexp prec emax (Zdigits2 m + e) ->
  nonneg_sf (binary_round_aux prec emax false m e l)
  /\ valid_binary (binary_round_aux prec emax false m e l) = true.
Proof.
  intros Hm Hn. destruct (round_sign false m e l Hm Hn) as [Hs Hv].
  split; [|exact Hv].
  destruct (binary_round_aux prec emax false m e l); cbn [nonneg_sf]; tauto.
Qed.

Lemma SFdiv_nonneg (x : spec_float) (my : positive) (ey : Z) :
  valid_binary x = true -> bounded prec emax my ey = true ->
  nonneg_sf x ->
  nonneg_sf (SFdiv prec emax x (S754_finite false my ey))
  /\ valid_binary (SFdiv prec emax x (S754_finite false my ey)) = true.
Proof.
  intros Vx By Hsx.
  destruct (bounded_inv my ey By) as (Hey & _).
  destruct x as [sx|sx| |sx mx ex]; try contradiction; cbn [nonneg_sf] in Hsx.
  - cbn [SFdiv]. split; [exact I | reflexivity].
  - subst sx. cbn [SFdiv xorb]. split; reflexivity.
  - subst sx. destruct (valid_finite_inv _ _ _ Vx) as (Hex & _).
    cbn [SFdiv xorb].
    pose proof (SFdiv_core_cell mx my ex ey ltac:(lia)) as Hc.
    destruct (SFdiv_core_binary prec emax (Zpos mx) ex (Zpos my) ey) as [[q e'] l].
    destruct Hc as (Hq & Hn & _).
    exact (round_nonneg q e' l Hq Hn).
Qed.

Lemma SFmul_nonneg (x : spec_float) (my : positive) (ey : Z) :
  valid_binary x = true -> bounded prec emax my ey = true ->
  nonneg_sf x ->
  nonneg_sf (SFmul prec emax x (S754_finite false my ey))
  /\ valid_binary (SFmul prec emax x (S754_finite false my ey)) = true.
Proof.
  intros Vx By Hsx.
  destruct x as [sx|sx| |sx mx ex]; try contradiction; cbn [nonneg_sf] in Hsx.
  - cbn [SFmul]. split; [exact I | reflexivity].
  - subst sx. cbn [SFmul xorb]. split; reflexivity.
  - subst sx. cbn [SFmul xorb].
    apply round_nonneg; [lia | exact (product_exponent mx my ex ey Vx By)].
Qed.

(** *** Floats on a grid of [2^-40] *)

Lemma grid_pos : 0 < grid.
Proof. apply Z.pow_pos_nonneg; lia. Qed.

Lemma grid_scale : grid * one40 = 2 ^ 1074.
Proof.
  unfold grid. change one40 with (2 ^ 40). rewrite <- Z.pow_add_r by lia. reflexivity.
Qed.

Lemma small_float_mag (k : Z) : small k = true -> float_mag (Z.abs (k * grid)).
Proof.
  unfold small. intros H. apply Z.ltb_lt in H. change two53 with (2 ^ 53) in H.
  exists (Z.abs k), (-40). split; [lia|]. split; [lia|].
  rewrite Z.abs_mul, (Z.abs_eq grid) by (apply Z.lt_le_incl, grid_pos).
  reflexivity.
Qed.

Lemma within_weaken (lo hi lo' hi' : Z) (x : float) :
  within lo hi x -> lo' <= lo -> hi <= hi' -> within lo' hi' x.
Proof.
  intros [F [H1 H2]] Hl Hh. pose proof grid_pos. split; [exact F|]. split.
  - apply Z.le_trans with (lo * grid); [apply Z.mul_le_mono_nonneg_r; lia | exact H1].
  - apply Z.le_trans with (hi * grid); [exact H2 | apply Z.mul_le_mono_nonneg_r; lia].
Qed.

Lemma within_order (lo hi : Z) (x : float) : within lo hi x -> lo <= hi.
Proof.
  intros [_ [H1 H2]]. pose proof grid_pos.
  apply (Z.mul_le_mono_pos_r _ _ grid); lia.
Qed.

Lemma add_within (x y : float) (a b c d : Z) :
  within a b x -> within c d y ->
  small (a + c) = true -> small (b + d) = true ->
  within (a + c) (b + d) (x + y).
Proof.
  intros [Fx Hx] [Fy Hy] Hs1 Hs2. unfold within. rewrite FloatAxioms.add_spec.
  destruct (SFadd_within (Prim2SF x) (Prim2SF y) ((a + c) * grid) ((b + d) * grid)
              (Prim2SF_valid x) (Prim2SF_valid y) Fx Fy
              (small_float_mag _ Hs1) (small_float_mag _ Hs2)) as (F & H & _).
  - rewrite !Z.mul_add_distr_r. lia.
  - split; assumption.
Qed.

Lemma sub_within (x y : float) (a b c d : Z) :
  within a b x -> within c d y ->
  small (a - d) = true -> small (b - c) = true ->
  within (a - d) (b - c) (x - y).
Proof.
  intros [Fx Hx] [Fy Hy] Hs1 Hs2. unfold within. rewrite FloatAxioms.sub_spec.
  destruct (SFsub_within (Prim2SF x) (Prim2SF y) ((a - d) * grid) ((b - c) * grid)
              (Prim2SF_valid x) (Prim2SF_valid y) Fx Fy
              (small_float_mag _ Hs1) (small_float_mag _ Hs2)) as (F & H & _).
  - rewrite !Z.mul_sub_distr_r. lia.
  - split; assumption.
Qed.

(** A difference known to be non-negative. *)
Lemma sub_within_nonneg (x y : float) (a b c d : Z) :
  within a b x -> within c d y ->
  scaled (Prim2SF y) <= scaled (Prim2SF x) ->
  small (b - c) = true ->
  within 0 (b - c) (x - y).
Proof.
  intros [Fx Hx] [Fy Hy] Hle Hs2. unfold within. rewrite FloatAxioms.sub_spec.
  destruct (SFsub_within (Prim2SF x) (Prim2SF y) (0 * grid) ((b - c) * grid)
              (Prim2SF_valid x) (Prim2SF_valid y) Fx Fy
              (small_float_mag 0 eq_refl) (small_float_mag _ Hs2)) as (F & H & _).
  - rewrite !Z.mul_sub_distr_r. lia.
  - split; assumption.
Qed.

Lemma product_bounds (X Y a b c d : Z) :
  a <= X <= b -> c <= Y <= d -> 0 <= c ->
  (if a <? 0 then a * d else a * c) <= X * Y
    <= (if b <? 0 then b * c else b * d).
Proof.
  intros [HaX HXb] [HcY HYd] Hc. split.
  - destruct (Z.ltb_spec a 0) as [Ha | Ha].
    + destruct (Z.leb_spec 0 X) as [HX | HX].
      * apply Z.le_trans with 0; [|apply Z.mul_nonneg_nonneg; lia].
        apply Z.mul_nonpos_nonneg; lia.
      * apply Z.le_trans with (X * d).
        -- apply Z.mul_le_mono_nonneg_r; lia.
        -- apply Z.mul_le_mono_nonpos_l; lia.
    + apply Z.le_trans with (X * c).
      * apply Z.mul_le_mono_nonneg_r; lia.
      * apply Z.mul_le_mono_nonneg_l; lia.
  - destruct (Z.ltb_spec b 0) as [Hb | Hb].
    + apply Z.le_trans with (X * c).
      * apply Z.mul_le_mono_nonpos_l; lia.
      * apply Z.mul_le_mono_nonneg_r; lia.
    + destruct (Z.leb_spec 0 X) as [HX | HX].
      * apply Z.le_trans with (X * d).
        -- apply Z.mul_le_mono_nonneg_l; lia.
        -- apply Z.mul_le_mono_nonneg_r; lia.
      * apply Z.le_trans with 0; [apply Z.mul_nonpos_nonneg; lia|].
        apply Z.mul_nonneg_nonneg; lia.
Qed.

Lemma floor_40 (n : Z) : Z.shiftr n 40 * one40 <= n.
Proof.
  rewrite Z.shiftr_div_pow2 by lia. change (2 ^ 40) with one40.
  pose proof (Z.mul_div_le n one40 eq_refl). lia.
Qed.

Lemma ceil_40 (n : Z) : n <= - Z.shiftr (- n) 40 * one40.
Proof.
  rewrite Z.shiftr_div_pow2 by lia. change (2 ^ 40) with one40.
  pose proof (Z.mul_div_le (- n) one40 eq_refl). lia.
Qed.

Lemma mul_within (x y : float) (a b c d : Z) :
  within a b x -> within c d y -> 0 <= c ->
  small (mul_lo a c d) = true -> small (mul_hi b c d) = true ->
  within (mul_lo a c d) (mul_hi b c d) (x * y).
Proof.
  intros [Fx Hx] [Fy Hy] Hc Hs1 Hs2. unfold within. rewrite FloatAxioms.mul_spec.
  pose proof grid_pos as Hg. pose proof grid_scale as Hgs.
  destruct (SFmul_within (Prim2SF x) (Prim2SF y)
              (mul_lo a c d * grid) (mul_hi b c d * grid)
              (Prim2SF_valid x) (Prim2SF_valid y) Fx Fy
              (small_float_mag _ Hs1) (small_float_mag _ Hs2)) as (F & H & _);
    [|split; assumption].
  set (X := scaled (Prim2SF x)) in *. set (Y := scaled (Prim2SF y)) in *.
  assert (Hcg : 0 <= c * grid) by (apply Z.mul_nonneg_nonneg; lia).
  pose proof (product_bounds X Y (a * grid) (b * grid) (c * grid) (d * grid)
                Hx Hy Hcg) as [Hlo Hhi].
  assert (Hgg : 0 <= grid * grid) by (apply Z.mul_nonneg_nonneg; lia).
  rewrite <- Hgs. split.
  - apply Z.le_trans with ((if a <? 0 then a * d else a * c) * (grid * grid)).
    + replace (mul_lo a c d * grid * (grid * one40))
        with (mul_lo a c d * one40 * (grid * grid)) by ring.
      apply Z.mul_le_mono_nonneg_r; [exact Hgg | apply floor_40].
    + replace (a * grid <? 0) with (a <? 0) in Hlo.
      2:{ destruct (Z.ltb_spec a 0), (Z.ltb_spec (a * grid) 0); try reflexivity.
          - assert (a * grid < 0) by (apply Z.mul_neg_pos; lia). lia.
          - assert (0 <= a * grid) by (apply Z.mul_nonneg_nonneg; lia). lia. }
      destruct (a <? 0).
      * replace (a * d * (grid * grid)) with (a * grid * (d * grid)) by ring. exact Hlo.
      * replace (a * c * (grid * grid)) with (a * grid * (c * grid)) by ring. exact Hlo.
  - apply Z.le_trans with ((if b <? 0 then b * c else b * d) * (grid * grid)).
    + replace (b * grid <? 0) with (b <? 0) in Hhi.
      2:{ destruct (Z.ltb_spec b 0), (Z.ltb_spec (b * grid) 0); try reflexivity.
          - assert (b * grid < 0) by (apply Z.mul_neg_pos; lia). lia.
          - assert (0 <= b * grid) by (apply Z.mul_nonneg_nonneg; lia). lia. }
      destruct (b <? 0).
      * replace (b * c * (grid * grid)) with (b * grid * (c * grid)) by ring. exact Hhi.
      * replace (b * d * (grid * grid)) with (b * grid * (d * grid)) by ring. exact Hhi.
    + replace (mul_hi b c d * grid * (grid * one40))
        with (mul_hi b c d * one40 * (grid * grid)) by ring.
      apply Z.mul_le_mono_nonneg_r; [exact Hgg | apply ceil_40].
Qed.

Lemma within_b_sound (lo hi : Z) (x : float) :
  within_b lo hi x = true -> within lo hi x.
Proof.
  unfold within_b, within. intros H.
  apply andb_true_iff in H. destruct H as [H H3].
  apply andb_true_iff in H. destruct H as [H1 H2].
  apply Z.leb_le in H2, H3. auto.
Qed.

Lemma enclose_within (x : float) :
  finite_sf (Prim2SF x) = true -> within (fst (enclose x)) (snd (enclose x)) x.
Proof.
  intros F. split; [exact F|]. cbn [enclose fst snd]. pose proof grid_pos as Hg.
  set (v := scaled (Prim2SF x)).
  pose proof (Z.mul_div_le v grid Hg). pose proof (Z.mul_div_le (- v) grid Hg). lia.
Qed.

(** *** Remainders *)

Lemma Prim2SF_nan : Prim2SF nan = S754_nan.
Proof. reflexivity. Qed.

Lemma float_mag_one : float_mag (Z.abs (2 ^ 1074)).
Proof. exists 1, 0. repeat split; lia. Qed.

Lemma float_mag_minus_one : float_mag (Z.abs (- 2 ^ 1074)).
Proof. exists 1, 0. repeat split; lia. Qed.

(** [fmod(x, 1.0)] is a NaN or lies between -1 and 1. *)
Lemma fmod1_range (x : float) :
  Prim2SF (fmod1 x) = S754_nan
  \/ (finite_sf (Prim2SF (fmod1 x)) = true
      /\ - 2 ^ 1074 <= scaled (Prim2SF (fmod1 x)) <= 2 ^ 1074).
Proof.
  assert (HS : 0 < 2 ^ 1074) by (apply Z.pow_pos_nonneg; lia).
  unfold fmod1. pose proof (Prim2SF_valid x) as V.
  destruct (Prim2SF x) as [s|s| |s m e] eqn:E.
  - right. rewrite E. cbn [finite_sf scaled]. split; [reflexivity | lia].
  - left. reflexivity.
  - left. reflexivity.
  - destruct (valid_finite_inv _ _ _ V) as (He & _).
    destruct (Z.leb_spec 0 e) as [He0 | He0].
    + right. rewrite Prim2SF_SF2Prim by reflexivity.
      cbn [finite_sf scaled]. split; [reflexivity | lia].
    + pose proof (Z.mod_pos_bound (Zpos m) (2 ^ (- e))
                    ltac:(apply Z.pow_pos_nonneg; lia)) as Hf.
      destruct (Zpos m mod 2 ^ (- e)) as [|f|f] eqn:Ef.
      * right. rewrite Prim2SF_SF2Prim by reflexivity.
        cbn [finite_sf scaled]. split; [reflexivity | lia].
      * right.
        assert (Hfb : Zpos f * 2 ^ (e + 1074) <= 2 ^ 1074).
        { apply Z.le_trans with (2 ^ (- e) * 2 ^ (e + 1074)).
          - apply Z.mul_le_mono_nonneg_r; [apply Z.pow_nonneg; lia | lia].
          - rewrite <- Z.pow_add_r by lia. apply Z.pow_le_mono_r; lia. }
        assert (Hf0 : 0 <= Zpos f * 2 ^ (e + 1074)).
        { apply Z.mul_nonneg_nonneg; [lia | apply Z.pow_nonneg; lia]. }
        destruct (normalize_within (cond_Zopp s (Zpos f)) e s (- 2 ^ 1074) (2 ^ 1074)
                    ltac:(lia) float_mag_minus_one float_mag_one) as (F & Hb & Vr).
        { destruct s; cbn [cond_Zopp]; rewrite ?Z.mul_opp_l; lia. }
        rewrite Prim2SF_SF2Prim by exact Vr. split; assumption.
      * lia.
Qed.

Lemma Prim2SF_one : Prim2SF 1 = S754_finite false 4503599627370496 (-52).
Proof. reflexivity. Qed.

Lemma scaled_one : scaled (Prim2SF 1) = 2 ^ 1074.
Proof.
  rewrite Prim2SF_one. cbn [scaled cond_Zopp].
  change 4503599627370496 with (2 ^ 52). rewrite <- Z.pow_add_r by lia. reflexivity.
Qed.

Lemma one40_grid : one40 * grid = 2 ^ 1074.
Proof. rewrite Z.mul_comm. apply grid_scale. Qed.

(** [x % 1.0] is a NaN or lies between 0 and 1. *)
Lemma float_mod1_range (x : float) :
  Prim2SF (float_mod1 x) = S754_nan \/ within 0 one40 (float_mod1 x).
Proof.
  assert (HS : 0 < 2 ^ 1074) by (apply Z.pow_pos_nonneg; lia).
  unfold float_mod1. destruct (fmod1 x =? 0)%float eqn:E0.
  - right. split; [reflexivity|]. rewrite Prim2SF_zero, one40_grid. cbn [scaled]. lia.
  - destruct (fmod1 x <? 0)%float eqn:El.
    + right. destruct (ltb_true_not_nan _ _ El) as [Nm N0].
      rewrite ltb_scaled in El by assumption. apply Z.ltb_lt in El.
      rewrite Prim2SF_zero in El. cbn [scaled] in El.
      destruct (fmod1_range x) as [Hn | [F Hb]]; [contradiction|].
      unfold within. rewrite FloatAxioms.add_spec, one40_grid.
      destruct (SFadd_within (Prim2SF (fmod1 x)) (Prim2SF 1) 0 (2 ^ 1074)
                  (Prim2SF_valid _) (Prim2SF_valid _) F eq_refl
                  float_mag_zero float_mag_one) as (Fr & Hr & _).
      * rewrite scaled_one. lia.
      * split; [exact Fr | rewrite Z.mul_0_l; exact Hr].
    + destruct (fmod1_range x) as [Hn | [F Hb]]; [left; exact Hn | right].
      assert (Nm : Prim2SF (fmod1 x) <> S754_nan).
      { intros Hn. rewrite Hn in F. discriminate. }
      assert (N0 : Prim2SF 0 <> S754_nan) by (rewrite Prim2SF_zero; discriminate).
      rewrite ltb_scaled in El by assumption. apply Z.ltb_ge in El.
      rewrite Prim2SF_zero in El. cbn [scaled] in El.
      split; [exact F|]. rewrite one40_grid. lia.
Qed.

(** *** Truncation *)

Lemma int_of_float_byte (x : float) (hi : Z) :
  within 0 hi x -> hi < 256 * one40 ->
  exists n, int_of_float x = Ok n /\ 0 <= n <= 255.
Proof.
  intros [F [H0 H1]] Hhi. unfold int_of_float.
  assert (Hs : 0 <= scaled (Prim2SF x) < 256 * scale).
  { split; [lia|]. unfold scale. rewrite <- one40_grid.
    pose proof grid_pos.
    apply Z.le_lt_trans with (hi * grid); [exact H1|].
    rewrite Z.mul_assoc. apply Z.mul_lt_mono_pos_r; lia. }
  assert (Hq : 0 <= Z.quot (scaled (Prim2SF x)) scale <= 255).
  { assert (0 < scale) by (apply Z.pow_pos_nonneg; lia).
    rewrite Z.quot_div_nonneg by lia. split.
    - apply Z.div_pos; lia.
    - assert (scaled (Prim2SF x) / scale < 256); [|lia].
      apply Z.div_lt_upper_bound; lia. }
  destruct (Prim2SF x) as [s|s| |s m e]; try discriminate; eexists; split;
    try reflexivity; exact Hq.
Qed.

(** *** The channels of [hls_to_rgb] at lightness 0.55 *)

Lemma within_six : within six40 six40 6.
Proof. apply within_b_sound. vm_compute. reflexivity. Qed.

Lemma within_l : within (fst c_l) (snd c_l) 0.55.
Proof. apply within_b_sound. vm_compute. reflexivity. Qed.

Lemma within_2l : within (fst c_2l) (snd c_2l) (2 * 0.55).
Proof. apply within_b_sound. vm_compute. reflexivity. Qed.

Lemma within_sixth : within (fst c_sixth) (snd c_sixth) ONE_SIXTH.
Proof. apply within_b_sound. vm_compute. reflexivity. Qed.

Lemma within_two_third : within (fst c_two_third) (snd c_two_third) TWO_THIRD.
Proof. apply within_b_sound. vm_compute. reflexivity. Qed.

Lemma within_half : within half40 half40 0.5.
Proof. apply within_b_sound. vm_compute. reflexivity. Qed.

Lemma within_not_nan (lo hi : Z) (x : float) : within lo hi x -> Prim2SF x <> S754_nan.
Proof. intros [F _] H. rewrite H in F. discriminate. Qed.

Lemma ramp_within (a1 b1 a2 b2 hb : Z) (m1 m2 t : float) :
  within a1 b1 m1 -> within a2 b2 m2 -> within 0 hb t ->
  ramp_ok a1 b1 a2 b2 hb = true ->
  within 0 vmax (m1 + (m2 - m1) * t * 6).
Proof.
  intros H1 H2 Ht Hok. unfold ramp_ok in Hok.
  repeat (apply andb_true_iff in Hok; destruct Hok as [Hok ?]).
  assert (Hd : within (a2 - b1) (b2 - a1) (m2 - m1))
    by (apply sub_within; assumption).
  assert (Hp : within (mul_lo (a2 - b1) 0 hb) (mul_hi (b2 - a1) 0 hb) ((m2 - m1) * t))
    by (apply mul_within; try assumption; lia).
  assert (Hp6 : within (mul_lo (mul_lo (a2 - b1) 0 hb) six40 six40)
                       (mul_hi (mul_hi (b2 - a1) 0 hb) six40 six40)
                       ((m2 - m1) * t * 6)).
  { apply mul_within; try assumption; [exact within_six | unfold six40; lia]. }
  assert (Hr : within (ramp_lo a1 b1 a2 hb) (ramp_hi a1 b1 b2 hb)
                      (m1 + (m2 - m1) * t * 6))
    by (apply add_within; assumption).
  apply (within_weaken _ _ _ _ _ Hr); apply Z.leb_le; assumption.
Qed.

Lemma _v_within (a1 b1 a2 b2 : Z) (m1 m2 h : float) :
  within a1 b1 m1 -> within a2 b2 m2 ->
  0 <= a1 -> b1 <= vmax -> 0 <= a2 -> b2 <= vmax ->
  ramp_ok a1 b1 a2 b2 (snd c_sixth) = true ->
  ramp_ok a1 b1 a2 b2 (snd c_two_third - half40) = true ->
  within 0 vmax (_v m1 m2 h).
Proof.
  intros H1 H2 Ha1 Hb1 Ha2 Hb2 Hr1 Hr3. unfold _v. pose proof grid_pos as Hg.
  destruct (float_mod1 h <? ONE_SIXTH)%float eqn:E1.
  - (* the rising ramp *)
    destruct (ltb_true_not_nan _ _ E1) as [Nh N6].
    destruct (float_mod1_range h) as [Hn | [Fh [Hh0 _]]]; [contradiction|].
    rewrite ltb_scaled in E1 by assumption. apply Z.ltb_lt in E1.
    destruct within_sixth as [_ [_ H6]].
    apply (ramp_within a1 b1 a2 b2 (snd c_sixth)); try assumption.
    split; [exact Fh | lia].
  - destruct (float_mod1 h <? 0.5)%float eqn:E2.
    + apply (within_weaken _ _ _ _ _ H2); assumption.
    + destruct (float_mod1 h <? TWO_THIRD)%float eqn:E3.
      * (* the falling ramp *)
        destruct (ltb_true_not_nan _ _ E3) as [Nh N3].
        destruct (float_mod1_range h) as [Hn | [Fh [Hh0 Hh1]]]; [contradiction|].
        rewrite ltb_scaled in E3 by assumption. apply Z.ltb_lt in E3.
        rewrite ltb_scaled in E2
          by (try assumption; exact (within_not_nan _ _ _ within_half)).
        apply Z.ltb_ge in E2.
        destruct within_half as [_ [Hhalf _]].
        pose proof within_two_third as H23. destruct (H23) as [_ [_ H23u]].
        assert (Hhue : within half40 (snd c_two_third) (float_mod1 h)).
        { split; [exact Fh | lia]. }
        assert (Hs : small (snd c_two_third - half40) = true) by reflexivity.
        pose proof (sub_within_nonneg _ _ _ _ _ _ H23 Hhue ltac:(lia) Hs) as Ht.
        apply (ramp_within a1 b1 a2 b2 (snd c_two_third - half40)); assumption.
      * apply (within_weaken _ _ _ _ _ H1); assumption.
Qed.

Lemma piece_sound (slo shi : Z) (s h : float) :
  piece_ok slo shi = true -> within slo shi s ->
  within 0 vmax (_v (2 * 0.55 - (0.55 + s - 0.55 * s)) (0.55 + s - 0.55 * s) h).
Proof.
  intros Hok Hs. unfold piece_ok in Hok.
  repeat (apply andb_true_iff in Hok; destruct Hok as [Hok ?]).
  repeat match goal with H : (_ <=? _) = true |- _ => apply Z.leb_le in H end.
  assert (Ht1 : within (fst c_l + slo) (snd c_l + shi) (0.55 + s))
    by (apply add_within; try assumption; exact within_l).
  assert (Ht2 : within (mul_lo (fst c_l) slo shi) (mul_hi (snd c_l) slo shi) (0.55 * s))
    by (apply mul_within; try assumption; exact within_l).
  assert (Hm2 : within (m2_lo slo shi) (m2_hi slo shi) (0.55 + s - 0.55 * s))
    by (apply sub_within; assumption).
  assert (Hm1 : within (m1_lo slo shi) (m1_hi slo shi)
                       (2 * 0.55 - (0.55 + s - 0.55 * s)))
    by (apply sub_within; try assumption; exact within_2l).
  apply (_v_within _ _ _ _ _ _ _ Hm1 Hm2); assumption.
Qed.

Lemma all_pieces_checked : forallb nth_piece_ok pieces = true.
Proof. vm_compute. reflexivity. Qed.

Lemma pieces_ok (k : Z) : In k pieces -> nth_piece_ok k = true.
Proof. exact (proj1 (forallb_forall nth_piece_ok pieces) all_pieces_checked k). Qed.

Lemma piece_of (s : float) :
  within 0 one40 s ->
  exists k, In k pieces /\ within (k * piece_width) ((k + 1) * piece_width) s.
Proof.
  intros [F [H0 H1]]. pose proof grid_pos as Hg.
  set (v := scaled (Prim2SF s)) in *.
  set (w := piece_width * grid).
  assert (Hw : 0 < w) by (apply Z.mul_pos_pos; [reflexivity | exact Hg]).
  assert (H1' : v <= 1024 * w).
  { unfold w. rewrite Z.mul_assoc. exact H1. }
  pose proof (Z.mul_div_le v w Hw) as Hd1.
  pose proof (Z.mul_succ_div_gt v w Hw) as Hd2.
  assert (Hq : 0 <= v / w) by (apply Z.div_pos; lia).
  exists (Z.min 1023 (v / w)). split.
  - unfold pieces. apply in_map_iff. exists (Z.to_nat (Z.min 1023 (v / w))).
    split; [lia|]. apply in_seq. lia.
  - split; [exact F|]. fold v. rewrite <- !Z.mul_assoc. fold w.
    clear F H0 H1 Hg. clearbody w v. unfold Z.succ in Hd2.
    generalize dependent (v / w). intros q Hd1 Hd2 Hq.
    destruct (Z.leb_spec q 1023) as [Hle | Hgt].
    + rewrite Z.min_r by lia. lia.
    + rewrite Z.min_l by lia.
      assert (w * 1024 <= w * q) by (apply Z.mul_le_mono_nonneg_l; lia). lia.
Qed.

Lemma within_l_vmax : within 0 vmax 0.55.
Proof. apply within_b_sound. vm_compute. reflexivity. Qed.

(** Every channel that [hls_to_rgb] returns at lightness 0.55, for a
    saturation between 0 and 1 and any hue, lies between 0 and [vmax]. *)
Lemma hls_to_rgb_within (h s : float) :
  within 0 one40 s ->
  let '(nr, ng, nb) := hls_to_rgb h 0.55 s in
  within 0 vmax nr /\ within 0 vmax ng /\ within 0 vmax nb.
Proof.
  intros Hs. unfold hls_to_rgb. destruct (s =? 0)%float.
  - repeat split; apply within_l_vmax.
  - change (0.55 <=? 0.5)%float with false. cbv iota zeta.
    destruct (piece_of s Hs) as (k & Hk & Hsk).
    pose proof (pieces_ok k Hk) as Hall.
    repeat split; apply (piece_sound _ _ s _ Hall Hsk).
Qed.

(** *** The mean of a channel *)

Lemma fold_add_range (xs : list Z) (acc : Z) :
  Forall (fun z => 0 <= z <= 255) xs ->
  acc <= fold_left Z.add xs acc <= acc + 255 * Z.of_nat (List.length xs).
Proof.
  intros H. revert acc. induction H as [|x xs Hx _ IH]; intros acc.
  - cbn. lia.
  - cbn [fold_left List.length]. specialize (IH (acc + x)). lia.
Qed.

Lemma float_mag_unit : float_mag (Z.abs 1).
Proof. exists 1, (-1074). repeat split; lia. Qed.

(** The correctly rounded quotient of two ints lies between the bounds of
    the exact one. *)
Lemma int_truediv_enclosed (a b lo hi : Z) (x : float) :
  0 <= a -> 0 < b -> small lo = true -> small hi = true ->
  lo * b <= a * one40 <= hi * b ->
  int_truediv a b = Ok x -> within lo hi x.
Proof.
  intros Ha Hb Hlo Hhi [Hl Hh]. unfold int_truediv.
  assert (HS : 0 < 2 ^ 1074) by (apply Z.pow_pos_nonneg; lia).
  pose proof grid_pos as Hg.
  destruct (Z.eqb_spec b 0) as [|Hb0]; [lia|].
  destruct a as [|p|p]; [| |lia].
  - intros H. injection H as <-.
    assert (Hbn : (b <? 0) = false) by (apply Z.ltb_ge; lia). rewrite Hbn.
    split; [reflexivity|]. change (Prim2SF zero) with (S754_zero false). cbn [scaled].
    assert (lo <= 0).
    { destruct (Z.leb_spec lo 0); [assumption|].
      assert (0 < lo * b) by (apply Z.mul_pos_pos; lia). lia. }
    assert (0 <= hi).
    { destruct (Z.leb_spec 0 hi); [assumption|].
      assert (hi * b < 0) by (apply Z.mul_neg_pos; lia). lia. }
    split.
    + apply Z.mul_nonpos_nonneg; lia.
    + apply Z.mul_nonneg_nonneg; lia.
  - destruct b as [|pb|pb]; try lia.
    cbn [Z.abs Z.ltb Z.compare xorb].
    pose proof (SFdiv_core_cell p pb 0 0 ltac:(lia)) as Hc.
    destruct (SFdiv_core_binary prec emax (Zpos p) 0 (Zpos pb) 0) as [[q e'] l].
    destruct Hc as (Hq & Hn & He' & Hclo & Hchi & Hin).
    intros H. injection H as <-.
    destruct (round_within false q e' l (Zpos p * 2 ^ (0 - 0 + 2148)) (Zpos pb) 1074
                Hq Hn ltac:(lia) ltac:(lia) He' Hclo Hchi Hin
                (lo * grid) (hi * grid) (small_float_mag lo Hlo) (small_float_mag hi Hhi))
      as (F & Hb' & V).
    + cbn [cond_Zopp]. change (0 - 0 + 2148) with (1074 + 1074).
      rewrite Z.pow_add_r by lia. rewrite <- one40_grid.
      assert (Hgg : 0 <= grid * (one40 * grid)).
      { apply Z.mul_nonneg_nonneg; [lia|]. apply Z.mul_nonneg_nonneg; [unfold one40|]; lia. }
      split.
      * replace (lo * grid * (one40 * grid * Zpos pb))
          with (lo * Zpos pb * (grid * (one40 * grid))) by ring.
        replace (Zpos p * (one40 * grid * (one40 * grid)))
          with (Zpos p * one40 * (grid * (one40 * grid))) by ring.
        apply Z.mul_le_mono_nonneg_r; assumption.
      * replace (hi * grid * (one40 * grid * Zpos pb))
          with (hi * Zpos pb * (grid * (one40 * grid))) by ring.
        replace (Zpos p * (one40 * grid * (one40 * grid)))
          with (Zpos p * one40 * (grid * (one40 * grid))) by ring.
        apply Z.mul_le_mono_nonneg_r; assumption.
    + unfold within. rewrite Prim2SF_SF2Prim by exact V. split; [exact F | exact Hb'].
Qed.

Lemma channel_mean_within (xs : list Z) (x : float) :
  Forall (fun z => 0 <= z <= 255) xs ->
  channel_mean xs = Ok x -> within 0 c255 x.
Proof.
  intros H. unfold channel_mean, int_sum, PyList.len.
  pose proof (fold_add_range xs 0 H) as Hs.
  destruct (Z.eq_dec (Z.of_nat (List.length xs)) 0) as [-> | Hn].
  { unfold int_truediv. cbn. discriminate. }
  apply int_truediv_enclosed; [lia | lia | reflexivity | reflexivity|].
  unfold c255, one40. lia.
Qed.

Lemma Prim2SF_255 : Prim2SF 255 = S754_finite false 8972014882652160 (-45).
Proof. reflexivity. Qed.

Lemma div_255_enclosed (x : float) (lo hi lo' hi' : Z) :
  within lo hi x -> small lo' = true -> small hi' = true ->
  lo' * 255 <= lo -> hi <= hi' * 255 ->
  within lo' hi' (x / 255).
Proof.
  intros [F [H0 H1]] Hlo Hhi Hl Hh. unfold within.
  rewrite FloatAxioms.div_spec, Prim2SF_255.
  assert (HS : 0 < 2 ^ 1074) by (apply Z.pow_pos_nonneg; lia).
  pose proof grid_pos as Hg.
  assert (HY : 8972014882652160 * 2 ^ (-45 + 1074) = 255 * 2 ^ 1074).
  { change 8972014882652160 with (255 * 2 ^ 45).
    rewrite <- Z.mul_assoc, <- Z.pow_add_r by lia. reflexivity. }
  destruct (SFdiv_within (Prim2SF x) 8972014882652160 (-45) (lo' * grid) (hi' * grid)
              (Prim2SF_valid x) eq_refl F (small_float_mag lo' Hlo)
              (small_float_mag hi' Hhi)) as (Fr & Hr & _).
  - rewrite HY. set (X := scaled (Prim2SF x)) in *. split.
    + replace (lo' * grid * (255 * 2 ^ 1074)) with (lo' * 255 * grid * 2 ^ 1074) by ring.
      apply Z.mul_le_mono_nonneg_r; [lia|].
      apply Z.le_trans with (lo * grid); [|exact H0].
      apply Z.mul_le_mono_nonneg_r; lia.
    + replace (hi' * grid * (255 * 2 ^ 1074)) with (hi' * 255 * grid * 2 ^ 1074) by ring.
      apply Z.mul_le_mono_nonneg_r; [lia|].
      apply Z.le_trans with (hi * grid); [exact H1|].
      apply Z.mul_le_mono_nonneg_r; lia.
  - split; assumption.
Qed.

Lemma div_255_within (x : float) :
  within 0 c255 x -> within 0 one40 (x / 255).
Proof.
  intros H. apply (div_255_enclosed x 0 c255 0 one40 H); try reflexivity;
    unfold c255, one40; lia.
Qed.

(** *** The saturation that [rgb_to_hls] returns is not negative *)

Lemma max3_within (lo hi : Z) (a b c : float) :
  within lo hi a -> within lo hi b -> within lo hi c -> within lo hi (max3 a b c).
Proof. intros Ha Hb Hc. destruct (max3_cases a b c) as [-> | [-> | ->]]; assumption. Qed.

Lemma min3_within (lo hi : Z) (a b c : float) :
  within lo hi a -> within lo hi b -> within lo hi c -> within lo hi (min3 a b c).
Proof. intros Ha Hb Hc. destruct (min3_cases a b c) as [-> | [-> | ->]]; assumption. Qed.

Lemma ltb_cases (x y : float) :
  Prim2SF x <> S754_nan -> Prim2SF y <> S754_nan ->
  ((x <? y)%float = true /\ scaled (Prim2SF x) < scaled (Prim2SF y))
  \/ ((x <? y)%float = false /\ scaled (Prim2SF y) <= scaled (Prim2SF x)).
Proof.
  intros Nx Ny. rewrite (ltb_scaled x y Nx Ny).
  destruct (Z.ltb_spec (scaled (Prim2SF x)) (scaled (Prim2SF y))); [left | right]; auto.
Qed.

Lemma min3_le_max3 (a b c : float) :
  Prim2SF a <> S754_nan -> Prim2SF b <> S754_nan -> Prim2SF c <> S754_nan ->
  scaled (Prim2SF (min3 a b c)) <= scaled (Prim2SF (max3 a b c)).
Proof.
  intros Na Nb Nc. unfold min3, max3.
  destruct (ltb_cases a b Na Nb) as [[-> H1] | [-> H1]];
  destruct (ltb_cases b a Nb Na) as [[-> H2] | [-> H2]];
  match goal with
  | |- context [(?m <? c)%float] =>
      match goal with
      | |- context [(c <? ?n)%float] =>
          let E1 := fresh in let E2 := fresh in
          assert (E1 : Prim2SF m <> S754_nan) by assumption;
          assert (E2 : Prim2SF n <> S754_nan) by assumption;
          destruct (ltb_cases m c E1 Nc) as [[-> H3] | [-> H3]];
          destruct (ltb_cases c n Nc E2) as [[-> H4] | [-> H4]]
      end
  end; clear Na Nb Nc; lia.
Qed.

Lemma nonzero_positive (y : float) :
  finite_sf (Prim2SF y) = true -> 0 <= scaled (Prim2SF y) ->
  (y =? 0)%float = false ->
  exists my ey, Prim2SF y = S754_finite false my ey
                /\ bounded prec emax my ey = true.
Proof.
  intros F Hs. rewrite FloatAxioms.eqb_spec, Prim2SF_zero.
  pose proof (Prim2SF_valid y) as V.
  destruct (Prim2SF y) as [s|s| |s m e]; try discriminate.
  intros _. destruct (valid_finite_inv _ _ _ V) as (He & _).
  destruct s.
  - cbn [scaled cond_Zopp] in Hs.
      assert (0 < 2 ^ (e + 1074)) by (apply Z.pow_pos_nonneg; lia).
      assert (0 < Zpos m * 2 ^ (e + 1074)) by (apply Z.mul_pos_pos; lia). lia.
  - exists m, e. split; [reflexivity | exact V].
Qed.

Lemma div_nonneg (x y : float) :
  nonneg_sf (Prim2SF x) ->
  finite_sf (Prim2SF y) = true -> 0 <= scaled (Prim2SF y) ->
  (y =? 0)%float = false ->
  nonneg_sf (Prim2SF (x / y)).
Proof.
  intros Hx Fy Hy E. destruct (nonzero_positive y Fy Hy E) as (my & ey & Ey & By).
  rewrite FloatAxioms.div_spec, Ey.
  exact (proj1 (SFdiv_nonneg _ my ey (Prim2SF_valid x) By Hx)).
Qed.

Lemma within_nonneg (hi : Z) (x : float) : within 0 hi x -> nonneg_sf (Prim2SF x).
Proof.
  intros [F [H0 _]]. apply nonneg_sf_intro.
  - apply Prim2SF_valid.
  - intros H. rewrite H in F. discriminate.
  - lia.
Qed.

Lemma within_two : within (2 * one40) (2 * one40) 2.
Proof. apply within_b_sound. vm_compute. reflexivity. Qed.

Lemma within_one : within one40 one40 1.
Proof. apply within_b_sound. vm_compute. reflexivity. Qed.

Lemma saturation_nonneg (maxc minc l s : float) :
  within 0 one40 maxc -> within 0 one40 minc ->
  scaled (Prim2SF minc) <= scaled (Prim2SF maxc) ->
  lightness_saturation maxc minc = Ok (l, s) ->
  nonneg_sf (Prim2SF s).
Proof.
  intros Hmax Hmin Hle. unfold lightness_saturation, float_div.
  change (2 =? 0)%float with false. cbn [bind].
  assert (Hsum : within (0 + 0) (one40 + one40) (maxc + minc))
    by (apply add_within; (assumption || reflexivity)).
  assert (Hrange : within 0 (one40 - 0) (maxc - minc))
    by (apply (sub_within_nonneg _ _ _ _ _ _ Hmax Hmin Hle); reflexivity).
  destruct (minc =? maxc)%float.
  { intros H. injection H as _ <-. exact I. }
  destruct ((maxc + minc) / 2 <=? 0.5)%float.
  - destruct (maxc + minc =? 0)%float eqn:E0; [discriminate|].
    cbn [bind]. intros H. injection H as _ <-.
    destruct Hsum as [Fs [Hs0 _]].
    apply div_nonneg; [exact (within_nonneg _ _ Hrange) | exact Fs | lia | exact E0].
  - destruct (2 - (maxc + minc) =? 0)%float eqn:E0; [discriminate|].
    cbn [bind]. intros H. injection H as _ <-.
    assert (Hd : within (2 * one40 - (one40 + one40)) (2 * one40 - (0 + 0))
                        (2 - (maxc + minc)))
      by (apply sub_within; try assumption; (exact within_two || reflexivity)).
    destruct Hd as [Fd [Hd0 _]].
    apply div_nonneg; [exact (within_nonneg _ _ Hrange) | exact Fd | | exact E0].
    change (2 * one40 - (one40 + one40)) with 0 in Hd0. lia.
Qed.

Lemma Prim2SF_1_5 : Prim2SF 1.5 = S754_finite false 6755399441055744 (-52).
Proof. reflexivity. Qed.

(** The boosted saturation [min(1.0, s * 1.5)] lies between 0 and 1. *)
Lemma boosted_within (s : float) :
  nonneg_sf (Prim2SF s) -> within 0 one40 (min_one (s * 1.5)).
Proof.
  intros Hs. unfold min_one.
  assert (Hm : nonneg_sf (Prim2SF (s * 1.5))).
  { rewrite FloatAxioms.mul_spec, Prim2SF_1_5.
    exact (proj1 (SFmul_nonneg _ 6755399441055744 (-52) (Prim2SF_valid s) eq_refl Hs)). }
  destruct (nonneg_sf_scaled _ Hm) as [Nm Hm0].
  destruct (s * 1.5 <? 1)%float eqn:E.
  - rewrite ltb_scaled in E by (try assumption; rewrite Prim2SF_one; discriminate).
    apply Z.ltb_lt in E. rewrite scaled_one in E.
    split; [|rewrite one40_grid; lia].
    destruct (Prim2SF (s * 1.5)) as [sg|sg| |sg m e]; try reflexivity; try congruence.
    cbn [nonneg_sf] in Hm. subst sg. cbn [scaled cond_Zopp] in E.
    assert (2 ^ 1074 < 2 ^ 2200) by (apply Z.pow_lt_mono_r; lia). lia.
  - apply (within_weaken _ _ _ _ _ within_one); unfold one40; lia.
Qed.

(** *** The prime colour is a colour *)

Lemma within_255 : within c255 c255 255.
Proof. apply within_b_sound. vm_compute. reflexivity. Qed.

Lemma channel_byte (c : float) (n : Z) :
  within 0 vmax c -> int_of_float (c * 255) = Ok n -> 0 <= n <= 255.
Proof.
  intros Hc Hn.
  assert (Hp : within (mul_lo 0 c255 c255) (mul_hi vmax c255 c255) (c * 255)).
  { apply mul_within; try assumption; [exact within_255 | | |]; try reflexivity.
    unfold c255. lia. }
  destruct (int_of_float_byte (c * 255) (mul_hi vmax c255 c255)) as (n' & Hn' & Hr).
  - exact Hp.
  - reflexivity.
  - congruence.
Qed.

Lemma colored_channels (f : colored -> Byte.byte) (b_pixels : list colored) :
  Forall (fun z => 0 <= z <= 255) (map (fun p => chan (f p)) b_pixels).
Proof. apply Forall_forall. intros z Hz. apply in_map_iff in Hz.
  destruct Hz as (p & <- & _). apply chan_range. Qed.

Lemma rgb_to_hls_saturation_nonneg (r g b h l s : float) :
  within 0 one40 r -> within 0 one40 g -> within 0 one40 b ->
  rgb_to_hls r g b = Ok (h, l, s) -> nonneg_sf (Prim2SF s).
Proof.
  intros Hr Hg Hb H. apply rgb_to_hls_lightness_saturation in H.
  apply (saturation_nonneg _ _ l s (max3_within _ _ _ _ _ Hr Hg Hb)
           (min3_within _ _ _ _ _ Hr Hg Hb)); [|exact H].
  apply min3_le_max3;
    [exact (within_not_nan _ _ _ Hr) | exact (within_not_nan _ _ _ Hg)
    | exact (within_not_nan _ _ _ Hb)].
Qed.

(** Every channel of the prime colour lies in [[0, 255]]. *)
Lemma described_prime_color_range (b_pixels : list colored) (r g b : Z) :
  described_prime_color int_of_float b_pixels = Ok (r, g, b) ->
  0 <= r <= 255 /\ 0 <= g <= 255 /\ 0 <= b <= 255.
Proof.
  unfold described_prime_color, mean_rgb. intros H.
  apply bind_ok in H. destruct H as ([[mr mg] mb] & Hmean & H).
  apply bind_ok in Hmean. destruct Hmean as (mr' & Hmr & Hmean).
  apply bind_ok in Hmean. destruct Hmean as (mg' & Hmg & Hmean).
  apply bind_ok in Hmean. destruct Hmean as (mb' & Hmb & Hmean).
  injection Hmean as -> -> ->.
  apply channel_mean_within in Hmr, Hmg, Hmb; try apply colored_channels.
  apply div_255_within in Hmr, Hmg, Hmb.
  apply bind_ok in H. destruct H as ([[h l] s] & Hhls & H).
  pose proof (rgb_to_hls_saturation_nonneg _ _ _ _ _ _ Hmr Hmg Hmb Hhls) as Hs.
  cbn [boost] in H.
  pose proof (hls_to_rgb_within h _ (boosted_within s Hs)) as Hc.
  unfold min_one in Hc.
  destruct (hls_to_rgb h 0.55 (if (s * 1.5 <? 1)%float then (s * 1.5)%float else 1%float))
    as [[nr ng] nb].
  destruct Hc as (Hnr & Hng & Hnb).
  apply bind_ok in H. destruct H as (ir & Hir & H).
  apply bind_ok in H. destruct H as (ig & Hig & H).
  apply bind_ok in H. destruct H as (ib & Hib & H).
  injection H as <- <- <-.
  split; [exact (channel_byte _ _ Hnr Hir)|].
  split; [exact (channel_byte _ _ Hng Hig) | exact (channel_byte _ _ Hnb Hib)].
Qed.

Lemma prime_color_range (b_pixels : list colored) (c : rgb) :
  prime_color b_pixels = Ok c -> byte_color c.
Proof.
  destruct c as [[r g] b]. rewrite prime_color_described.
  apply described_prime_color_range.
Qed.

(** *** The prime colour is returned *)

Lemma eqb_scaled (x y : float) :
  Prim2SF x <> S754_nan -> Prim2SF y <> S754_nan ->
  (x =? y)%float = (scaled (Prim2SF x) =? scaled (Prim2SF y)).
Proof.
  intros Nx Ny. rewrite FloatAxioms.eqb_spec. unfold SFeqb.
  rewrite (SFcompare_scaled _ _ (Prim2SF_valid x) (Prim2SF_valid y) Nx Ny).
  destruct (Z.compare_spec (scaled (Prim2SF x)) (scaled (Prim2SF y))) as [E | E | E].
  - rewrite E. symmetry. apply Z.eqb_refl.
  - symmetry. apply Z.eqb_neq. lia.
  - symmetry. apply Z.eqb_neq. lia.
Qed.

Lemma positive_not_zero (x : float) :
  finite_sf (Prim2SF x) = true -> 0 < scaled (Prim2SF x) -> (x =? 0)%float = false.
Proof.
  intros F H. rewrite eqb_scaled.
  - rewrite Prim2SF_zero. cbn [scaled]. apply Z.eqb_neq. lia.
  - intros E. rewrite E in F. discriminate.
  - rewrite Prim2SF_zero. discriminate.
Qed.

(** The mean of a channel is 255 or at most [255 - 2^-32]. *)
Lemma channel_mean_unit (xs : list Z) (x : float) :
  Forall (fun z => 0 <= z <= 255) xs ->
  0 < PyList.len xs <= bucket_limit ->
  channel_mean xs = Ok x ->
  within c255 c255 x \/ within 0 (c255 - 256) x.
Proof.
  intros H Hn. unfold channel_mean, int_sum.
  pose proof (fold_add_range xs 0 H) as Hs. fold (PyList.len xs) in Hs.
  set (S := fold_left Z.add xs 0) in *. set (n := PyList.len xs) in *.
  unfold bucket_limit in Hn. clearbody S n. intros Hx.
  destruct (Z.eq_dec S (255 * n)) as [-> | Hne].
  - left. apply (int_truediv_enclosed (255 * n) n c255 c255 x);
      [lia | lia | reflexivity | reflexivity | unfold c255, one40; lia | exact Hx].
  - right. apply (int_truediv_enclosed S n 0 (c255 - 256) x);
      [lia | lia | reflexivity | reflexivity | unfold c255, one40; lia | exact Hx].
Qed.

Lemma mean_unit_value (xs : list Z) (x : float) :
  Forall (fun z => 0 <= z <= 255) xs ->
  0 < PyList.len xs <= bucket_limit ->
  channel_mean xs = Ok x -> unit_value (x / 255).
Proof.
  intros H Hn Hx. destruct (channel_mean_unit xs x H Hn Hx) as [Hc | Hc].
  - left. apply (div_255_enclosed x c255 c255 one40 one40);
      [exact Hc | reflexivity | reflexivity | |]; unfold c255, one40; lia.
  - right. apply (div_255_enclosed x 0 (c255 - 256) 0 (one40 - 1));
      [exact Hc | reflexivity | reflexivity | |]; unfold c255, one40; lia.
Qed.

Lemma unit_value_within (x : float) : unit_value x -> within 0 one40 x.
Proof.
  intros [H | H]; apply (within_weaken _ _ _ _ _ H); unfold one40; lia.
Qed.

Lemma max3_unit (a b c : float) :
  unit_value a -> unit_value b -> unit_value c -> unit_value (max3 a b c).
Proof. intros Ha Hb Hc. destruct (max3_cases a b c) as [-> | [-> | ->]]; assumption. Qed.

Lemma min3_unit (a b c : float) :
  unit_value a -> unit_value b -> unit_value c -> unit_value (min3 a b c).
Proof. intros Ha Hb Hc. destruct (min3_cases a b c) as [-> | [-> | ->]]; assumption. Qed.

Lemma within_exact (k : Z) (x : float) :
  within k k x -> scaled (Prim2SF x) = k * grid.
Proof. intros [_ [H0 H1]]. lia. Qed.

(** [rgb_to_hls] raises no ZeroDivisionError on the channels of a mean
    colour. *)
Lemma rgb_to_hls_returns (r g b : float) :
  unit_value r -> unit_value g -> unit_value b ->
  exists hls, rgb_to_hls r g b = Ok hls.
Proof.
  intros Hr Hg Hb. unfold rgb_to_hls, float_div.
  change (2 =? 0)%float with false. change (6 =? 0)%float with false.
  cbv zeta. cbn [bind].
  pose proof (max3_unit _ _ _ Hr Hg Hb) as Umax.
  pose proof (min3_unit _ _ _ Hr Hg Hb) as Umin.
  pose proof (unit_value_within _ Umax) as Hmax.
  pose proof (unit_value_within _ Umin) as Hmin.
  pose proof (min3_le_max3 r g b (within_not_nan _ _ _ (unit_value_within _ Hr))
                (within_not_nan _ _ _ (unit_value_within _ Hg))
                (within_not_nan _ _ _ (unit_value_within _ Hb))) as Hle.
  set (maxc := max3 r g b) in *. set (minc := min3 r g b) in *.
  destruct (minc =? maxc)%float eqn:E; [eexists; reflexivity|].
  rewrite eqb_scaled in E
    by (eapply within_not_nan; eassumption).
  apply Z.eqb_neq in E.
  pose proof grid_pos as Hg0.
  destruct Hmax as [Fmax [Hmax0 Hmax1]]. destruct Hmin as [Fmin [Hmin0 Hmin1]].
  set (X := scaled (Prim2SF maxc)) in *. set (Y := scaled (Prim2SF minc)) in *.
  assert (HY : Y <= (one40 - 1) * grid).
  { destruct Umin as [H1 | [_ [_ H1]]]; [|exact H1].
    apply within_exact in H1. fold Y in H1. lia. }
  (* the sum, the range and [2.0 - sumc] are above zero *)
  assert (Hsum : finite_sf (Prim2SF (maxc + minc)) = true
                 /\ 1 <= scaled (Prim2SF (maxc + minc)) <= (one40 + (one40 - 1)) * grid).
  { rewrite FloatAxioms.add_spec.
    destruct (SFadd_within (Prim2SF maxc) (Prim2SF minc) 1 ((one40 + (one40 - 1)) * grid)
                (Prim2SF_valid _) (Prim2SF_valid _) Fmax Fmin float_mag_unit
                (small_float_mag (one40 + (one40 - 1)) eq_refl)) as (F & H & _).
    - fold X Y. rewrite Z.mul_add_distr_r. lia.
    - split; assumption. }
  assert (Hrange : finite_sf (Prim2SF (maxc - minc)) = true
                   /\ 1 <= scaled (Prim2SF (maxc - minc))).
  { rewrite FloatAxioms.sub_spec.
    destruct (SFsub_within (Prim2SF maxc) (Prim2SF minc) 1 (one40 * grid)
                (Prim2SF_valid _) (Prim2SF_valid _) Fmax Fmin float_mag_unit
                (small_float_mag one40 eq_refl)) as (F & H & _).
    - fold X Y. lia.
    - split; [exact F | apply H]. }
  assert (Hrest : finite_sf (Prim2SF (2 - (maxc + minc))) = true
                  /\ 1 <= scaled (Prim2SF (2 - (maxc + minc)))).
  { destruct Hsum as [Fs [Hs0 Hs1]]. rewrite FloatAxioms.sub_spec.
    destruct (SFsub_within (Prim2SF 2) (Prim2SF (maxc + minc)) 1 ((2 * one40) * grid)
                (Prim2SF_valid _) (Prim2SF_valid _) eq_refl Fs float_mag_unit
                (small_float_mag (2 * one40) eq_refl)) as (F & H & _).
    - rewrite (within_exact _ _ within_two).
      set (Z0 := scaled (Prim2SF (maxc + minc))) in *.
      replace (2 * one40 * grid) with ((one40 + (one40 - 1)) * grid + grid) by ring.
      clear Fs Fmax Fmin. lia.
    - split; [exact F | apply H]. }
  rewrite (positive_not_zero (maxc - minc)) by (destruct Hrange; (assumption || lia)).
  destruct ((maxc + minc) / 2 <=? 0.5)%float.
  - rewrite (positive_not_zero (maxc + minc)) by (destruct Hsum; (assumption || lia)).
    cbn [bind]. eexists; reflexivity.
  - rewrite (positive_not_zero (2 - (maxc + minc)))
      by (destruct Hrest; (assumption || lia)).
    cbn [bind]. eexists; reflexivity.
Qed.

(** The prime colour of a bucket that is not empty and has at most [2^32]
    members is returned: no division by zero, no conversion of a NaN or of
    an infinity. *)
Lemma prime_color_returns (b_pixels : list colored) :
  b_pixels <> [] -> PyList.len b_pixels <= bucket_limit ->
  exists c, prime_color b_pixels = Ok c.
Proof.
  intros Hne Hlen. rewrite prime_color_described.
  unfold described_prime_color, mean_rgb.
  assert (Hn : 0 < PyList.len b_pixels).
  { unfold PyList.len. destruct b_pixels; [congruence | cbn [List.length]; lia]. }
  assert (Hmean : forall f : colored -> Byte.byte,
            exists x, channel_mean (map (fun p => chan (f p)) b_pixels) = Ok x
                      /\ unit_value (x / 255)).
  { intros f. unfold channel_mean at 1.
    destruct (int_truediv_ok (int_sum (map (fun p => chan (f p)) b_pixels))
                (PyList.len (map (fun p => chan (f p)) b_pixels))) as [x Hx].
    - unfold PyList.len. rewrite length_map. fold (PyList.len b_pixels). lia.
    - exists x. split; [exact Hx|].
      apply (mean_unit_value (map (fun p => chan (f p)) b_pixels));
        [apply colored_channels | | exact Hx].
      unfold PyList.len. rewrite length_map. fold (PyList.len b_pixels). lia. }
  destruct (Hmean c_r) as (mr & -> & Ur). destruct (Hmean c_g) as (mg & -> & Ug).
  destruct (Hmean c_b) as (mb & -> & Ub). cbn [bind].
  destruct (rgb_to_hls_returns _ _ _ Ur Ug Ub) as ([[h l] s] & Hhls).
  rewrite Hhls. cbn [bind boost].
  pose proof (rgb_to_hls_saturation_nonneg _ _ _ _ _ _ (unit_value_within _ Ur)
                (unit_value_within _ Ug) (unit_value_within _ Ub) Hhls) as Hs.
  pose proof (hls_to_rgb_within h _ (boosted_within s Hs)) as Hc.
  unfold min_one in Hc.
  destruct (hls_to_rgb h 0.55 (if (s * 1.5 <? 1)%float then (s * 1.5)%float else 1%float))
    as [[nr ng] nb].
  destruct Hc as (Hnr & Hng & Hnb).
  assert (Hint : forall c, within 0 vmax c -> exists n, int_of_float (c * 255) = Ok n).
  { intros c Hc.
    assert (Hp : within (mul_lo 0 c255 c255) (mul_hi vmax c255 c255) (c * 255)).
    { apply mul_within; try assumption; [exact within_255 | | |]; try reflexivity.
      unfold c255. lia. }
    destruct (int_of_float_byte (c * 255) (mul_hi vmax c255 c255) Hp eq_refl)
      as (n & Hn' & _).
    exists n. exact Hn'. }
  destruct (Hint nr Hnr) as [ir ->]. destruct (Hint ng Hng) as [ig ->].
  destruct (Hint nb Hnb) as [ib ->]. cbn [bind]. eexists; reflexivity.
Qed.

(** *** The best bucket is not empty *)

Lemma scan_step_chosen (bs : list (list colored)) (k : nat) (sc : scan) :
  (k < List.length bs)%nat ->
  scan_chosen bs k sc ->
  exists sc', scan_step bs sc (Z.of_nat k) = Ok sc' /\ scan_chosen bs (S k) sc'.
Proof.
  intros Hk Hinv. unfold scan_step.
  destruct (nth_error bs k) as [b|] eqn:Hb; [|apply nth_error_None in Hb; lia].
  rewrite (get_nat bs k b Hb). cbn [bind].
  assert (Hmax : Prim2SF (max_strength sc) <> S754_nan
                 /\ 0 <= scaled (Prim2SF (max_strength sc))).
  { destruct Hinv as [(_ & ->) | (i & b' & _ & _ & _ & _ & Hn & Hp)].
    - rewrite Prim2SF_zero. split; [discriminate | cbn [scaled]; lia].
    - split; [exact Hn | lia]. }
  destruct (max_strength sc <? strength b)%float eqn:Hcmp.
  - destruct (ltb_true_not_nan _ _ Hcmp) as [_ Ns].
    rewrite ltb_scaled in Hcmp by tauto. apply Z.ltb_lt in Hcmp.
    eexists; split; [reflexivity|]. right. exists k, b.
    cbn [best_bucket max_strength].
    split; [lia|]. split; [reflexivity|]. split; [exact Hb|].
    split; [|split; [exact Ns | lia]].
    intros ->. rewrite strength_nil, Prim2SF_zero in Hcmp. cbn [scaled] in Hcmp. lia.
  - eexists; split; [reflexivity|].
    destruct Hinv as [(Hbest & Hm) | (i & b' & Hi & Hbest & Hbi & Hne & Hn & Hp)].
    + left. cbn [best_bucket max_strength]. split; assumption.
    + right. exists i, b'. cbn [best_bucket max_strength].
      repeat split; auto; lia.
Qed.

Lemma find_strongest_chosen (bs : list (list colored)) (sc : scan) :
  List.length bs = 36%nat -> find_strongest bs = Ok sc ->
  best_bucket sc <> -1 ->
  exists b, PyList.get bs (best_bucket sc) = Ok b /\ b <> [].
Proof.
  intros Hlen Hsc Hbest.
  destruct (for_each_range_invariant (scan_step bs) (scan_chosen bs) 36 scan_start)
    as (sc' & Hsc' & Hinv).
  - intros k s Hk. apply scan_step_chosen. lia.
  - left. split; reflexivity.
  - unfold find_strongest in Hsc. assert (sc' = sc) by congruence. subst sc'.
    destruct Hinv as [(Hb & _) | (i & b & Hi & Hb & Hbi & Hne & _)]; [contradiction|].
    exists b. rewrite Hb. split; [apply get_nat; exact Hbi | exact Hne].
Qed.

(** C2 (as amended). Whenever a dominant hue is accepted, the best bucket
    has members and the returned colour is: the per-channel arithmetic mean
    of the (r, g, b) of the best bucket's members, converted to HLS, with the
    lightness overridden to 0.55 and the saturation multiplied by 1.5 and
    capped at 1.0 while the hue is unchanged, converted back to RGB, each
    channel multiplied by 255 and truncated toward zero (not rounded to the
    nearest integer) to an integer, which lies in [0, 255].  The colour is
    returned, no exception is raised, when the best bucket has at most 2^32
    members. *)
Theorem C2_prime_color_is_truncated (st : classes) (sc : scan) :
  List.length (buckets st) = 36%nat ->
  find_strongest (buckets st) = Ok sc ->
  dominant_accepted sc (total_non_transparent st) = true ->
  exists b_pixels,
    PyList.get (buckets st) (best_bucket sc) = Ok b_pixels
    /\ b_pixels <> []
    /\ select st = (c <- described_prime_color int_of_float b_pixels ;; Ok (Prime c))
    /\ (forall c, select st = Ok (Prime c) -> byte_color c)
    /\ (PyList.len b_pixels <= bucket_limit -> exists c, select st = Ok (Prime c)).
Proof.
  intros Hlen Hsc Hacc.
  pose proof (proj1 (dominant_accepted_iff _ _) Hacc) as [Hb _].
  destruct (find_strongest_chosen (buckets st) sc Hlen Hsc Hb) as (b & Hget & Hne).
  exists b. split; [exact Hget|]. split; [exact Hne|].
  rewrite (select_accepted st sc Hsc Hacc), Hget. cbn [bind].
  split; [rewrite prime_color_described; reflexivity|]. split.
  - intros c Hc. destruct (prime_color b) as [c0|e] eqn:E; cbn [bind] in Hc; [|discriminate].
    injection Hc as <-. exact (prime_color_range b c0 E).
  - intros Hsize. destruct (prime_color_returns b Hne Hsize) as [c ->].
    exists c. reflexivity.
Qed.

(** One opaque red pixel: bucket 0 is accepted and the colour returned is
    the described one, (255, 25, 25), a triple of bytes. *)
Lemma C2_prime_color_is_truncated_witness :
  exists sc b_pixels,
    find_strongest (buckets (red_classes 1)) = Ok sc
    /\ PyList.get (buckets (red_classes 1)) (best_bucket sc) = Ok b_pixels
    /\ b_pixels <> []
    /\ select (red_classes 1)
       = (c <- described_prime_color int_of_float b_pixels ;; Ok (Prime c))
    /\ select (red_classes 1) = Ok (Prime (255, 25, 25))
    /\ byte_color (255, 25, 25).
Proof.
  eexists.
  destruct (C2_prime_color_is_truncated (red_classes 1) _ eq_refl
              ltac:(vm_compute; reflexivity) ltac:(vm_compute; reflexivity))
    as (b & Hget & Hne & Hsel & Hrange & _).
  exists b. split; [vm_compute; reflexivity|].
  split; [exact Hget|]. split; [exact Hne|]. split; [exact Hsel|].
  split; [vm_compute; reflexivity|].
  apply Hrange. vm_compute. reflexivity.
Defined.

(** C2, the claim as stated, fails on a bucket whose only member is red:
    green and blue come back from HLS as 0.1000...09, which times 255 is
    25.5000...02; the code truncates it to 25, the nearest integer is 26. *)
Lemma C2_counterexample_not_rounded :
  classify [red_pixel] = Ok (red_classes 1)
  /\ select (red_classes 1) = Ok (Prime (255, 25, 25))
  /\ described_prime_color round_nearest [red_member] = Ok (255, 26, 26)
  /\ (255, 25, 25) <> (255, 26, 26).
Proof.
  split; [vm_compute; reflexivity|]. split; [vm_compute; reflexivity|].
  split; [vm_compute; reflexivity | discriminate].
Qed.

(** ** An icon of opaque red pixels *)

Lemma alter_alter {A : Type} (f g : A -> A) (k : nat) (l : list A) :
  PyList.alter f k (PyList.alter g k l) = PyList.alter (fun x => f (g x)) k l.
Proof.
  revert k; induction l as [|x l IH]; intros [|k]; cbn; try reflexivity.
  f_equal. apply IH.
Qed.

Lemma alter_ext {A : Type} (f g : A -> A) (k : nat) (l : list A) :
  (forall x, f x = g x) -> PyList.alter f k l = PyList.alter g k l.
Proof.
  intros H. revert k; induction l as [|x l IH]; intros [|k]; cbn; try reflexivity.
  - f_equal. apply H.
  - f_equal. apply IH.
Qed.

Lemma red_hls :
  rgb_to_hls (channel_float Byte.xff) (channel_float Byte.x00) (channel_float Byte.x00)
  = Ok (0%float, 0.5%float, 1%float).
Proof. vm_compute. reflexivity. Qed.

Lemma hue_index_zero : hue_index 0 = Ok 0.
Proof. vm_compute. reflexivity. Qed.

Lemma classify_pixel_red (st : classes) (px : pixel) :
  opaque_red px -> buckets st <> [] ->
  classify_pixel st px
  = Ok {| buckets := PyList.alter (fun b => b ++ [red_member]) 0 (buckets st);
          greys := greys st;
          total_non_transparent := total_non_transparent st + 1 |}.
Proof.
  intros (a & -> & Ha) Hne. unfold classify_pixel.
  apply Z.ltb_ge in Ha. rewrite Ha.
  rewrite !int_truediv_channel. cbn [bind]. rewrite red_hls. cbn [bind].
  change ((0.5 <? 0.1)%float || (0.95 <? 0.5)%float) with false.
  change (1 <? 0.20)%float with false. cbv iota.
  rewrite hue_index_zero. cbn [bind].
  unfold PyList.append_at.
  assert (Hp : PyList.position (buckets st) 0 = Ok 0%nat).
  { apply (position_nat (buckets st) 0). destruct (buckets st); [congruence | cbn; lia]. }
  rewrite Hp. reflexivity.
Qed.

Lemma classify_from_red (pxs : list pixel) :
  forall st, Forall opaque_red pxs -> buckets st <> [] ->
  classify_from st pxs
  = Ok {| buckets := PyList.alter (fun b => b ++ repeat red_member (List.length pxs))
                                  0 (buckets st);
          greys := greys st;
          total_non_transparent := total_non_transparent st + PyList.len pxs |}.
Proof.
  unfold classify_from, PyList.len.
  induction pxs as [|px pxs IH]; intros st Hred Hne.
  - cbn. f_equal. destruct st as [bs gs n]. cbn. f_equal; [|lia].
    destruct bs; [reflexivity|]. cbn. rewrite app_nil_r. reflexivity.
  - inversion Hred; subst. cbn [PyList.for_each].
    rewrite (classify_pixel_red st px) by assumption. cbn [bind].
    rewrite IH; [|assumption|].
    + cbn [buckets greys total_non_transparent]. rewrite alter_alter. f_equal. f_equal.
      * apply alter_ext. intros b. rewrite <- app_assoc. reflexivity.
      * cbn [List.length]. lia.
    + cbn [buckets]. destruct (buckets st); [congruence | discriminate].
Qed.

Lemma flat_map_rows_length {A : Type} (f : nat -> nat -> A) (w : nat) (rows : list nat) :
  List.length (flat_map (fun y => map (fun x => f x y) (seq 0 w)) rows)
  = (List.length rows * w)%nat.
Proof.
  induction rows as [|y rows IH]; cbn; [reflexivity|].
  rewrite length_app, length_map, length_seq, IH. reflexivity.
Qed.

Lemma pixel_sequence_length (img : image) :
  List.length (pixel_sequence img) = (height img * width img)%nat.
Proof. unfold pixel_sequence. rewrite flat_map_rows_length, length_seq. reflexivity. Qed.

Lemma pixel_sequence_Forall (P : pixel -> Prop) (img : image) :
  (forall x y, (x < width img)%nat -> (y < height img)%nat -> P (load img x y)) ->
  Forall P (pixel_sequence img).
Proof.
  intros H. unfold pixel_sequence. apply Forall_flat_map, Forall_forall.
  intros y Hy. apply in_seq in Hy. apply Forall_map, Forall_forall.
  intros x Hx. apply in_seq in Hx. apply H; lia.
Qed.

Lemma select_red_icon : select (red_classes 4096) = Ok (Prime (255, 25, 25)).
Proof. vm_compute. reflexivity. Qed.

Lemma scan_red_icon :
  exists sc, find_strongest (buckets (red_classes 4096)) = Ok sc
    /\ best_bucket sc = 0 /\ total_colored_pixels sc = 4096
    /\ dominant_accepted sc 4096 = true.
Proof. eexists. split; [vm_compute; reflexivity|]. repeat split; vm_compute; reflexivity. Qed.

(** C8 (as amended). For an icon all of whose pixels are opaque and of RGB
    (255, 0, 0), hue bucket 0 is dominant, the coverage check passes (4096 of
    4096 pixels) and the colour is (255, 25, 25), the truncated value of
    HLS to RGB at h = 0, l = 0.55, s = 1.0; the hex recorded for the item is
    #ff1919. *)
Theorem C8_all_red_icon (sprite : sprite_sheet) (w : walk) (it : item) :
  let sx := (iconIndex it mod COLS) * ICON_SIZE in
  let sy := (iconIndex it / COLS) * ICON_SIZE in
  0 <= iconIndex it ->
  sx + ICON_SIZE <= sheet_width sprite ->
  sy + ICON_SIZE <= sheet_height sprite ->
  (forall x y, sx <= x < sx + ICON_SIZE -> sy <= y < sy + ICON_SIZE ->
     exists a, sheet_pixel sprite x y = (Byte.xff, Byte.x00, Byte.x00, a)
               /\ 64 <= chan a) ->
  classify (pixel_sequence (crop sprite sx sy)) = Ok (red_classes 4096)
  /\ (exists sc, find_strongest (buckets (red_classes 4096)) = Ok sc
        /\ best_bucket sc = 0 /\ total_colored_pixels sc = 4096
        /\ dominant_accepted sc 4096 = true)
  /\ calculate_average_color (crop sprite sx sy) = Ok (Some (255, 25, 25), 4096)
  /\ hex_color (255, 25, 25) = "#ff1919"%string
  /\ walk_item sprite w it
     = Ok {| colors := PyDict.set (id it) "#ff1919"%string (colors w);
             log_lines := log_lines w |}.
Proof.
  intros sx sy Hidx Hw Hh Hred.
  assert (Hsx : 0 <= sx).
  { unfold sx, COLS, ICON_SIZE. pose proof (Z.mod_pos_bound (iconIndex it) 23). lia. }
  assert (Hsy : 0 <= sy).
  { unfold sy, COLS, ICON_SIZE. pose proof (Z.div_pos (iconIndex it) 23). lia. }
  assert (Hclass : classify (pixel_sequence (crop sprite sx sy)) = Ok (red_classes 4096)).
  { unfold classify. rewrite classify_from_red.
    - unfold PyList.len. rewrite pixel_sequence_length. reflexivity.
    - apply pixel_sequence_Forall. cbn [width height load crop]. intros x y Hx Hy.
      change (Z.to_nat ICON_SIZE) with 64%nat in Hx, Hy. unfold ICON_SIZE in *.
      destruct (Hred (sx + Z.of_nat x) (sy + Z.of_nat y) ltac:(lia) ltac:(lia))
        as (a & Hpx & Ha).
      assert (Hin : (0 <=? sx + Z.of_nat x) && (sx + Z.of_nat x <? sheet_width sprite)
                    && (0 <=? sy + Z.of_nat y) && (sy + Z.of_nat y <? sheet_height sprite)
                    = true).
      { repeat (apply andb_true_iff; split);
          (apply Z.leb_le || apply Z.ltb_lt); lia. }
      rewrite Hin, Hpx. exists a. split; [reflexivity | exact Ha].
    - discriminate. }
  assert (Hcalc : calculate_average_color (crop sprite sx sy)
                  = Ok (Some (255, 25, 25), 4096)).
  { unfold calculate_average_color. rewrite Hclass. cbn [bind].
    rewrite select_red_icon. reflexivity. }
  split; [exact Hclass|]. split; [exact scan_red_icon|]. split; [exact Hcalc|].
  split; [reflexivity|].
  unfold walk_item. fold sx sy.
  assert (Hb : (sheet_height sprite <? sy + ICON_SIZE) = false) by (apply Z.ltb_ge; lia).
  rewrite Hb, Hcalc. reflexivity.
Qed.

Lemma C8_all_red_icon_witness :
  calculate_average_color
    (crop (flat_sheet (Byte.xff, Byte.x00, Byte.x00, Byte.xff)) 0 0)
  = Ok (Some (255, 25, 25), 4096)
  /\ walk_item (flat_sheet (Byte.xff, Byte.x00, Byte.x00, Byte.xff))
       {| colors := []; log_lines := [] |} (item_at "ore" 0)
     = Ok {| colors := [("ore", "#ff1919")]%string; log_lines := [] |}.
Proof.
  pose proof (C8_all_red_icon (flat_sheet (Byte.xff, Byte.x00, Byte.x00, Byte.xff))
                {| colors := []; log_lines := [] |} (item_at "ore" 0)) as H.
  cbv zeta in H.
  destruct H as (_ & _ & Hc & _ & Hw).
  - cbn; lia.
  - vm_compute; discriminate.
  - vm_compute; discriminate.
  - intros x y _ _. exists Byte.xff. split; [reflexivity | vm_compute; discriminate].
  - split; [exact Hc | exact Hw].
Defined.

(** C8, the claim as stated, fails on the icon of its own scenario: every
    pixel opaque and of RGB (255, 0, 0).  HLS to RGB at h = 0, l = 0.55,
    s = 1.0 is (1.0, 0.1000...09, 0.1000...09), which gives (255, 25, 25), and
    [main] records #ff1919, not #e62929. *)
Lemma C8_counterexample_hex_is_ff1919 :
  hls_to_rgb 0 0.55 1 = (1, 0.10000000000000009, 0.10000000000000009)%float
  /\ (exists w, main (Some (flat_sheet (Byte.xff, Byte.x00, Byte.x00, Byte.xff)))
                     [item_at "ore" 0] = Ok (Some w)
                /\ colors w = [("ore", "#ff1919")]%string)
  /\ "#ff1919"%string <> "#e62929"%string.
Proof.
  split; [vm_compute; reflexivity|]. split; [|discriminate].
  eexists. split; vm_compute; reflexivity.
Qed.

(** ** Dicts *)

Lemma dict_get_set_same {V : Type} (k : string) (v : V) (d : list (string * V)) :
  PyDict.get k (PyDict.set k v d) = Some v.
Proof.
  induction d as [|[k' v'] d IH]; cbn.
  - rewrite String.eqb_refl. reflexivity.
  - destruct (String.eqb k k') eqn:E; cbn; rewrite ?String.eqb_refl, ?E; auto.
Qed.

Lemma dict_get_set_other {V : Type} (k k0 : string) (v : V) (d : list (string * V)) :
  k <> k0 -> PyDict.get k (PyDict.set k0 v d) = PyDict.get k d.
Proof.
  intros Hne. induction d as [|[k' v'] d IH]; cbn.
  - apply String.eqb_neq in Hne. rewrite Hne. reflexivity.
  - destruct (String.eqb k0 k') eqn:E; cbn.
    + apply String.eqb_eq in E. subst k'.
      apply String.eqb_neq in Hne. rewrite Hne. reflexivity.
    + rewrite IH. reflexivity.
Qed.

Lemma dict_set_in {V : Type} (k k0 : string) (v v0 : V) (d : list (string * V)) :
  In (k, v) (PyDict.set k0 v0 d) -> (k, v) = (k0, v0) \/ In (k, v) d.
Proof.
  induction d as [|[k' v'] d IH]; cbn.
  - intros [H|[]]; auto.
  - destruct (String.eqb k0 k') eqn:E; cbn; intros [H|H]; auto.
    destruct (IH H); auto.
Qed.

Lemma dict_set_keys_in {V : Type} (k k0 : string) (v0 : V) (d : list (string * V)) :
  In k (PyDict.keys (PyDict.set k0 v0 d)) -> k = k0 \/ In k (PyDict.keys d).
Proof.
  unfold PyDict.keys. induction d as [|[k' v'] d IH]; cbn.
  - intros [H|[]]; auto.
  - destruct (String.eqb k0 k') eqn:E; cbn; intros [H|H].
    + left. symmetry. exact H.
    + right. right. exact H.
    + right. left. exact H.
    + destruct (IH H); auto.
Qed.

Lemma dict_set_keys_present {V : Type} (k : string) (v v0 : V) (d : list (string * V)) :
  PyDict.get k d = Some v0 -> PyDict.keys (PyDict.set k v d) = PyDict.keys d.
Proof.
  unfold PyDict.keys. induction d as [|[k' v'] d IH]; cbn; [discriminate|].
  destruct (String.eqb k k') eqn:E; cbn.
  - apply String.eqb_eq in E. subst. reflexivity.
  - intros H. rewrite IH by assumption. reflexivity.
Qed.

(** A dict has at most one entry per key, and an assignment keeps it so. *)
Lemma dict_set_NoDup {V : Type} (k : string) (v : V) (d : list (string * V)) :
  NoDup (PyDict.keys d) -> NoDup (PyDict.keys (PyDict.set k v d)).
Proof.
  unfold PyDict.keys. induction d as [|[k' v'] d IH]; cbn; intros H.
  - constructor; [intros [] | constructor].
  - inversion H; subst. destruct (String.eqb k k') eqn:E; cbn.
    + apply String.eqb_eq in E. subst. constructor; assumption.
    + constructor; [|apply IH; assumption].
      intros Hin. apply (dict_set_keys_in k' k v d) in Hin.
      destruct Hin as [Heq|Hin]; [|contradiction].
      apply String.eqb_neq in E. congruence.
Qed.

(** ** The Atlas Walker *)

Lemma hex_color_not_empty (c : rgb) : hex_color c <> ""%string.
Proof. destruct c as [[r g] b]. discriminate. Qed.

Lemma walk_item_cases (sprite : sprite_sheet) (w w' : walk) (it : item) :
  walk_item sprite w it = Ok w' ->
  (item_fails sprite it /\ exists line, w' = diagnosed w line)
  \/ (item_succeeds sprite it
      /\ exists c n, calculate_average_color (cell sprite it) = Ok (Some c, n)
           /\ w' = {| colors := PyDict.set (id it) (hex_color c) (colors w);
                      log_lines := log_lines w |}).
Proof.
  unfold walk_item, item_fails, item_succeeds, out_of_bounds, cell.
  destruct (sheet_height sprite <? iconIndex it / COLS * ICON_SIZE + ICON_SIZE) eqn:Hb.
  - apply Z.ltb_lt in Hb. intros H. inversion H. left. split; [left; exact Hb|].
    eexists. reflexivity.
  - apply Z.ltb_ge in Hb.
    destruct (calculate_average_color _) as [[[c|] n]|e]; cbn [bind]; intros H;
      inversion H.
    + right. split; [split; [lia | eauto]|]. exists c, n. split; reflexivity.
    + left. split; [right; eauto|]. eexists. reflexivity.
Qed.

(** A failed item is diagnosed, and the walk goes on. *)
Lemma walk_item_fails (sprite : sprite_sheet) (w : walk) (it : item) :
  item_fails sprite it ->
  exists line, walk_item sprite w it = Ok (diagnosed w line).
Proof.
  unfold walk_item, item_fails, out_of_bounds, cell. intros [Hb | [n Hn]].
  - apply Z.ltb_lt in Hb. rewrite Hb. eexists. reflexivity.
  - destruct (sheet_height sprite <? _); [eexists; reflexivity|].
    rewrite Hn. cbn [bind]. eexists. reflexivity.
Qed.

Lemma fails_not_succeeds (sprite : sprite_sheet) (it : item) :
  item_fails sprite it -> item_succeeds sprite it -> False.
Proof.
  intros [Hb | [n Hn]] [Hnb (c & m & Hc)]; [contradiction | congruence].
Qed.

Lemma walk_items_colors (sprite : sprite_sheet) (items : list item) :
  forall w0 w, walk_items sprite items w0 = Ok w ->
  forall k v, In (k, v) (colors w) ->
    In (k, v) (colors w0)
    \/ (v <> ""%string
        /\ exists it, In it items /\ id it = k /\ item_succeeds sprite it).
Proof.
  unfold walk_items. induction items as [|it items IH]; intros w0 w H k v Hin; cbn in H.
  - inversion H; subst. auto.
  - apply bind_ok in H. destruct H as (w1 & H1 & H).
    destruct (IH w1 w H k v Hin) as [Hin1 | (Hv & it' & Hit' & Hid & Hs)].
    + destruct (walk_item_cases sprite w0 w1 it H1)
        as [(_ & line & ->) | (Hs & c & n & _ & ->)]; [left; exact Hin1|].
      cbn [colors] in Hin1. apply dict_set_in in Hin1.
      destruct Hin1 as [Heq | Hin0]; [|left; exact Hin0].
      inversion Heq; subst. right. split; [apply hex_color_not_empty|].
      exists it. split; [left; reflexivity | auto].
    + right. split; [assumption|]. exists it'. split; [right; assumption | auto].
Qed.

Lemma walk_items_NoDup (sprite : sprite_sheet) (items : list item) :
  forall w0 w, walk_items sprite items w0 = Ok w ->
  NoDup (PyDict.keys (colors w0)) -> NoDup (PyDict.keys (colors w)).
Proof.
  unfold walk_items. induction items as [|it items IH]; intros w0 w H Hnd; cbn in H.
  - inversion H; subst. assumption.
  - apply bind_ok in H. destruct H as (w1 & H1 & H). apply (IH w1 w H).
    destruct (walk_item_cases sprite w0 w1 it H1)
      as [(_ & line & ->) | (_ & c & n & _ & ->)]; cbn [colors diagnosed];
      [assumption | apply dict_set_NoDup; assumption].
Qed.

Lemma in_keys {V : Type} (k : string) (d : list (string * V)) :
  In k (PyDict.keys d) -> exists v, In (k, v) d.
Proof.
  unfold PyDict.keys. intros H. apply in_map_iff in H.
  destruct H as ([k' v] & Hk & Hin). cbn in Hk. subst. eauto.
Qed.

(** C6 (as amended). A per-item failure never interrupts the walk: when the
    bottom edge of an item's cell exceeds the height of the sheet, or the
    extraction yields no result, the item adds no entry to the output mapping,
    one diagnostic line is appended, and the walk goes on with the next item.
    In the mapping [main] returns there is at most one entry per item id,
    every entry is the non-empty colour of an item that succeeded, and the id
    of a failed item is absent unless another item of the same id succeeded. *)
Theorem C6_failures_are_diagnosed_and_skipped :
  (forall sprite w it rest, item_fails sprite it ->
     exists line,
       walk_item sprite w it = Ok (diagnosed w line)
       /\ walk_items sprite (it :: rest) w = walk_items sprite rest (diagnosed w line))
  /\ (forall sprite items w, main (Some sprite) items = Ok (Some w) ->
        NoDup (PyDict.keys (colors w))
        /\ (forall k v, In (k, v) (colors w) ->
              v <> ""%string
              /\ exists it, In it items /\ id it = k /\ item_succeeds sprite it)
        /\ (forall it, In it items -> item_fails sprite it ->
              (forall it', In it' items -> id it' = id it -> item_fails sprite it') ->
              ~ In (id it) (PyDict.keys (colors w)))).
Proof.
  split.
  - intros sprite w it rest Hf. destruct (walk_item_fails sprite w it Hf) as [line Hl].
    exists line. split; [exact Hl|]. unfold walk_items. cbn [PyList.for_each].
    rewrite Hl. reflexivity.
  - intros sprite items w H. unfold main in H.
    apply bind_ok in H. destruct H as (w' & Hw & H). inversion H; subst w'.
    assert (Hentries : forall k v, In (k, v) (colors w) ->
              v <> ""%string
              /\ exists it, In it items /\ id it = k /\ item_succeeds sprite it).
    { intros k v Hin.
      destruct (walk_items_colors sprite items _ w Hw k v Hin) as [[] | Hs]. exact Hs. }
    split; [|split].
    + apply (walk_items_NoDup sprite items _ w Hw). constructor.
    + exact Hentries.
    + intros it Hit Hf Hall Hin. apply in_keys in Hin. destruct Hin as [v Hin].
      destruct (Hentries _ _ Hin) as (_ & it' & Hit' & Hid & Hs).
      exact (fails_not_succeeds sprite it' (Hall it' Hit' Hid) Hs).
Qed.

(** C6, the claim as stated, fails when two items share an id: the cell of
    the second item is below the sheet, so that item fails, and yet its id is
    in the output mapping, with the colour of the first item. *)
Lemma C6_counterexample_shared_id :
  let sheet := flat_sheet (Byte.xff, Byte.x00, Byte.x00, Byte.xff) in
  let far := {| id := "ore"; name := "far"; iconIndex := 23 |} in
  item_fails sheet far
  /\ exists w, main (Some sheet) [item_at "ore" 0; far] = Ok (Some w)
               /\ In (id far) (PyDict.keys (colors w)).
Proof.
  cbv zeta. split.
  - left. unfold out_of_bounds. vm_compute. reflexivity.
  - eexists. split; [vm_compute; reflexivity|]. left. reflexivity.
Qed.

(** ** The icon-index patch *)

Lemma mappings_index (s : string) (idx : Z) :
  PyDict.get s mappings = Some idx -> idx = 11.
Proof.
  unfold mappings. cbn [PyDict.get].
  destruct (String.eqb s "grating-crystal"); congruence.
Qed.

Lemma patch_item_spec (it it' : json) (hit : bool) :
  patch_item it = Ok (it', hit) -> hit = is_mapped it /\ patched it it'.
Proof.
  unfold patch_item, patched, is_mapped, mapped_index.
  destruct it as [| | | | |elems|fields]; try discriminate.
  destruct (PyDict.get "id" fields) as [[| | | |s| |]|]; cbn [in_mappings bind];
    try discriminate; try (intros H; inversion H; subst; split; reflexivity).
  destruct (PyDict.get s mappings) as [idx|] eqn:Hm; intros H; inversion H; subst.
  - split; [reflexivity|]. exists fields, (PyDict.set "iconIndex" (JInt idx) fields).
    rewrite (mappings_index s idx Hm).
    split; [reflexivity|]. split; [reflexivity|].
    split; [apply dict_get_set_same|]. intros k Hk. apply dict_get_set_other. exact Hk.
  - split; reflexivity.
Qed.

Lemma patch_item_total (it : json) : patchable it -> exists r, patch_item it = Ok r.
Proof.
  unfold patchable, patch_item.
  destruct it as [| | | | |elems|fields]; try contradiction.
  destruct (PyDict.get "id" fields) as [[| | | |s| |]|]; cbn [in_mappings bind];
    try contradiction; intros _; try (eexists; reflexivity).
  destruct (PyDict.get s mappings); eexists; reflexivity.
Qed.

Lemma patch_items_spec (items : list json) :
  forall count items' n, patch_items items count = Ok (items', n) ->
  Forall2 patched items items'
  /\ n = count + Z.of_nat (List.length (filter is_mapped items)).
Proof.
  induction items as [|it items IH]; intros count items' n H; cbn in H.
  - inversion H; subst. split; [constructor | cbn; lia].
  - apply bind_ok in H. destruct H as ([it1 hit] & Hit & H).
    apply bind_ok in H. destruct H as ([rest n1] & Hrest & H). inversion H; subst.
    destruct (patch_item_spec it it1 hit Hit) as [Hhit Hp].
    destruct (IH _ _ _ Hrest) as [Hf Hn].
    split; [constructor; assumption|].
    cbn [filter]. rewrite <- Hhit. destruct hit; cbn [List.length]; lia.
Qed.

Lemma patch_items_total (items : list json) :
  forall count, Forall patchable items -> exists r, patch_items items count = Ok r.
Proof.
  induction items as [|it items IH]; intros count H; cbn.
  - eexists; reflexivity.
  - inversion H; subst.
    destruct (patch_item_total it) as [[it1 hit] ->]; [assumption|]. cbn [bind].
    destruct (IH (if hit then count + 1 else count)) as [[rest n] ->]; [assumption|].
    cbn [bind]. eexists; reflexivity.
Qed.

(** C10. The patch script returns on every document whose items are objects
    with ids that can be hashed, and what it writes back differs from what it
    read only in the ["iconIndex"] field of the items whose id is a key of
    [mappings]: an item whose id is not a key of [mappings] is unchanged; in
    an item whose id is one, every field other than ["iconIndex"] is unchanged
    (and ["iconIndex"] is 11); [updated_count] is the number of the items
    whose id is a key of [mappings]; and the document keeps its keys, with
    the same value under every key other than ["items"]. *)
Theorem C10_patch_changes_only_mapped_icon_indices :
  (forall fields items,
     PyDict.get "items" fields = Some (JArr items) -> Forall patchable items ->
     exists items' n,
       patch (JObj fields) = Ok (JObj (PyDict.set "items" (JArr items') fields), n))
  /\ (forall data data' n, patch data = Ok (data', n) ->
      exists fields fields',
        data = JObj fields /\ data' = JObj fields'
        /\ PyDict.keys fields' = PyDict.keys fields
        /\ (forall k, k <> "items"%string -> PyDict.get k fields' = PyDict.get k fields)
        /\ match PyDict.get "items" fields with
           | Some (JArr items) =>
               exists items',
                 PyDict.get "items" fields' = Some (JArr items')
                 /\ Forall2 patched items items'
                 /\ n = Z.of_nat (List.length (filter is_mapped items))
           | _ => fields' = fields /\ n = 0
           end).
Proof.
  split.
  - intros fields items Hget Hall. unfold patch. rewrite Hget.
    destruct (patch_items_total items 0 Hall) as [[items' n] ->]. cbn [bind].
    exists items', n. reflexivity.
  - intros data data' n H. unfold patch in H.
    destruct data as [| | | | |elems|fields]; try discriminate.
    exists fields.
    destruct (PyDict.get "items" fields) as [v|] eqn:Hget.
    + destruct v as [| | | |s|items|fs].
      1-4: discriminate.
      * destruct s; [|discriminate]. inversion H; subst.
        exists fields. repeat split; reflexivity.
      * apply bind_ok in H. destruct H as ([items' n'] & Hp & H). inversion H; subst.
        exists (PyDict.set "items" (JArr items') fields).
        destruct (patch_items_spec items 0 items' n Hp) as [Hf Hn].
        split; [reflexivity|]. split; [reflexivity|].
        split; [exact (dict_set_keys_present _ _ _ _ Hget)|].
        split; [intros k Hk; apply dict_get_set_other; exact Hk|].
        exists items'. split; [apply dict_get_set_same|]. split; [exact Hf | lia].
      * destruct fs; [|discriminate]. inversion H; subst.
        exists fields. repeat split; reflexivity.
    + inversion H; subst. exists fields. repeat split; reflexivity.
Qed.

(** On the sample manifest one item is updated: its icon index becomes 11
    and nothing else changes. *)
Lemma C10_patch_sample :
  patch sample_manifest
  = Ok (JObj [("version", JInt 3);
              ("items", JArr [JObj [("id", JStr "grating-crystal");
                                    ("name", JStr "Grating"); ("iconIndex", JInt 11)];
                              JObj [("id", JStr "iron-ore"); ("iconIndex", JInt 1)]]);
              ("recipes", JArr [])]%string, 1).
Proof. reflexivity. Qed.

(** * Further properties *)

(** ** The hue and the lightness that [rgb_to_hls] returns *)

Lemma fmod1_not_nan (x : float) :
  finite_sf (Prim2SF x) = true -> Prim2SF (fmod1 x) <> S754_nan.
Proof.
  intros F. unfold fmod1. pose proof (Prim2SF_valid x) as V.
  destruct (Prim2SF x) as [s|s| |s m e] eqn:E; try discriminate.
  - rewrite E. discriminate.
  - destruct (valid_finite_inv _ _ _ V) as (He & _).
    destruct (0 <=? e); [rewrite Prim2SF_SF2Prim by reflexivity; discriminate|].
    destruct (Zpos m mod 2 ^ (- e)) as [|f|f];
      try (rewrite Prim2SF_SF2Prim by reflexivity; discriminate).
    rewrite Prim2SF_SF2Prim by (apply binary_normalize_valid; lia).
    destruct s; cbn [cond_Zopp Z.opp binary_normalize];
      apply (signed_nonzero_not_nan _ _ (binary_round_nonzero _ _ _ (proj1 He))).
Qed.

Lemma float_mag_two : float_mag (Z.abs (2 * 2 ^ 1074)).
Proof. exists 2, 0. repeat split; lia. Qed.

(** [x % 1.0] lies between 0 and 1 when [x] is finite. *)
Lemma float_mod1_finite (x : float) :
  finite_sf (Prim2SF x) = true -> within 0 one40 (float_mod1 x).
Proof.
  intros F. destruct (float_mod1_range x) as [Hn | Hw]; [exfalso | exact Hw].
  pose proof (fmod1_not_nan x F) as Nm.
  assert (HS : 0 < 2 ^ 1074) by (apply Z.pow_pos_nonneg; lia).
  unfold float_mod1 in Hn. destruct (fmod1 x =? 0)%float.
  - rewrite Prim2SF_zero in Hn. discriminate.
  - destruct (fmod1 x <? 0)%float; [|contradiction].
    destruct (fmod1_range x) as [Hm | [Fm Hb]]; [contradiction|].
    rewrite FloatAxioms.add_spec in Hn.
    destruct (SFadd_within (Prim2SF (fmod1 x)) (Prim2SF 1) 0 (2 * 2 ^ 1074)
                (Prim2SF_valid _) (Prim2SF_valid _) Fm eq_refl
                float_mag_zero float_mag_two) as (Fr & _).
    + rewrite scaled_one. lia.
    + unfold SF64add in Hn. rewrite Hn in Fr. discriminate.
Qed.

Lemma max3_upper (a b c : float) :
  Prim2SF a <> S754_nan -> Prim2SF b <> S754_nan -> Prim2SF c <> S754_nan ->
  scaled (Prim2SF a) <= scaled (Prim2SF (max3 a b c))
  /\ scaled (Prim2SF b) <= scaled (Prim2SF (max3 a b c))
  /\ scaled (Prim2SF c) <= scaled (Prim2SF (max3 a b c)).
Proof.
  intros Na Nb Nc. unfold max3.
  destruct (ltb_cases a b Na Nb) as [[-> H1] | [-> H1]].
  - destruct (ltb_cases b c Nb Nc) as [[-> H2] | [-> H2]]; clear Na Nb Nc; lia.
  - destruct (ltb_cases a c Na Nc) as [[-> H2] | [-> H2]]; clear Na Nb Nc; lia.
Qed.

Lemma min3_lower (a b c : float) :
  Prim2SF a <> S754_nan -> Prim2SF b <> S754_nan -> Prim2SF c <> S754_nan ->
  scaled (Prim2SF (min3 a b c)) <= scaled (Prim2SF a)
  /\ scaled (Prim2SF (min3 a b c)) <= scaled (Prim2SF b)
  /\ scaled (Prim2SF (min3 a b c)) <= scaled (Prim2SF c).
Proof.
  intros Na Nb Nc. unfold min3.
  destruct (ltb_cases b a Nb Na) as [[-> H1] | [-> H1]].
  - destruct (ltb_cases c b Nc Nb) as [[-> H2] | [-> H2]]; clear Na Nb Nc; lia.
  - destruct (ltb_cases c a Nc Na) as [[-> H2] | [-> H2]]; clear Na Nb Nc; lia.
Qed.

Lemma float_mag_pow2 (k : Z) : 0 <= k <= 1074 -> float_mag (Z.abs (2 ^ k)).
Proof.
  intros Hk. exists 1, (k - 1074). split; [lia|]. split; [lia|].
  rewrite Z.abs_eq by (apply Z.pow_nonneg; lia).
  replace (k - 1074 + 1074) with k by lia. lia.
Qed.

Lemma float_mag_pow2_twice (k : Z) : 0 <= k <= 1074 -> float_mag (Z.abs (2 * 2 ^ k)).
Proof.
  intros Hk. exists 2, (k - 1074). split; [lia|]. split; [lia|].
  assert (0 < 2 ^ k) by (apply Z.pow_pos_nonneg; lia).
  rewrite Z.abs_eq by lia.
  replace (k - 1074 + 1074) with k by lia. lia.
Qed.

(** The quotient of a distance to the largest channel by the range of the
    channels is at most 2.0 (it is at most 1.0 up to the roundings). *)
Lemma range_quotient_within (maxc minc c : float) :
  within 0 one40 maxc -> within 0 one40 minc -> within 0 one40 c ->
  scaled (Prim2SF minc) <= scaled (Prim2SF c) <= scaled (Prim2SF maxc) ->
  scaled (Prim2SF minc) < scaled (Prim2SF maxc) ->
  (maxc - minc =? 0)%float = false
  /\ within 0 (2 * one40) ((maxc - c) / (maxc - minc)).
Proof.
  intros [Fmax [Hmax0 Hmax1]] [Fmin [Hmin0 Hmin1]] [Fc [Hc0 Hc1]] [HYC HCX] HYX.
  pose proof grid_pos as Hg. rewrite one40_grid in *.
  set (X := scaled (Prim2SF maxc)) in *. set (Y := scaled (Prim2SF minc)) in *.
  set (C := scaled (Prim2SF c)) in *.
  assert (HV : 0 < X - Y) by lia.
  pose proof (Z.log2_spec (X - Y) HV) as [Hlo Hhi].
  pose proof (Z.log2_nonneg (X - Y)) as Hk0.
  assert (Hk1 : Z.log2 (X - Y) <= 1074).
  { rewrite <- (Z.log2_pow2 1074) by lia. apply Z.log2_le_mono. lia. }
  set (k := Z.log2 (X - Y)) in *.
  rewrite Z.pow_succ_r in Hhi by lia.
  assert (HP : 0 < 2 ^ k) by (apply Z.pow_pos_nonneg; lia).
  (* the range and the distance *)
  destruct (SFsub_within (Prim2SF maxc) (Prim2SF minc) (2 ^ k) (2 * 2 ^ k)
              (Prim2SF_valid _) (Prim2SF_valid _) Fmax Fmin
              (float_mag_pow2 k ltac:(lia)) (float_mag_pow2_twice k ltac:(lia)))
    as (Fd & Hd & _).
  { fold X Y. clear Fmax Fmin Fc. lia. }
  destruct (SFsub_within (Prim2SF maxc) (Prim2SF c) 0 (2 * 2 ^ k)
              (Prim2SF_valid _) (Prim2SF_valid _) Fmax Fc
              float_mag_zero (float_mag_pow2_twice k ltac:(lia)))
    as (Fn & Hn & _).
  { fold X C. clear Fmax Fmin Fc Fd. lia. }
  rewrite <- FloatAxioms.sub_spec in Fd, Hd, Fn, Hn.
  assert (E0 : (maxc - minc =? 0)%float = false).
  { apply positive_not_zero; [exact Fd | clear Fmax Fmin Fc Fd Fn; lia]. }
  split; [exact E0|].
  destruct (nonzero_positive (maxc - minc) Fd ltac:(clear Fmax Fmin Fc Fd Fn; lia) E0)
    as (my & ey & Ed & Bd).
  unfold within. rewrite FloatAxioms.div_spec, Ed.
  rewrite Ed in Hd. cbn [scaled cond_Zopp] in Hd.
  set (D := Zpos my * 2 ^ (ey + 1074)) in *.
  set (N := scaled (Prim2SF (maxc - c))) in *.
  assert (HS : 0 < 2 ^ 1074) by (apply Z.pow_pos_nonneg; lia).
  destruct (SFdiv_within (Prim2SF (maxc - c)) my ey (0 * grid) (2 * one40 * grid)
              (Prim2SF_valid _) Bd Fn (small_float_mag 0 eq_refl)
              (small_float_mag (2 * one40) eq_refl)) as (Fq & Hq & _).
  - fold D N. replace (2 * one40 * grid) with (2 * 2 ^ 1074) by (rewrite <- one40_grid; ring).
    rewrite !Z.mul_0_l.
    clear Fmax Fmin Fc Fd Fn Ed Bd. split.
    + apply Z.mul_nonneg_nonneg; lia.
    + apply Z.le_trans with (2 * 2 ^ k * 2 ^ 1074).
      * apply Z.mul_le_mono_nonneg_r; lia.
      * replace (2 * 2 ^ k * 2 ^ 1074) with (2 * 2 ^ 1074 * 2 ^ k) by ring.
        apply Z.mul_le_mono_nonneg_l; lia.
  - split; assumption.
Qed.

(** A quotient by a positive float of the grid. *)
Lemma div_grid_within (x y : float) (lo hi lo' hi' k : Z) :
  within lo hi x -> within k k y -> 0 < k ->
  small lo' = true -> small hi' = true ->
  lo' * k <= lo * one40 -> hi * one40 <= hi' * k ->
  within lo' hi' (x / y).
Proof.
  intros [Fx [Hx0 Hx1]] Hy Hk Hlo Hhi Hl Hh.
  pose proof grid_pos as Hg. pose proof (within_exact _ _ Hy) as Ey.
  destruct Hy as [Fy _].
  assert (Hkg : 0 < k * grid) by (apply Z.mul_pos_pos; lia).
  assert (E0 : (y =? 0)%float = false).
  { apply positive_not_zero; [exact Fy | rewrite Ey; exact Hkg]. }
  destruct (nonzero_positive y Fy ltac:(rewrite Ey; lia) E0) as (my & ey & Ed & Bd).
  unfold within. rewrite FloatAxioms.div_spec, Ed.
  rewrite Ed in Ey. cbn [scaled cond_Zopp] in Ey.
  assert (HS : 0 < 2 ^ 1074) by (apply Z.pow_pos_nonneg; lia).
  destruct (SFdiv_within (Prim2SF x) my ey (lo' * grid) (hi' * grid)
              (Prim2SF_valid _) Bd Fx (small_float_mag lo' Hlo)
              (small_float_mag hi' Hhi)) as (Fq & Hq & _); [|split; assumption].
  rewrite Ey, <- one40_grid. set (X := scaled (Prim2SF x)) in *.
  assert (Hgg : 0 <= grid * grid) by (apply Z.mul_nonneg_nonneg; lia).
  clear Fx Fy Ed Bd E0. split.
  - apply Z.le_trans with (lo * grid * (one40 * grid)).
    + replace (lo' * grid * (k * grid)) with (lo' * k * (grid * grid)) by ring.
      replace (lo * grid * (one40 * grid)) with (lo * one40 * (grid * grid)) by ring.
      apply Z.mul_le_mono_nonneg_r; assumption.
    + apply Z.mul_le_mono_nonneg_r; [|exact Hx0].
      apply Z.mul_nonneg_nonneg; [unfold one40|]; lia.
  - apply Z.le_trans with (hi * grid * (one40 * grid)).
    + apply Z.mul_le_mono_nonneg_r; [|exact Hx1].
      apply Z.mul_nonneg_nonneg; [unfold one40|]; lia.
    + replace (hi' * grid * (k * grid)) with (hi' * k * (grid * grid)) by ring.
      replace (hi * grid * (one40 * grid)) with (hi * one40 * (grid * grid)) by ring.
      apply Z.mul_le_mono_nonneg_r; assumption.
Qed.

Lemma within_zero : within 0 0 0.
Proof. apply within_b_sound. vm_compute. reflexivity. Qed.

Lemma within_four : within (4 * one40) (4 * one40) 4.
Proof. apply within_b_sound. vm_compute. reflexivity. Qed.

(** For channels between 0 and 1, [rgb_to_hls] returns a hue and a
    lightness between 0 and 1 and a saturation that is not negative. *)
Lemma rgb_to_hls_within (r g b h l s : float) :
  within 0 one40 r -> within 0 one40 g -> within 0 one40 b ->
  rgb_to_hls r g b = Ok (h, l, s) ->
  within 0 one40 h /\ within 0 one40 l /\ nonneg_sf (Prim2SF s).
Proof.
  intros Hr Hg Hb H.
  pose proof (rgb_to_hls_saturation_nonneg _ _ _ _ _ _ Hr Hg Hb H) as Hs.
  pose proof (within_not_nan _ _ _ Hr) as Nr. pose proof (within_not_nan _ _ _ Hg) as Ng.
  pose proof (within_not_nan _ _ _ Hb) as Nb.
  pose proof (max3_within _ _ _ _ _ Hr Hg Hb) as Hmax.
  pose proof (min3_within _ _ _ _ _ Hr Hg Hb) as Hmin.
  pose proof (max3_upper r g b Nr Ng Nb) as (Ur & Ug & Ub).
  pose proof (min3_lower r g b Nr Ng Nb) as (Lr & Lg & Lb).
  unfold rgb_to_hls, float_div in H.
  change (2 =? 0)%float with false in H. change (6 =? 0)%float with false in H.
  cbv zeta in H. cbn [bind] in H.
  set (maxc := max3 r g b) in *. set (minc := min3 r g b) in *.
  assert (Hsum : within (0 + 0) (one40 + one40) (maxc + minc))
    by (apply add_within; (assumption || reflexivity)).
  assert (Hl : within 0 one40 ((maxc + minc) / 2)).
  { apply (div_grid_within _ _ _ _ _ _ (2 * one40) Hsum within_two);
      try reflexivity; unfold one40; lia. }
  destruct (minc =? maxc)%float eqn:E.
  { injection H as <- <- <-. split; [|split; [exact Hl | exact Hs]].
    apply (within_weaken _ _ _ _ _ within_zero); unfold one40; lia. }
  rewrite eqb_scaled in E by (eapply within_not_nan; eassumption).
  apply Z.eqb_neq in E.
  assert (Hlt : scaled (Prim2SF minc) < scaled (Prim2SF maxc)) by lia.
  apply bind_ok in H. destruct H as (s0 & _ & H).
  destruct (range_quotient_within maxc minc r Hmax Hmin Hr ltac:(lia) Hlt) as [E0 Hrc].
  destruct (range_quotient_within maxc minc g Hmax Hmin Hg ltac:(lia) Hlt) as [_ Hgc].
  destruct (range_quotient_within maxc minc b Hmax Hmin Hb ltac:(lia) Hlt) as [_ Hbc].
  rewrite E0 in H. cbn [bind] in H. injection H as <- <- <-.
  split; [|split; [exact Hl | exact Hs]].
  apply float_mod1_finite.
  set (rc := ((maxc - r) / (maxc - minc))%float) in *.
  set (gc := ((maxc - g) / (maxc - minc))%float) in *.
  set (bc := ((maxc - b) / (maxc - minc))%float) in *.
  assert (Hh : within (- (2 * one40)) (6 * one40)
                 (if (r =? maxc)%float then (bc - gc)%float
                  else if (g =? maxc)%float then (2 + rc - bc)%float
                  else (4 + gc - rc)%float)).
  { destruct (r =? maxc)%float; [|destruct (g =? maxc)%float].
    - assert (H1 : within (0 - 2 * one40) (2 * one40 - 0) (bc - gc))
        by (apply sub_within; (assumption || reflexivity)).
      apply (within_weaken _ _ _ _ _ H1); unfold one40; lia.
    - assert (H1 : within (2 * one40 + 0) (2 * one40 + 2 * one40) (2 + rc))
        by (apply add_within; try assumption; (exact within_two || reflexivity)).
      assert (H2 : within (2 * one40 + 0 - 2 * one40) (2 * one40 + 2 * one40 - 0)
                     (2 + rc - bc))
        by (apply sub_within; (assumption || reflexivity)).
      apply (within_weaken _ _ _ _ _ H2); unfold one40; lia.
    - assert (H1 : within (4 * one40 + 0) (4 * one40 + 2 * one40) (4 + gc))
        by (apply add_within; try assumption; (exact within_four || reflexivity)).
      assert (H2 : within (4 * one40 + 0 - 2 * one40) (4 * one40 + 2 * one40 - 0)
                     (4 + gc - rc))
        by (apply sub_within; (assumption || reflexivity)).
      apply (within_weaken _ _ _ _ _ H2); unfold one40; lia. }
  assert (H6 : within (- one40) one40
                 ((if (r =? maxc)%float then (bc - gc)%float
                   else if (g =? maxc)%float then (2 + rc - bc)%float
                   else (4 + gc - rc)%float) / 6)).
  { apply (div_grid_within _ _ _ _ _ _ six40 Hh within_six);
      try reflexivity; unfold one40, six40; lia. }
  exact (proj1 H6).
Qed.

(** ** The hue index of a pixel *)

Lemma within_leb (x : float) :
  within 0 one40 x -> (0 <=? x)%float = true /\ (x <=? 1)%float = true.
Proof.
  intros H. pose proof (within_not_nan _ _ _ H) as Nx. destruct H as [_ [H0 H1]].
  rewrite one40_grid in H1.
  rewrite !leb_scaled; try assumption;
    try (rewrite Prim2SF_zero; discriminate); try (rewrite Prim2SF_one; discriminate).
  rewrite scaled_one, Prim2SF_zero. cbn [scaled].
  split; apply Z.leb_le; lia.
Qed.

Lemma hue_index_within (h : float) :
  within 0 one40 h -> exists i, hue_index h = Ok i /\ 0 <= i <= 35.
Proof.
  intros H. destruct (within_leb h H) as [H0 H1].
  assert (Hi : exists i, hue_index h = Ok i).
  { unfold hue_index, int_of_float. pose proof (hue_times_36_finite h H0 H1) as Hf.
    destruct (Prim2SF (h * 36)); try contradiction; cbn [bind]; eexists; reflexivity. }
  destruct Hi as [i Hi]. exists i. split; [exact Hi | exact (hue_index_range h i Hi)].
Qed.

(** A channel of a pixel, divided by 255, is 1.0 or at most [1 - 2^-40]. *)
Lemma channel_float_unit (c : Byte.byte) : unit_value (channel_float c).
Proof.
  pose proof (chan_range c) as Hc. pose proof (int_truediv_channel c) as H.
  destruct (Z.eq_dec (chan c) 255) as [E | E].
  - left. apply (int_truediv_enclosed (chan c) 255 one40 one40 _);
      [lia | lia | reflexivity | reflexivity | rewrite E; unfold one40; lia | exact H].
  - right. apply (int_truediv_enclosed (chan c) 255 0 (one40 - 1) _);
      [lia | lia | reflexivity | reflexivity | unfold one40; lia | exact H].
Qed.

Lemma pixel_hls_returns (r g b : Byte.byte) :
  exists h l s,
    rgb_to_hls (channel_float r) (channel_float g) (channel_float b) = Ok (h, l, s)
    /\ within 0 one40 h /\ within 0 one40 l /\ nonneg_sf (Prim2SF s).
Proof.
  destruct (rgb_to_hls_returns _ _ _ (channel_float_unit r) (channel_float_unit g)
              (channel_float_unit b)) as ([[h l] s] & H).
  exists h, l, s. split; [exact H|].
  apply (rgb_to_hls_within _ _ _ _ _ _ (unit_value_within _ (channel_float_unit r))
           (unit_value_within _ (channel_float_unit g))
           (unit_value_within _ (channel_float_unit b)) H).
Qed.

(** ** The classifier as three filters *)

Lemma nth_error_alter {A : Type} (f : A -> A) (k : nat) (l : list A) (j : nat) :
  nth_error (PyList.alter f k l) j
  = if Nat.eqb j k then option_map f (nth_error l j) else nth_error l j.
Proof.
  revert k j; induction l as [|x l IH]; intros k j.
  - destruct k, j; cbn; try reflexivity; destruct (Nat.eqb j k); reflexivity.
  - destruct k, j; cbn; try reflexivity. apply IH.
Qed.

Lemma concat_alter_length {A : Type} (x : A) (k : nat) (l : list (list A)) :
  (k < List.length l)%nat ->
  List.length (List.concat (PyList.alter (fun b => b ++ [x]) k l))
  = S (List.length (List.concat l)).
Proof.
  revert k; induction l as [|b l IH]; intros k Hk; cbn in Hk; [lia|].
  destruct k; cbn [PyList.alter List.concat]; rewrite !length_app.
  - cbn. lia.
  - rewrite IH by lia. lia.
Qed.

Lemma append_at_nat {A : Type} (bs : list (list A)) (i : Z) (x : A) :
  0 <= i < Z.of_nat (List.length bs) ->
  PyList.append_at bs i x = Ok (PyList.alter (fun b => b ++ [x]) (Z.to_nat i) bs).
Proof.
  intros Hi. unfold PyList.append_at.
  replace i with (Z.of_nat (Z.to_nat i)) at 1 by lia.
  rewrite position_nat by lia. reflexivity.
Qed.

(** The HLS of a pixel is computed, whatever the pixel. *)
Lemma pixel_hls_ok (px : pixel) :
  pixel_hls px = Ok (hue px, lightness px, saturation px)
  /\ within 0 one40 (hue px) /\ within 0 one40 (lightness px)
  /\ nonneg_sf (Prim2SF (saturation px)).
Proof.
  unfold hue, lightness, saturation, pixel_hls.
  destruct (channels px) as [[r g] b].
  destruct (pixel_hls_returns r g b) as (h & l & s & -> & H). split; [reflexivity | exact H].
Qed.

Lemma filter_one {A : Type} (f : A -> bool) (x : A) (l : list A) :
  filter f (x :: l) = (if f x then [x] else []) ++ filter f l.
Proof. cbn. destruct (f x); reflexivity. Qed.

Lemma filter_single {A : Type} (f : A -> bool) (x : A) :
  filter f [x] = if f x then [x] else [].
Proof. reflexivity. Qed.

Lemma count_single {A : Type} (f : A -> bool) (x : A) :
  count f [x] = if f x then 1 else 0.
Proof. unfold count. cbn. destruct (f x); reflexivity. Qed.

(** The body of the loop, in the words of the vocabulary. *)
Lemma classify_pixel_unfold (st : classes) (px : pixel) :
  classify_pixel st px
  = if low_alpha px then Ok st
    else if extreme px then
      Ok {| buckets := buckets st; greys := greys st;
            total_non_transparent := total_non_transparent st + 1 |}
    else if (saturation px <? 0.20)%float then
      Ok {| buckets := buckets st; greys := greys st ++ [grey_member px];
            total_non_transparent := total_non_transparent st + 1 |}
    else
      hue_idx <- hue_index (hue px) ;;
      bs <- PyList.append_at (buckets st) hue_idx (colored_member px) ;;
      Ok {| buckets := bs; greys := greys st;
            total_non_transparent := total_non_transparent st + 1 |}.
Proof.
  destruct (pixel_hls_ok px) as (Hhls & _).
  unfold classify_pixel, low_alpha, alpha, extreme, grey_member, colored_member.
  unfold pixel_hls in Hhls.
  destruct px as [r g b a | r g b]; cbn [channels] in *.
  - destruct (chan a <? 64); [reflexivity|].
    rewrite !int_truediv_channel. cbn [bind]. rewrite Hhls. reflexivity.
  - change (255 <? 64) with false. cbn iota.
    rewrite !int_truediv_channel. cbn [bind]. rewrite Hhls. reflexivity.
Qed.

(** One pixel. *)
Lemma classify_pixel_step (st : classes) (px : pixel) :
  List.length (buckets st) = 36%nat ->
  exists st',
    classify_pixel st px = Ok st'
    /\ List.length (buckets st') = 36%nat
    /\ total_non_transparent st'
       = total_non_transparent st + count solid [px]
    /\ greys st' = greys st ++ map grey_member (filter neutral [px])
    /\ PyList.len (List.concat (buckets st'))
       = PyList.len (List.concat (buckets st)) + count colorful [px]
    /\ forall k b, nth_error (buckets st) k = Some b ->
         nth_error (buckets st') k
         = Some (b ++ map colored_member (filter (hued (Z.of_nat k)) [px])).
Proof.
  intros Hlen. rewrite classify_pixel_unfold, !count_single, filter_single.
  setoid_rewrite filter_single.
  unfold hued, neutral, colorful, solid.
  destruct (low_alpha px); cbn [negb andb].
  { exists st. cbn [map]. rewrite app_nil_r. repeat split; try lia; try assumption.
    intros k b0 Hk. rewrite app_nil_r. exact Hk. }
  destruct (extreme px); cbn [negb andb].
  { eexists. split; [reflexivity|]. cbn [buckets greys total_non_transparent map].
    rewrite app_nil_r. repeat split; try lia; try assumption.
    intros k b0 Hk. rewrite app_nil_r. exact Hk. }
  destruct (saturation px <? 0.20)%float; cbn [negb andb].
  { eexists. split; [reflexivity|]. cbn [buckets greys total_non_transparent map].
    repeat split; try lia; try assumption.
    intros k b0 Hk. rewrite app_nil_r. exact Hk. }
  destruct (pixel_hls_ok px) as (_ & Hh & _).
  destruct (hue_index_within (hue px) Hh) as (i & Hi & Hr). rewrite Hi. cbn [bind].
  rewrite append_at_nat by (rewrite Hlen; lia). cbn [bind].
  eexists. split; [reflexivity|]. cbn [buckets greys total_non_transparent map].
  split; [rewrite alter_length; exact Hlen|].
  split; [lia|]. split; [rewrite app_nil_r; reflexivity|].
  split.
  - unfold PyList.len. rewrite concat_alter_length by (rewrite Hlen; lia). lia.
  - intros k b0 Hk. rewrite nth_error_alter, Hk.
    destruct (Nat.eqb k (Z.to_nat i)) eqn:Ek.
    + apply Nat.eqb_eq in Ek. subst k. rewrite Z2Nat.id by lia. rewrite Z.eqb_refl.
      reflexivity.
    + apply Nat.eqb_neq in Ek.
      assert (Hne : (i =? Z.of_nat k) = false) by (apply Z.eqb_neq; lia).
      rewrite Hne. cbn [map option_map]. rewrite app_nil_r. reflexivity.
Qed.

Lemma count_cons {A : Type} (f : A -> bool) (x : A) (l : list A) :
  count f (x :: l) = count f [x] + count f l.
Proof. unfold count, PyList.len. cbn. destruct (f x); cbn [List.length]; lia. Qed.

(** The whole loop, from any state of 36 buckets. *)
Lemma classify_from_filters (pxs : list pixel) :
  forall st, List.length (buckets st) = 36%nat ->
  exists st',
    classify_from st pxs = Ok st'
    /\ List.length (buckets st') = 36%nat
    /\ total_non_transparent st' = total_non_transparent st + count solid pxs
    /\ greys st' = greys st ++ map grey_member (filter neutral pxs)
    /\ PyList.len (List.concat (buckets st'))
       = PyList.len (List.concat (buckets st)) + count colorful pxs
    /\ forall k b, nth_error (buckets st) k = Some b ->
         nth_error (buckets st') k
         = Some (b ++ map colored_member (filter (hued (Z.of_nat k)) pxs)).
Proof.
  unfold classify_from. induction pxs as [|px pxs IH]; intros st Hlen.
  - exists st. cbn. rewrite app_nil_r. repeat split; try assumption; try (unfold count; cbn; lia).
    intros k b Hk. rewrite app_nil_r. exact Hk.
  - destruct (classify_pixel_step st px Hlen) as (st1 & H1 & L1 & T1 & G1 & C1 & B1).
    destruct (IH st1 L1) as (st2 & H2 & L2 & T2 & G2 & C2 & B2).
    exists st2. cbn [PyList.for_each]. rewrite H1. cbn [bind].
    split; [exact H2|]. split; [exact L2|].
    split; [rewrite T2, T1, (count_cons solid px pxs); lia|].
    split; [rewrite G2, G1, (filter_one neutral px pxs), map_app, app_assoc; reflexivity|].
    split; [rewrite C2, C1, (count_cons colorful px pxs); lia|].
    intros k b Hk. rewrite (B2 k _ (B1 k b Hk)).
    rewrite (filter_one (hued (Z.of_nat k)) px pxs), map_app, app_assoc. reflexivity.
Qed.

Lemma nth_error_get {A : Type} (l : list A) (i : Z) (x : A) :
  0 <= i -> nth_error l (Z.to_nat i) = Some x -> PyList.get l i = Ok x.
Proof.
  intros Hi H. rewrite <- (Z2Nat.id i Hi). apply get_nat. exact H.
Qed.

Lemma classify_filters (pxs : list pixel) :
  exists st,
    classify pxs = Ok st
    /\ List.length (buckets st) = 36%nat
    /\ total_non_transparent st = count solid pxs
    /\ greys st = map grey_member (filter neutral pxs)
    /\ PyList.len (List.concat (buckets st)) = count colorful pxs
    /\ forall i, 0 <= i < 36 ->
         PyList.get (buckets st) i = Ok (map colored_member (filter (hued i) pxs)).
Proof.
  destruct (classify_from_filters pxs initial eq_refl) as (st & H & L & T & G & C & B).
  exists st. split; [exact H|]. split; [exact L|]. split; [exact T|].
  split; [exact G|]. split; [exact C|].
  intros i Hi. apply nth_error_get; [lia|].
  assert (Hn : nth_error (buckets initial) (Z.to_nat i) = Some []).
  { cbn [initial buckets]. rewrite nth_error_repeat by lia. reflexivity. }
  rewrite (B _ _ Hn), Z2Nat.id by lia. reflexivity.
Qed.

(** X1. The Hue Classifier returns on every pixel sequence, and its three
    outputs are three filters of the sequence, in the order of the scan: the
    count is the number of the pixels with alpha of 64 or more; the grey pool
    holds the members of those of them whose lightness is in [[0.1, 0.95]]
    and whose saturation is below 0.20; bucket [i] holds the members of those
    with such a lightness, a saturation not below 0.20 and hue index [i]. *)
Theorem X1_classifier_is_three_filters (pxs : list pixel) :
  exists st,
    classify pxs = Ok st
    /\ List.length (buckets st) = 36%nat
    /\ total_non_transparent st = count solid pxs
    /\ greys st = map grey_member (filter neutral pxs)
    /\ forall i, 0 <= i < 36 ->
         PyList.get (buckets st) i = Ok (map colored_member (filter (hued i) pxs)).
Proof.
  destruct (classify_filters pxs) as (st & H & L & T & G & _ & B).
  exists st. auto.
Qed.

(** X2. For every pixel the call of [rgb_to_hls] at line 34 returns (no
    division by zero), with a hue and a lightness in [[0, 1]] and a
    saturation that is not negative; none of the three is a NaN. *)
Theorem X2_pixel_hls_in_range (px : pixel) :
  exists h l s,
    pixel_hls px = Ok (h, l, s)
    /\ (0 <=? h)%float = true /\ (h <=? 1)%float = true
    /\ (0 <=? l)%float = true /\ (l <=? 1)%float = true
    /\ (0 <=? s)%float = true.
Proof.
  destruct (pixel_hls_ok px) as (H & Hh & Hl & Hs).
  exists (hue px), (lightness px), (saturation px).
  split; [exact H|].
  destruct (within_leb _ Hh) as [H1 H2]. destruct (within_leb _ Hl) as [H3 H4].
  repeat (split; [assumption|]).
  rewrite leb_scaled.
  - rewrite Prim2SF_zero. cbn [scaled]. apply Z.leb_le.
    apply nonneg_sf_scaled. exact Hs.
  - rewrite Prim2SF_zero. discriminate.
  - destruct (Prim2SF (saturation px)); [discriminate..|contradiction|discriminate].
Qed.

(** ** The counts *)

Lemma count_nonneg {A : Type} (f : A -> bool) (l : list A) : 0 <= count f l.
Proof. unfold count, PyList.len. lia. Qed.

Lemma count_le {A : Type} (f : A -> bool) (l : list A) : count f l <= PyList.len l.
Proof. unfold count, PyList.len. pose proof (filter_length_le f l). lia. Qed.

Lemma count_map_filter {A B : Type} (g : A -> B) (f : A -> bool) (l : list A) :
  PyList.len (map g (filter f l)) = count f l.
Proof. unfold count, PyList.len. rewrite length_map. reflexivity. Qed.

(** Every solid pixel is skipped as extreme, or neutral, or colourful. *)
Lemma solid_split (pxs : list pixel) :
  count solid pxs
  = count colorful pxs + count neutral pxs
    + count (fun px => solid px && extreme px) pxs.
Proof.
  induction pxs as [|px pxs IH]; [reflexivity|].
  rewrite (count_cons solid), (count_cons colorful), (count_cons neutral),
    (count_cons (fun px => solid px && extreme px)), IH, !count_single.
  generalize dependent (count colorful pxs). generalize (count neutral pxs).
  generalize (count (fun px => solid px && extreme px) pxs). intros c3 c2 c1 _.
  unfold colorful, neutral.
  destruct (solid px), (extreme px), (saturation px <? 0.20)%float;
    cbn [andb negb]; lia.
Qed.

(** X3. The counts of the classifier and of the strength scan add up: the
    scan counts the colourful pixels, the grey pool the neutral ones, and
    every pixel with alpha of 64 or more is colourful, neutral, or skipped
    for its lightness; so the coloured pixels and the greys together never
    exceed the count of the solid pixels. *)
Theorem X3_pixel_counts_add_up (pxs : list pixel) (st : classes) (sc : scan) :
  classify pxs = Ok st ->
  find_strongest (buckets st) = Ok sc ->
  total_colored_pixels sc = count colorful pxs
  /\ PyList.len (greys st) = count neutral pxs
  /\ total_non_transparent st
     = total_colored_pixels sc + PyList.len (greys st)
       + count (fun px => solid px && extreme px) pxs
  /\ total_colored_pixels sc + PyList.len (greys st) <= total_non_transparent st.
Proof.
  intros Hst Hsc.
  destruct (classify_filters pxs) as (st0 & H & L & T & G & C & _).
  rewrite Hst in H. inversion H; subst st0. clear H.
  destruct (find_strongest_counted (buckets st) L) as (sc0 & Hsc0 & _ & Hc).
  rewrite Hsc in Hsc0. inversion Hsc0; subst sc0. clear Hsc0.
  assert (H1 : total_colored_pixels sc = count colorful pxs) by congruence.
  assert (H2 : PyList.len (greys st) = count neutral pxs)
    by (rewrite G; apply count_map_filter).
  pose proof (solid_split pxs) as Hs.
  pose proof (count_nonneg (fun px => solid px && extreme px) pxs) as Hn.
  repeat split; lia.
Qed.

Lemma X3_pixel_counts_add_up_witness :
  total_colored_pixels scan_start = count colorful [grey_pixel; clear_pixel]
  /\ PyList.len (greys grey_classes) = count neutral [grey_pixel; clear_pixel]
  /\ total_non_transparent grey_classes
     = total_colored_pixels scan_start + PyList.len (greys grey_classes)
       + count (fun px => solid px && extreme px) [grey_pixel; clear_pixel]
  /\ total_colored_pixels scan_start + PyList.len (greys grey_classes)
     <= total_non_transparent grey_classes.
Proof.
  apply (X3_pixel_counts_add_up [grey_pixel; clear_pixel] grey_classes scan_start);
    vm_compute; reflexivity.
Defined.

(** ** The extraction returns *)

Lemma in_concat_length {A : Type} (b : list A) (bs : list (list A)) :
  In b bs -> (List.length b <= List.length (List.concat bs))%nat.
Proof.
  induction bs as [|b0 bs IH]; intros H; [contradiction|].
  cbn [List.concat]. rewrite length_app. destruct H as [-> | H]; [lia|].
  specialize (IH H). lia.
Qed.

Lemma get_in {A : Type} (l : list A) (i : Z) (x : A) : PyList.get l i = Ok x -> In x l.
Proof.
  unfold PyList.get. intros H. apply bind_ok in H. destruct H as (k & _ & H).
  destruct (nth_error l k) eqn:E; [|discriminate]. inversion H; subst.
  exact (nth_error_In _ _ E).
Qed.

Lemma byte_color_grey : byte_color (165, 165, 165).
Proof. cbn. lia. Qed.

(** The three ways out of [calculate_average_color], for an image of at
    most [2^32] pixels. *)
Lemma extraction_cases (img : image) :
  PyList.len (pixel_sequence img) <= bucket_limit ->
  exists st sc,
    classify (pixel_sequence img) = Ok st
    /\ find_strongest (buckets st) = Ok sc
    /\ ((dominant_accepted sc (total_non_transparent st) = true
         /\ exists c, byte_color c
              /\ calculate_average_color img = Ok (Some c, total_non_transparent st))
        \/ (dominant_accepted sc (total_non_transparent st) = false
            /\ greys st <> []
            /\ calculate_average_color img
               = Ok (Some (165, 165, 165), total_non_transparent st))
        \/ (dominant_accepted sc (total_non_transparent st) = false
            /\ greys st = []
            /\ calculate_average_color img = Ok (None, total_non_transparent st))).
Proof.
  intros Hsize.
  destruct (classify_filters (pixel_sequence img)) as (st & H & L & T & G & C & _).
  destruct (find_strongest_counted (buckets st) L) as (sc & Hsc & _ & Hc).
  exists st, sc. split; [exact H|]. split; [exact Hsc|].
  unfold calculate_average_color. rewrite H. cbn [bind].
  destruct (dominant_accepted sc (total_non_transparent st)) eqn:Hacc.
  - left. split; [reflexivity|].
    rewrite (select_accepted st sc Hsc Hacc).
    assert (Hb : best_bucket sc <> -1).
    { unfold dominant_accepted in Hacc. apply andb_true_iff in Hacc.
      destruct Hacc as [Hacc _]. apply negb_true_iff, Z.eqb_neq in Hacc. exact Hacc. }
    destruct (find_strongest_chosen (buckets st) sc L Hsc Hb) as (b & Hget & Hne).
    rewrite Hget. cbn [bind].
    assert (Hlen : PyList.len b <= bucket_limit).
    { pose proof (in_concat_length b (buckets st) (get_in _ _ _ Hget)) as Hle.
      pose proof (count_le colorful (pixel_sequence img)) as Hle2.
      unfold PyList.len in *. lia. }
    destruct (prime_color_returns b Hne Hlen) as [c Hc'].
    exists c. split; [exact (prime_color_range b c Hc')|].
    rewrite Hc'. reflexivity.
  - right. rewrite (select_not_accepted st sc Hsc Hacc).
    destruct (greys st) as [|g gs] eqn:Eg.
    + right. repeat split; reflexivity.
    + left. split; [reflexivity|]. split; [discriminate|].
      rewrite grey_color_constant by discriminate. reflexivity.
Qed.

(** X4. On every image of at most [2^32] pixels the extraction returns: it
    raises nothing.  The count it returns is the number of the pixels with
    alpha of 64 or more, and the colour, when there is one, is a triple of
    integers between 0 and 255. *)
Theorem X4_extraction_returns (img : image) :
  PyList.len (pixel_sequence img) <= bucket_limit ->
  exists avg n,
    calculate_average_color img = Ok (avg, n)
    /\ n = count solid (pixel_sequence img)
    /\ forall c, avg = Some c -> byte_color c.
Proof.
  intros Hsize.
  destruct (classify_filters (pixel_sequence img)) as (st0 & H0 & _ & T & _).
  destruct (extraction_cases img Hsize) as (st & sc & H & _ & Hcases).
  rewrite H0 in H. inversion H; subst st0. clear H.
  destruct Hcases as [(_ & c & Hc & ->) | [(_ & _ & ->) | (_ & _ & ->)]];
    eexists; eexists; (split; [reflexivity|]); (split; [exact T|]);
    intros c' E; inversion E; subst; (assumption || exact byte_color_grey).
Qed.

Lemma X4_extraction_returns_witness :
  exists avg n,
    calculate_average_color (flat_icon grey_pixel) = Ok (avg, n)
    /\ n = count solid (pixel_sequence (flat_icon grey_pixel))
    /\ forall c, avg = Some c -> byte_color c.
Proof.
  apply (X4_extraction_returns (flat_icon grey_pixel)). vm_compute. discriminate.
Defined.

(** ** The outcome of the extraction, by counts *)

Lemma concat_nil_Forall {A : Type} (bs : list (list A)) :
  List.length (List.concat bs) = 0%nat -> forall b, In b bs -> b = [].
Proof.
  intros H b Hb. pose proof (in_concat_length b bs Hb) as Hle.
  destruct b; [reflexivity | cbn in Hle; lia].
Qed.

(** For an icon the dominant hue is accepted when the colourful pixels are
    more than 15% of the solid ones, in exact arithmetic. *)
Lemma accepted_by_counts (pxs : list pixel) (st : classes) (sc : scan) :
  PyList.len pxs <= 4096 ->
  classify pxs = Ok st -> find_strongest (buckets st) = Ok sc ->
  dominant_accepted sc (total_non_transparent st) = true
  <-> 3 * count solid pxs < 20 * count colorful pxs.
Proof.
  intros Hsize Hst Hsc.
  destruct (classify_filters pxs) as (st0 & H & L & T & G & C & _).
  rewrite Hst in H. inversion H; subst st0. clear H.
  destruct (find_strongest_counted (buckets st) L) as (sc0 & Hsc0 & _ & Hc).
  rewrite Hsc in Hsc0. inversion Hsc0; subst sc0. clear Hsc0.
  pose proof (count_nonneg solid pxs) as Hn. pose proof (count_le solid pxs) as Hle.
  rewrite dominant_accepted_iff, coverage_test_exact by lia.
  rewrite T, Hc, C. split; [tauto|]. intros Hlt. split; [|exact Hlt].
  destruct (classify_classified pxs st Hst) as [_ Hsat].
  destruct (find_strongest_sound (buckets st) L Hsat) as (sc1 & Hsc1 & Hsound).
  rewrite Hsc in Hsc1. inversion Hsc1; subst sc1. clear Hsc1.
  destruct Hsound as [(_ & _ & Hall) | (i & b & _ & Hb & _)]; [|lia].
  exfalso.
  assert (Hz : List.length (List.concat (buckets st)) = 0%nat).
  { assert (Hnil : forall b, In b (buckets st) -> b = []).
    { intros b Hb. apply In_nth_error in Hb. destruct Hb as [i Hi].
      assert (Hi36 : (i < 36)%nat) by (rewrite <- L; apply nth_error_Some; congruence).
      rewrite (Hall i Hi36) in Hi. congruence. }
    clear - Hnil. induction (buckets st) as [|b bs IH]; [reflexivity|].
    cbn [List.concat]. rewrite length_app, (Hnil b (or_introl eq_refl)), IH; [reflexivity|].
    intros b' Hb'. apply Hnil. right. exact Hb'. }
  unfold PyList.len in C. lia.
Qed.

(** X5. The outcome of the extraction on an icon (an image of at most 4096
    pixels) is decided by three counts.  When the colourful pixels are more
    than 15% of the solid ones, a prime colour is returned; otherwise the
    grey (165, 165, 165) when some pixel is neutral, and no colour when none
    is.  The count returned is the number of the solid pixels. *)
Theorem X5_outcome_by_counts (img : image) :
  PyList.len (pixel_sequence img) <= 4096 ->
  exists avg,
    calculate_average_color img = Ok (avg, count solid (pixel_sequence img))
    /\ (3 * count solid (pixel_sequence img) < 20 * count colorful (pixel_sequence img) ->
        exists c, avg = Some c /\ byte_color c)
    /\ (20 * count colorful (pixel_sequence img) <= 3 * count solid (pixel_sequence img) ->
        avg = if 0 <? count neutral (pixel_sequence img)
              then Some (165, 165, 165) else None).
Proof.
  intros Hsize. set (pxs := pixel_sequence img) in *.
  destruct (classify_filters pxs) as (st0 & H0 & _ & T & G & _).
  destruct (extraction_cases img) as (st & sc & H & Hsc & Hcases).
  { fold pxs. unfold bucket_limit. lia. }
  fold pxs in H. rewrite H0 in H. inversion H; subst st0. clear H.
  pose proof (accepted_by_counts pxs st sc Hsize H0 Hsc) as Hacc.
  assert (Hg : PyList.len (greys st) = count neutral pxs)
    by (rewrite G; apply count_map_filter).
  rewrite T in Hcases, Hacc.
  destruct Hcases as [(Ha & c & Hc & ->) | [(Ha & Hne & ->) | (Ha & Hnil & ->)]];
    eexists; (split; [reflexivity|]).
  - split; [intros _; exists c; auto|]. intros Hle. apply Hacc in Ha. lia.
  - split; [intros Hlt; apply Hacc in Hlt; congruence|]. intros _.
    assert (Hpos : (0 <? count neutral pxs) = true).
    { apply Z.ltb_lt. rewrite <- Hg. unfold PyList.len.
      destruct (greys st); [congruence | cbn; lia]. }
    rewrite Hpos. reflexivity.
  - split; [intros Hlt; apply Hacc in Hlt; congruence|]. intros _.
    rewrite <- Hg, Hnil. reflexivity.
Qed.

Lemma X5_outcome_by_counts_witness :
  exists avg,
    calculate_average_color (flat_icon clear_pixel)
    = Ok (avg, count solid (pixel_sequence (flat_icon clear_pixel)))
    /\ (3 * count solid (pixel_sequence (flat_icon clear_pixel))
        < 20 * count colorful (pixel_sequence (flat_icon clear_pixel)) ->
        exists c, avg = Some c /\ byte_color c)
    /\ (20 * count colorful (pixel_sequence (flat_icon clear_pixel))
        <= 3 * count solid (pixel_sequence (flat_icon clear_pixel)) ->
        avg = if 0 <? count neutral (pixel_sequence (flat_icon clear_pixel))
              then Some (165, 165, 165) else None).
Proof.
  apply (X5_outcome_by_counts (flat_icon clear_pixel)). vm_compute. discriminate.
Defined.

(** ** Colours as text *)

Lemma list_ascii_append (a b : string) :
  list_ascii_of_string (a ++ b) = (list_ascii_of_string a ++ list_ascii_of_string b)%list.
Proof. induction a as [|c a IH]; cbn; [reflexivity | rewrite IH; reflexivity]. Qed.

Lemma string_length_append (a b : string) :
  String.length (a ++ b) = (String.length a + String.length b)%nat.
Proof. induction a as [|c a IH]; cbn; [reflexivity | rewrite IH; reflexivity]. Qed.

Lemma string_append_inj (a a' x y : string) :
  String.length a = String.length a' -> (a ++ x = a' ++ y)%string -> a = a' /\ x = y.
Proof.
  revert a'; induction a as [|c a IH]; intros [|c' a'] Hl H; cbn in *; try discriminate.
  - auto.
  - inversion H; subst. destruct (IH a' ltac:(lia) ltac:(assumption)) as [-> ->]. auto.
Qed.

Lemma format_02x_checked :
  forallb (fun v => (String.length (format_02x v) =? 2)%nat
                    && forallb hex_digit (list_ascii_of_string (format_02x v)))
          (PyList.range 256) = true.
Proof. vm_compute. reflexivity. Qed.

Lemma format_02x_distinct :
  forallb (fun a => forallb (fun b => implb (String.eqb (format_02x a) (format_02x b))
                                            (a =? b))
                            (PyList.range 256))
          (PyList.range 256) = true.
Proof. vm_compute. reflexivity. Qed.

(** A channel is written with two hexadecimal digits. *)
Lemma format_02x_byte (v : Z) :
  0 <= v <= 255 ->
  String.length (format_02x v) = 2%nat
  /\ forallb hex_digit (list_ascii_of_string (format_02x v)) = true.
Proof.
  intros Hv. pose proof format_02x_checked as H. rewrite forallb_forall in H.
  specialize (H v (in_range 256 v ltac:(lia))). apply andb_true_iff in H.
  destruct H as [H1 H2]. apply Nat.eqb_eq in H1. auto.
Qed.

Lemma format_02x_inj (a b : Z) :
  0 <= a <= 255 -> 0 <= b <= 255 -> format_02x a = format_02x b -> a = b.
Proof.
  intros Ha Hb E. pose proof format_02x_distinct as H. rewrite forallb_forall in H.
  specialize (H a (in_range 256 a ltac:(lia))). rewrite forallb_forall in H.
  specialize (H b (in_range 256 b ltac:(lia))).
  rewrite E, String.eqb_refl in H. cbn in H. apply Z.eqb_eq. exact H.
Qed.

Lemma hex_color_shape (c : rgb) : byte_color c -> is_hex_color (hex_color c) = true.
Proof.
  destruct c as [[r g] b]. intros (Hr & Hg & Hb).
  destruct (format_02x_byte r Hr) as [Lr Dr]. destruct (format_02x_byte g Hg) as [Lg Dg].
  destruct (format_02x_byte b Hb) as [Lb Db].
  unfold hex_color, is_hex_color.
  rewrite !string_length_append, Lr, Lg, Lb, !list_ascii_append, !forallb_app, Dr, Dg, Db.
  reflexivity.
Qed.

Lemma hex_color_length (c : rgb) : byte_color c -> String.length (hex_color c) = 7%nat.
Proof.
  destruct c as [[r g] b]. intros (Hr & Hg & Hb). unfold hex_color.
  cbn [String.length]. rewrite !string_length_append.
  rewrite (proj1 (format_02x_byte r Hr)), (proj1 (format_02x_byte g Hg)),
    (proj1 (format_02x_byte b Hb)). reflexivity.
Qed.

Lemma hex_color_inj (c c' : rgb) :
  byte_color c -> byte_color c' -> hex_color c = hex_color c' -> c = c'.
Proof.
  destruct c as [[r g] b], c' as [[r' g'] b']. intros (Hr & Hg & Hb) (Hr' & Hg' & Hb') E.
  unfold hex_color in E. inversion E as [E1]. clear E.
  apply string_append_inj in E1;
    [|rewrite (proj1 (format_02x_byte r Hr)), (proj1 (format_02x_byte r' Hr')); reflexivity].
  destruct E1 as [E1 E2].
  apply string_append_inj in E2;
    [|rewrite (proj1 (format_02x_byte g Hg)), (proj1 (format_02x_byte g' Hg')); reflexivity].
  destruct E2 as [E2 E3].
  rewrite (format_02x_inj r r' Hr Hr' E1), (format_02x_inj g g' Hg Hg' E2),
    (format_02x_inj b b' Hb Hb' E3). reflexivity.
Qed.

(** X9. The hex form of a colour of 8-bit channels is a hash sign and six
    lower-case hexadecimal digits, and two such colours with the same hex
    form are the same colour. *)
Theorem X9_hex_color_is_faithful (c c' : rgb) :
  byte_color c -> byte_color c' ->
  is_hex_color (hex_color c) = true
  /\ String.length (hex_color c) = 7%nat
  /\ (hex_color c = hex_color c' -> c = c').
Proof.
  intros Hc Hc'. split; [exact (hex_color_shape c Hc)|].
  split; [exact (hex_color_length c Hc) | exact (hex_color_inj c c' Hc Hc')].
Qed.

Lemma X9_hex_color_is_faithful_witness :
  is_hex_color (hex_color (255, 25, 25)) = true
  /\ String.length (hex_color (255, 25, 25)) = 7%nat
  /\ (hex_color (255, 25, 25) = hex_color (165, 165, 165) -> (255, 25, 25) = (165, 165, 165)).
Proof.
  apply (X9_hex_color_is_faithful (255, 25, 25) (165, 165, 165)); cbn; lia.
Defined.

(** ** The walk never raises *)

Lemma crop_size (sprite : sprite_sheet) (sx sy : Z) :
  PyList.len (pixel_sequence (crop sprite sx sy)) = 4096.
Proof. unfold PyList.len. rewrite pixel_sequence_length. reflexivity. Qed.

(** The extraction returns on every cell. *)
Lemma cell_returns (sprite : sprite_sheet) (it : item) :
  exists avg n,
    calculate_average_color (cell sprite it) = Ok (avg, n)
    /\ forall c, avg = Some c -> byte_color c.
Proof.
  destruct (extraction_cases (cell sprite it)) as (st & sc & _ & _ & Hcases).
  { unfold cell. rewrite crop_size. unfold bucket_limit. lia. }
  destruct Hcases as [(_ & c & Hc & ->) | [(_ & _ & ->) | (_ & _ & ->)]];
    eexists; eexists; (split; [reflexivity|]);
    intros c' E; inversion E; subst; (assumption || exact byte_color_grey).
Qed.

(** One item: it gets a colour and an entry, or it gets a line of the log. *)
Lemma walk_item_returns (sprite : sprite_sheet) (w : walk) (it : item) :
  (exists c, item_color sprite it = Some c /\ byte_color c
     /\ walk_item sprite w it
        = Ok {| colors := PyDict.set (id it) (hex_color c) (colors w);
                log_lines := log_lines w |})
  \/ (item_color sprite it = None
      /\ exists line, walk_item sprite w it = Ok (diagnosed w line)).
Proof.
  unfold walk_item, item_color. fold (cell sprite it).
  destruct (sheet_height sprite <? iconIndex it / COLS * ICON_SIZE + ICON_SIZE).
  - right. split; [reflexivity|]. eexists. reflexivity.
  - destruct (cell_returns sprite it) as (avg & n & -> & Hc). cbn [bind].
    destruct avg as [c|].
    + left. exists c. split; [reflexivity|]. split; [apply Hc; reflexivity | reflexivity].
    + right. split; [reflexivity|]. eexists. reflexivity.
Qed.

Lemma find_snoc {A : Type} (f : A -> bool) (l : list A) (x : A) :
  find f (l ++ [x]) = match find f l with
                      | Some y => Some y
                      | None => if f x then Some x else None
                      end.
Proof.
  induction l as [|y l IH]; cbn; [reflexivity|]. destruct (f y); [reflexivity | exact IH].
Qed.

(** The whole loop, from any state. *)
Lemma walk_items_returns (sprite : sprite_sheet) (items : list item) :
  forall w0, exists w,
    walk_items sprite items w0 = Ok w
    /\ PyList.len (log_lines w)
       = PyList.len (log_lines w0) + count (fun it => negb (has_color sprite it)) items
    /\ (forall k, PyDict.get k (colors w)
                  = match find (colored_as sprite k) (rev items) with
                    | Some it => option_map hex_color (item_color sprite it)
                    | None => PyDict.get k (colors w0)
                    end)
    /\ (forall k v, In (k, v) (colors w) ->
          In (k, v) (colors w0) \/ is_hex_color v = true).
Proof.
  unfold walk_items. induction items as [|it items IH]; intros w0.
  - exists w0. cbn. split; [reflexivity|]. split; [unfold count; cbn; lia|]. auto.
  - cbn [PyList.for_each rev]. rewrite (count_cons _ it items), count_single.
    unfold has_color at 1.
    destruct (walk_item_returns sprite w0 it) as [(c & Hc & Hb & ->) | (Hn & line & ->)];
      cbn [bind].
    + destruct (IH {| colors := PyDict.set (id it) (hex_color c) (colors w0);
                      log_lines := log_lines w0 |}) as (w & -> & Hlog & Hget & Hval).
      exists w. split; [reflexivity|]. cbn [log_lines colors] in *.
      rewrite Hc. cbn [negb]. split; [lia|]. split.
      * intros k. rewrite Hget, find_snoc.
        destruct (find (colored_as sprite k) (rev items)); [reflexivity|].
        unfold colored_as, has_color. rewrite Hc. rewrite andb_true_r.
        destruct (String.eqb_spec (id it) k) as [<- | Hne].
        -- rewrite Hc. apply dict_get_set_same.
        -- apply dict_get_set_other. congruence.
      * intros k v Hin. destruct (Hval k v Hin) as [Hin0 | Hhex]; [|right; exact Hhex].
        apply dict_set_in in Hin0. destruct Hin0 as [E | Hin0]; [|left; exact Hin0].
        inversion E; subst. right. exact (hex_color_shape c Hb).
    + destruct (IH (diagnosed w0 line)) as (w & -> & Hlog & Hget & Hval).
      exists w. split; [reflexivity|]. cbn [log_lines colors diagnosed] in *.
      rewrite Hn. cbn [negb]. split.
      * rewrite Hlog. unfold PyList.len. rewrite length_app. cbn [List.length]. lia.
      * split; [|exact Hval]. intros k. rewrite Hget, find_snoc.
        destruct (find (colored_as sprite k) (rev items)); [reflexivity|].
        unfold colored_as, has_color. rewrite Hn, andb_false_r. reflexivity.
Qed.

Lemma main_returns (sprite : sprite_sheet) (items : list item) :
  exists w,
    main (Some sprite) items = Ok (Some w)
    /\ PyList.len (log_lines w)
       = 1 + count (fun it => negb (has_color sprite it)) items
    /\ (forall k, PyDict.get k (colors w)
                  = match find (colored_as sprite k) (rev items) with
                    | Some it => option_map hex_color (item_color sprite it)
                    | None => None
                    end)
    /\ (forall k v, In (k, v) (colors w) -> is_hex_color v = true).
Proof.
  destruct (walk_items_returns sprite items (walk_start sprite))
    as (w & Hw & Hlog & Hget & Hval).
  exists w. unfold main. rewrite Hw. cbn [bind].
  split; [reflexivity|]. split; [exact Hlog|]. split; [exact Hget|].
  intros k v Hin. destruct (Hval k v Hin) as [[] | H]. exact H.
Qed.




(** X7. Under an id the mapping holds the hex form of the colour of the last
    item of that id that gets a colour: a later item of the same id
    overwrites the entry, and an item that gets no colour leaves it. *)
Theorem X7_last_colored_item_wins (sprite : sprite_sheet) (items : list item)
        (w : walk) (k : string) :
  main (Some sprite) items = Ok (Some w) ->
  PyDict.get k (colors w)
  = match find (colored_as sprite k) (rev items) with
    | Some it => option_map hex_color (item_color sprite it)
    | None => None
    end.
Proof.
  intros H. destruct (main_returns sprite items) as (w0 & Hw & _ & Hget & _).
  rewrite H in Hw. inversion Hw; subst w0. apply Hget.
Qed.

Lemma X7_last_colored_item_wins_witness :
  PyDict.get "ore" [("ore", "#a5a5a5")]%string
  = match find (colored_as two_tone_sheet "ore")
               (rev [item_at "ore" 0; item_at "ore" 1; item_at "ore" 23])
          return option string with
    | Some it => option_map hex_color (item_color two_tone_sheet it)
    | None => None
    end.
Proof.
  apply (X7_last_colored_item_wins two_tone_sheet
           [item_at "ore" 0; item_at "ore" 1; item_at "ore" 23]
           {| colors := [("ore", "#a5a5a5")]%string;
              log_lines := ["Image Size: 128x64";
                            "Error: Icon 23 (Item: ore) is outside sprite sheet (Height: 64)"]%string |}
           "ore"%string).
  vm_compute. reflexivity.
Defined.

(** X8. Every value of the mapping is a hash sign followed by six lower-case
    hexadecimal digits. *)
Theorem X8_values_are_hex_colors (sprite : sprite_sheet) (items : list item)
        (w : walk) (k v : string) :
  main (Some sprite) items = Ok (Some w) ->
  In (k, v) (colors w) -> is_hex_color v = true.
Proof.
  intros H. destruct (main_returns sprite items) as (w0 & Hw & _ & _ & Hval).
  rewrite H in Hw. inversion Hw; subst w0. apply Hval.
Qed.

Lemma X8_values_are_hex_colors_witness : is_hex_color "#ff1919" = true.
Proof.
  apply (X8_values_are_hex_colors (flat_sheet (Byte.xff, Byte.x00, Byte.x00, Byte.xff))
           [item_at "ore" 0]
           {| colors := [("ore", "#ff1919")]%string;
              log_lines := ["Image Size: 1472x64"]%string |}
           "ore"%string "#ff1919"%string).
  - vm_compute. reflexivity.
  - left. reflexivity.
Defined.

(** ** Cells beside the sheet *)





(** ** The saturation of a pixel may exceed 1 *)





(** ** The icon-index patch, again *)

Lemma dict_set_set {V : Type} (k : string) (v : V) (d : list (string * V)) :
  PyDict.set k v (PyDict.set k v d) = PyDict.set k v d.
Proof.
  induction d as [|[k' v'] d IH]; cbn.
  - rewrite String.eqb_refl. reflexivity.
  - destruct (String.eqb k k') eqn:E; cbn.
    + rewrite String.eqb_refl. reflexivity.
    + rewrite E, IH. reflexivity.
Qed.

Lemma dict_set_keys {V : Type} (k : string) (v : V) (d : list (string * V)) :
  PyDict.keys (PyDict.set k v d)
  = if PyDict.mem k d then PyDict.keys d else (PyDict.keys d ++ [k])%list.
Proof.
  unfold PyDict.mem, PyDict.keys. induction d as [|[k' v'] d IH]; cbn; [reflexivity|].
  destruct (String.eqb_spec k k') as [-> | Hne]; cbn; [reflexivity|].
  rewrite IH. destruct (PyDict.get k d); reflexivity.
Qed.

Lemma patch_item_again (it it' : json) (hit : bool) :
  patch_item it = Ok (it', hit) -> patch_item it' = Ok (it', hit).
Proof.
  unfold patch_item. destruct it as [| | | | |elems|fields]; try discriminate.
  destruct (in_mappings _) as [[idx|]|e] eqn:Hm; cbn [bind]; try discriminate;
    intros H; inversion H; subst; clear H.
  - rewrite dict_get_set_other by discriminate. rewrite Hm. cbn [bind].
    rewrite dict_set_set. reflexivity.
  - rewrite Hm. reflexivity.
Qed.

Lemma patch_items_again (items : list json) :
  forall count items' n, patch_items items count = Ok (items', n) ->
  forall count', patch_items items' count' = Ok (items', count' + (n - count)).
Proof.
  induction items as [|it items IH]; intros count items' n H count'; cbn in H.
  - inversion H; subst. cbn. f_equal. f_equal. lia.
  - apply bind_ok in H. destruct H as ([it1 hit] & Hit & H).
    apply bind_ok in H. destruct H as ([rest n1] & Hrest & H). inversion H; subst.
    cbn. rewrite (patch_item_again it it1 hit Hit). cbn [bind].
    rewrite (IH _ _ _ Hrest). cbn [bind]. f_equal. f_equal. destruct hit; lia.
Qed.

(** X11. The patch is idempotent: run on the document it has written, it
    writes the same document again, and reports the same count (it counts
    the items whose id is mapped, not the ones it changes). *)
Theorem X11_patch_is_idempotent (data data' : json) (n : Z) :
  patch data = Ok (data', n) -> patch data' = Ok (data', n).
Proof.
  intros H. assert (Hsame : data' = data -> patch data' = Ok (data', n))
    by (intros ->; exact H).
  unfold patch in H. destruct data as [| | | | |elems|fields]; try discriminate.
  destruct (PyDict.get "items" fields) as [v|] eqn:Hget;
    [|inversion H; subst; auto].
  destruct v as [| | | |s|items|fs]; try discriminate.
  - destruct s; [|discriminate]. inversion H; subst; auto.
  - apply bind_ok in H. destruct H as ([items' n'] & Hp & H). inversion H; subst.
    unfold patch. rewrite dict_get_set_same.
    rewrite (patch_items_again items 0 items' n Hp 0). cbn [bind].
    rewrite dict_set_set. f_equal. f_equal. lia.
  - destruct fs; [|discriminate]. inversion H; subst; auto.
Qed.

Lemma X11_patch_is_idempotent_witness :
  patch (JObj [("version", JInt 3);
               ("items", JArr [JObj [("id", JStr "grating-crystal");
                                     ("name", JStr "Grating"); ("iconIndex", JInt 11)];
                               JObj [("id", JStr "iron-ore"); ("iconIndex", JInt 1)]]);
               ("recipes", JArr [])]%string)
  = Ok (JObj [("version", JInt 3);
              ("items", JArr [JObj [("id", JStr "grating-crystal");
                                    ("name", JStr "Grating"); ("iconIndex", JInt 11)];
                              JObj [("id", JStr "iron-ore"); ("iconIndex", JInt 1)]]);
              ("recipes", JArr [])]%string, 1).
Proof.
  apply (X11_patch_is_idempotent sample_manifest). reflexivity.
Defined.

(** The error of the first item on which the body of the loop raises. *)
Lemma patch_item_raises (bad : json) :
  ~ patchable bad ->
  patch_item bad = Raise (match bad with JObj _ => TypeError | _ => AttributeError end).
Proof.
  unfold patchable, patch_item. destruct bad as [| | | | |elems|fields]; try reflexivity.
  destruct (PyDict.get "id" fields) as [[| | | |s| |]|]; cbn [in_mappings bind];
    try reflexivity; intros H; exfalso; apply H; exact I.
Qed.

Lemma patch_items_raises (pre : list json) (bad : json) (post : list json) :
  forall count, Forall patchable pre -> ~ patchable bad ->
  patch_items (pre ++ bad :: post) count
  = Raise (match bad with JObj _ => TypeError | _ => AttributeError end).
Proof.
  induction pre as [|it pre IH]; intros count Hpre Hbad; cbn.
  - rewrite (patch_item_raises bad Hbad). reflexivity.
  - inversion Hpre; subst.
    destruct (patch_item_total it) as [[it1 hit] ->]; [assumption|]. cbn [bind].
    rewrite IH by assumption. reflexivity.
Qed.

(** X12. One item that is not an object, or whose id is a list or an
    object, aborts the patch: the script raises AttributeError (no [get]) or
    TypeError (the id cannot be hashed) at the first such item and writes
    nothing, whatever the items before it and after it. *)
Theorem X12_bad_item_aborts_the_patch
        (fields : list (string * json)) (pre : list json) (bad : json) (post : list json) :
  PyDict.get "items" fields = Some (JArr (pre ++ bad :: post)) ->
  Forall patchable pre -> ~ patchable bad ->
  patch (JObj fields)
  = Raise (match bad with JObj _ => TypeError | _ => AttributeError end).
Proof.
  intros Hget Hpre Hbad. unfold patch. rewrite Hget.
  rewrite (patch_items_raises pre bad post 0 Hpre Hbad). reflexivity.
Qed.

Lemma X12_bad_item_aborts_the_patch_witness :
  patch (JObj [("items", JArr [JObj [("id", JStr "grating-crystal")];
                               JStr "iron-ore"])]%string)
  = Raise AttributeError.
Proof.
  apply (X12_bad_item_aborts_the_patch
           [("items", JArr [JObj [("id", JStr "grating-crystal")]; JStr "iron-ore"])]%string
           [JObj [("id", JStr "grating-crystal")]]%string (JStr "iron-ore") []).
  - reflexivity.
  - repeat constructor.
  - cbn. tauto.
Defined.

(** X13. The patch keeps the order of the keys of an item: a mapped item
    that has no ["iconIndex"] gets it as its last key, and no other key is
    added, removed or moved. *)
Theorem X13_patch_keeps_key_order (it it' : json) (hit : bool) :
  patch_item it = Ok (it', hit) ->
  exists fields fields',
    it = JObj fields /\ it' = JObj fields'
    /\ PyDict.keys fields'
       = if hit && negb (PyDict.mem "iconIndex" fields)
         then (PyDict.keys fields ++ ["iconIndex"%string])%list
         else PyDict.keys fields.
Proof.
  unfold patch_item. destruct it as [| | | | |elems|fields]; try discriminate.
  destruct (in_mappings _) as [[idx|]|e]; cbn [bind]; try discriminate;
    intros H; inversion H; subst; clear H; eexists; eexists;
    (split; [reflexivity|]); (split; [reflexivity|]).
  - rewrite dict_set_keys. destruct (PyDict.mem "iconIndex" fields); reflexivity.
  - reflexivity.
Qed.

Lemma X13_patch_keeps_key_order_witness :
  exists fields fields',
    JObj [("id", JStr "grating-crystal"); ("name", JStr "Grating")]%string = JObj fields
    /\ JObj [("id", JStr "grating-crystal"); ("name", JStr "Grating");
             ("iconIndex", JInt 11)]%string = JObj fields'
    /\ PyDict.keys fields'
       = if true && negb (PyDict.mem "iconIndex" fields)
         then (PyDict.keys fields ++ ["iconIndex"%string])%list
         else PyDict.keys fields.
Proof.
  apply (X13_patch_keeps_key_order
           (JObj [("id", JStr "grating-crystal"); ("name", JStr "Grating")]%string)).
  reflexivity.
Defined.

(** ** The extraction of the gatherers *)

Section Gatherers.
Import extract_gatherers.

Lemma and_then_done {A B : Type} (c : result A) (k : A -> result B) (b : B) :
  and_then c k = Done b -> exists a, c = Done a /\ k a = Done b.
Proof.
  destruct c as [a|e]; cbn; intros H; [now exists a | discriminate].
Qed.


(** *** The loop *)

Lemma handle_cases (st st' : separation) (r : json) :
  handle st r = Done st' ->
  exists fields, r = JObj fields
    /\ ((is_gathering fields = true
         /\ exists g, gatherer_of fields = Done g
              /\ st' = {| gatherers := gatherers st ++ [g];
                          remaining_recipes := remaining_recipes st |})
        \/ (is_gathering fields = false
            /\ st' = {| gatherers := gatherers st;
                        remaining_recipes := remaining_recipes st ++ [r] |})).
Proof.
  unfold handle. destruct r as [| | | | |elems|fields]; try discriminate.
  intros H. exists fields. split; [reflexivity|].
  destruct (is_gathering fields).
  - left. split; [reflexivity|]. apply and_then_done in H.
    destruct H as (g & Hg & H). inversion H; subst. eauto.
  - right. split; [reflexivity|]. inversion H; subst. reflexivity.
Qed.

Lemma loop_partition (rs : list json) :
  forall st st', for_each handle rs st = Done st' ->
  remaining_recipes st'
  = remaining_recipes st ++ filter (fun r => negb (gathering r)) rs
  /\ Forall (fun r => exists fields, r = JObj fields) rs
  /\ exists gs, gatherers st' = gatherers st ++ gs
       /\ Forall2 converted (filter gathering rs) gs.
Proof.
  induction rs as [|r rs IH]; intros st st' H; cbn in H.
  - inversion H; subst. cbn. rewrite app_nil_r. split; [reflexivity|].
    split; [constructor|]. exists []. rewrite app_nil_r. split; [reflexivity | constructor].
  - apply and_then_done in H. destruct H as (st1 & H1 & H).
    destruct (IH st1 st' H) as (Hrem & Hobj & gs & Hgs & Hconv).
    destruct (handle_cases st st1 r H1) as (fields & -> & [(Hg & g & Hgo & ->) | (Hg & ->)]);
      cbn [gatherers remaining_recipes filter gathering] in *; rewrite Hg; cbn [negb].
    + split; [exact Hrem|]. split; [constructor; eauto|].
      exists (g :: gs). split; [rewrite Hgs, <- app_assoc; reflexivity|].
      constructor; [exists fields; auto | exact Hconv].
    + split; [rewrite Hrem, <- app_assoc; reflexivity|]. split; [constructor; eauto|].
      exists gs. auto.
Qed.

Lemma loop_passes (rs : list json) :
  forall st,
    Forall (fun r => exists fields, r = JObj fields /\ is_gathering fields = false) rs ->
    for_each handle rs st
    = Done {| gatherers := gatherers st;
              remaining_recipes := remaining_recipes st ++ rs |}.
Proof.
  induction rs as [|r rs IH]; intros st H; cbn.
  - rewrite app_nil_r. destruct st; reflexivity.
  - inversion H as [|r0 rs0 (fields & -> & Hg) Hrs]; subst. cbn [handle]. rewrite Hg.
    cbn [and_then]. rewrite (IH _ Hrs). cbn [gatherers remaining_recipes].
    rewrite <- app_assoc. reflexivity.
Qed.

Lemma main_cases (data data' : json) :
  extract_gatherers.main data = Done data' ->
  exists fields elems st,
    data = JObj fields
    /\ iterate (get_default fields "recipes" (JArr [])) = Done elems
    /\ for_each handle elems nothing_yet = Done st
    /\ data' = JObj (PyDict.set "gatherers" (JArr (gatherers st))
                       (PyDict.set "recipes" (JArr (remaining_recipes st)) fields)).
Proof.
  unfold extract_gatherers.main. destruct data as [| | | | |es|fields]; try discriminate.
  intros H. apply and_then_done in H. destruct H as (elems & He & H).
  apply and_then_done in H. destruct H as (st & Hst & H). inversion H; subst.
  exists fields, elems, st. auto.
Qed.

(** X14. The script splits the recipes in two, keeping the order of each
    part: the recipes that are not of the category Gathering stay under
    ["recipes"], unchanged, and the gatherers made of the Gathering recipes
    go under ["gatherers"], one for each; no recipe is lost or doubled. *)
Theorem X14_recipes_are_partitioned
        (fields : list (string * json)) (rs : list json) (data' : json) :
  PyDict.get "recipes" fields = Some (JArr rs) ->
  extract_gatherers.main (JObj fields) = Done data' ->
  exists gs,
    data' = JObj (PyDict.set "gatherers" (JArr gs)
                    (PyDict.set "recipes"
                       (JArr (filter (fun r => negb (gathering r)) rs)) fields))
    /\ Forall2 converted (filter gathering rs) gs
    /\ PyList.len gs + PyList.len (filter (fun r => negb (gathering r)) rs)
       = PyList.len rs.
Proof.
  intros Hget H. destruct (main_cases _ _ H) as (fields0 & elems & st & E & Hit & Hloop & ->).
  inversion E; subst fields0. clear E.
  unfold get_default in Hit. rewrite Hget in Hit. cbn in Hit. inversion Hit; subst elems.
  destruct (loop_partition rs _ _ Hloop) as (Hrem & _ & gs & Hgs & Hconv).
  cbn [nothing_yet gatherers remaining_recipes app] in Hrem, Hgs.
  exists gs. rewrite Hrem, Hgs. split; [reflexivity|]. split; [exact Hconv|].
  unfold PyList.len. rewrite <- (Forall2_length Hconv).
  pose proof (filter_length gathering rs). lia.
Qed.

Lemma X14_recipes_are_partitioned_witness :
  exists gs,
    sample_extracted
    = JObj (PyDict.set "gatherers" (JArr gs)
              (PyDict.set "recipes"
                 (JArr (filter (fun r => negb (gathering r)) sample_recipes))
                 sample_fields))
    /\ Forall2 converted (filter gathering sample_recipes) gs
    /\ PyList.len gs + PyList.len (filter (fun r => negb (gathering r)) sample_recipes)
       = PyList.len sample_recipes.
Proof.
  apply (X14_recipes_are_partitioned sample_fields sample_recipes sample_extracted);
    reflexivity.
Defined.


(** *** The division raises nothing on moderate numbers *)












(** *** One gatherer *)





(** *** The script returns on acceptable recipes *)







(** *** A malformed Gathering recipe *)





(** *** The script, run again *)

Lemma dict_set_same_value {V : Type} (k : string) (v : V) (d : list (string * V)) :
  PyDict.get k d = Some v -> PyDict.set k v d = d.
Proof.
  induction d as [|[k' v'] d IH]; cbn; [discriminate|].
  destruct (String.eqb_spec k k') as [-> | Hne].
  - intros H. inversion H; subst. reflexivity.
  - intros H. rewrite (IH H). reflexivity.
Qed.

(** X19. The script is not idempotent.  Run on the document it has written,
    it finds no Gathering recipe, leaves ["recipes"] as it is and replaces
    ["gatherers"] by an empty list: the gatherers of the first run are
    lost. *)
Theorem X19_second_run_erases_the_gatherers (data d1 : json) :
  extract_gatherers.main data = Done d1 ->
  exists fields1 gs,
    d1 = JObj fields1
    /\ PyDict.get "gatherers" fields1 = Some (JArr gs)
    /\ extract_gatherers.main d1
       = Done (JObj (PyDict.set "gatherers" (JArr []) fields1)).
Proof.
  intros H. destruct (main_cases _ _ H) as (fields & elems & st & -> & _ & Hloop & ->).
  destruct (loop_partition elems _ _ Hloop) as (Hrem & Hobj & _).
  cbn [nothing_yet remaining_recipes app] in Hrem.
  set (rem := remaining_recipes st) in *.
  eexists. exists (gatherers st). split; [reflexivity|].
  split; [apply dict_get_set_same|].
  assert (Hget : PyDict.get "recipes"
                   (PyDict.set "gatherers" (JArr (gatherers st))
                      (PyDict.set "recipes" (JArr rem) fields)) = Some (JArr rem)).
  { rewrite dict_get_set_other by discriminate. apply dict_get_set_same. }
  unfold extract_gatherers.main, get_default. rewrite Hget. cbn [iterate and_then].
  rewrite loop_passes.
  - cbn [and_then nothing_yet gatherers remaining_recipes app].
    rewrite (dict_set_same_value _ _ _ Hget). reflexivity.
  - rewrite Hrem. apply Forall_forall. intros r Hr. apply filter_In in Hr.
    destruct Hr as [Hin Hng]. rewrite Forall_forall in Hobj.
    destruct (Hobj r Hin) as [f ->]. exists f. split; [reflexivity|].
    cbn [gathering] in Hng. apply negb_true_iff in Hng. exact Hng.
Qed.

Lemma X19_second_run_erases_the_gatherers_witness :
  exists fields1 gs,
    sample_extracted = JObj fields1
    /\ PyDict.get "gatherers" fields1 = Some (JArr gs)
    /\ extract_gatherers.main sample_extracted
       = Done (JObj (PyDict.set "gatherers" (JArr []) fields1)).
Proof.
  apply (X19_second_run_erases_the_gatherers sample_pack sample_extracted).
  vm_compute. reflexivity.
Defined.


(** *** The other keys of the document *)

Lemma dict_mem_set_other {V : Type} (k k0 : string) (v : V) (d : list (string * V)) :
  k <> k0 -> PyDict.mem k (PyDict.set k0 v d) = PyDict.mem k d.
Proof. intros H. unfold PyDict.mem. rewrite dict_get_set_other by exact H. reflexivity. Qed.

(** X17. The script touches two keys of the document and no other: every
    other key keeps its value, and the keys keep their order, ["recipes"]
    and then ["gatherers"] being added at the end when they are absent.  A
    ["gatherers"] list that the document already has is replaced. *)
Theorem X17_other_keys_are_kept (fields : list (string * json)) (data' : json) :
  extract_gatherers.main (JObj fields) = Done data' ->
  exists fields',
    data' = JObj fields'
    /\ (forall k, k <> "recipes"%string -> k <> "gatherers"%string ->
                  PyDict.get k fields' = PyDict.get k fields)
    /\ PyDict.keys fields'
       = (PyDict.keys fields
          ++ (if PyDict.mem "recipes" fields then [] else ["recipes"%string])
          ++ (if PyDict.mem "gatherers" fields then [] else ["gatherers"%string]))%list.
Proof.
  intros H. destruct (main_cases _ _ H) as (fields0 & elems & st & E & _ & _ & ->).
  inversion E; subst fields0. eexists. split; [reflexivity|]. split.
  - intros k H1 H2. rewrite !dict_get_set_other by assumption. reflexivity.
  - rewrite !dict_set_keys, dict_mem_set_other by discriminate.
    destruct (PyDict.mem "recipes" fields), (PyDict.mem "gatherers" fields);
      rewrite ?app_nil_r, <- ?app_assoc; reflexivity.
Qed.

Lemma X17_other_keys_are_kept_witness :
  exists fields',
    sample_extracted = JObj fields'
    /\ (forall k, k <> "recipes"%string -> k <> "gatherers"%string ->
                  PyDict.get k fields' = PyDict.get k sample_fields)
    /\ PyDict.keys fields'
       = (PyDict.keys sample_fields
          ++ (if PyDict.mem "recipes" sample_fields then [] else ["recipes"%string])
          ++ (if PyDict.mem "gatherers" sample_fields then [] else ["gatherers"%string]))%list.
Proof.
  apply (X17_other_keys_are_kept sample_fields sample_extracted). reflexivity.
Defined.

End Gatherers.
